(** * Workflow compiler: execution-graph construction and validation

    Shallow embedding of
    [inference/enterprise/workflows/execution_engine/compiler/graph_constructor.py]
    and
    [inference/enterprise/workflows/execution_engine/introspection/connections_discovery.py].

    Python dictionaries that are only looked up by key and Python sets are
    [gmap] / [gset]; the [networkx.DiGraph] keeps its insertion order (its
    nodes and adjacencies are ordered dictionaries and the topological sort
    depends on that order), so it is a pair of association lists. *)

From Stdlib Require Import Ascii String.
From stdpp Require Import gmap strings list fin_maps fin_sets.

Local Open Scope string_scope.
Local Open Scope list_scope.

(** ** Errors *)

(** The exception classes raised by the compiler.  [KeyError] and
    [AttributeError] are the Python built-ins raised by a failed dictionary
    or attribute access; [NetworkXError], [NetworkXUnfeasible] and
    [RuntimeError] are raised by networkx.  [FuelExhausted] is not a Python
    exception: it marks a loop of the model that ran out of its iteration
    bound. *)
Inductive ErrorClass :=
| ExecutionGraphStructureErrorClass
| InvalidReferenceTargetErrorClass
| DanglingExecutionBranchErrorClass
| ConditionalBranchesClashErrorClass
| ReferenceTypeErrorClass
| KeyErrorClass
| AttributeErrorClass
| NetworkXErrorClass
| NetworkXUnfeasibleClass
| RuntimeErrorClass
| FuelExhaustedClass.

(** Messages of [ExecutionGraphStructureError]: the two raise sites of the
    class differ by their [public_message] only. *)
Inductive StructureMessage :=
| DetectedCycle
| DetectedReferenceToOtherStep (step_selector : string).

Inductive WorkflowError :=
| ExecutionGraphStructureError (public_message : StructureMessage)
| InvalidReferenceTargetError (selector : string)
| DanglingExecutionBranchError (nodes_not_reaching_output : gset string)
| ConditionalBranchesClashError
| ReferenceTypeError
| KeyError (key : string)
| AttributeError
| NetworkXError
| NetworkXUnfeasible
| RuntimeError
| FuelExhausted.

Definition error_class (e : WorkflowError) : ErrorClass :=
  match e with
  | ExecutionGraphStructureError _ => ExecutionGraphStructureErrorClass
  | InvalidReferenceTargetError _ => InvalidReferenceTargetErrorClass
  | DanglingExecutionBranchError _ => DanglingExecutionBranchErrorClass
  | ConditionalBranchesClashError => ConditionalBranchesClashErrorClass
  | ReferenceTypeError => ReferenceTypeErrorClass
  | KeyError _ => KeyErrorClass
  | AttributeError => AttributeErrorClass
  | NetworkXError => NetworkXErrorClass
  | NetworkXUnfeasible => NetworkXUnfeasibleClass
  | RuntimeError => RuntimeErrorClass
  | FuelExhausted => FuelExhaustedClass
  end.

Inductive Result (A : Type) :=
| Ok (a : A)
| Raise (e : WorkflowError).
Arguments Ok {A} a.
Arguments Raise {A} e.

Global Instance Result_ret : MRet Result := fun _ a => Ok a.
Global Instance Result_bind : MBind Result := fun _ _ f m =>
  match m with
  | Ok a => f a
  | Raise e => Raise e
  end.

Definition raises {A} (m : Result A) (c : ErrorClass) : Prop :=
  ∃ e, m = Raise e ∧ error_class e = c.

Definition returns {A} (m : Result A) : Prop := ∃ a, m = Ok a.

(** ** Entities *)

Record Kind := { kind_name : string }.

Record ReferenceDefinition := {
  selected_element : string;
  reference_kind : list Kind;
}.

(** A selector found in a step manifest (or declared in a block schema, where
    [selector] is not read). *)
Record SelectorDefinition := {
  selector : string;
  property_name : string;
  allowed_references : list ReferenceDefinition;
}.

Record OutputDefinition := {
  output_definition_name : string;
  output_definition_kind : list Kind;
}.

Record InputType := {
  input_name : string;
  input_kind : list Kind;
}.

Record JsonField := {
  output_name : string;
  output_selector : string;
}.

(** A step manifest: its name, its class ([type(step_manifest)] in the
    source) and the remaining fields.

    Modelled from the spec: [get_step_selectors] (selectors_parser.py) is not
    part of the sources; following §4.1 the selector properties of a step are
    the selector-valued fields of its manifest, carried here as
    [manifest_selectors]. *)
Record WorkflowBlockManifest := {
  step_name : string;
  manifest_class : string;
  manifest_selectors : list SelectorDefinition;
}.

Definition get_step_selectors (step_manifest : WorkflowBlockManifest)
  : list SelectorDefinition := manifest_selectors step_manifest.

(** A block class; [get_actual_outputs] may depend on the manifest. *)
Record WorkflowBlock := {
  block_class_id : string;
  get_actual_outputs : WorkflowBlockManifest → list OutputDefinition;
}.

Record BlockSpecification := {
  spec_manifest_class : string;
  spec_block_class : WorkflowBlock;
}.

Record ParsedWorkflowDefinition := {
  inputs : list InputType;
  steps : list WorkflowBlockManifest;
  outputs : list JsonField;
}.

(** ** Constants *)

Definition INPUT_NODE_KIND : string := "INPUT_NODE".
Definition STEP_NODE_KIND : string := "STEP_NODE".
Definition OUTPUT_NODE_KIND : string := "OUTPUT_NODE".

(** Modelled from the spec: entities/types.py is not part of the sources;
    §3 names the selected elements [input], [step_output] and [step] and a
    distinguished wildcard kind. *)
Definition STEP_AS_SELECTED_ELEMENT : string := "step".
Definition STEP_OUTPUT_AS_SELECTED_ELEMENT : string := "step_output".
Definition INPUT_AS_SELECTED_ELEMENT : string := "input".
Definition WILDCARD_KIND : Kind := {| kind_name := "*" |}.

(** ** Selector helpers *)

(** [s.split(".")] *)
Fixpoint split_on_dot_from (chunk : string) (s : string) : list string :=
  match s with
  | EmptyString => [chunk]
  | String c rest =>
      if Ascii.eqb c "."%char
      then chunk :: split_on_dot_from "" rest
      else split_on_dot_from (chunk +:+ String c "") rest
  end.

Definition split_on_dot (s : string) : list string := split_on_dot_from "" s.

(** Modelled from the spec: compiler/utils.py is not part of the sources.
    The helpers below follow §3 (selector forms [$inputs.<name>],
    [$steps.<name>], [$steps.<name>.<property>]) and §4.3 (node ids
    [$inputs.<name>], [$steps.<name>], [out.<name>];
    [target($steps.n.p) = $steps.n]). *)
Definition construct_input_selector (input_name : string) : string :=
  "$inputs." +:+ input_name.

Definition construct_step_selector (step_name : string) : string :=
  "$steps." +:+ step_name.

Definition construct_output_name (name : string) : string :=
  "out." +:+ name.

Definition is_input_selector (selector_or_value : string) : bool :=
  match split_on_dot selector_or_value with
  | [prefix; _] => String.eqb prefix "$inputs"
  | _ => false
  end.

Definition is_step_selector (selector_or_value : string) : bool :=
  match split_on_dot selector_or_value with
  | [prefix; _] => String.eqb prefix "$steps"
  | _ => false
  end.

Definition is_step_output_selector (selector_or_value : string) : bool :=
  match split_on_dot selector_or_value with
  | [prefix; _; _] => String.eqb prefix "$steps"
  | _ => false
  end.

Definition get_step_selector_from_its_output (step_output_selector : string)
  : string :=
  String.concat "." (take 2 (split_on_dot step_output_selector)).

Definition get_last_chunk_of_selector (selector : string) : string :=
  List.last (split_on_dot selector) "".

(** ** The directed graph *)

Inductive NodeDefinition :=
| InputDefinition (input_spec : InputType)
| StepDefinition (step : WorkflowBlockManifest)
| OutputFieldDefinition (output_spec : JsonField).

(** The attribute dictionary of a node; the compiler writes the keys
    ["kind"], ["definition"] and [FLOW_CONTROL_NODE_KEY] only.  A node
    created implicitly by [add_edge] has none of them. *)
Record NodeAttrs := {
  kind : option string;
  definition : option NodeDefinition;
  flow_control_node : option bool;
}.

Definition no_attrs : NodeAttrs :=
  {| kind := None; definition := None; flow_control_node := None |}.

(** [_node]: the nodes with their attributes, in insertion order.
    [_adj]: the edges [(u, v)] with their attribute dictionaries, in
    insertion order; the successors of [u] are iterated in that order. *)
Record DiGraph := {
  _node : list (string * NodeAttrs);
  _adj : list (string * string * gmap string bool);
}.

Definition empty_graph : DiGraph := {| _node := []; _adj := [] |}.

Definition nodes (G : DiGraph) : list string := (_node G).*1.

Definition has_node (G : DiGraph) (n : string) : bool :=
  bool_decide (n ∈ nodes G).

Fixpoint assoc {A} (n : string) (l : list (string * A)) : option A :=
  match l with
  | [] => None
  | (k, a) :: rest => if decide (k = n) then Some a else assoc n rest
  end.

Fixpoint assoc_update {A} (n : string) (f : A → A) (l : list (string * A))
  : list (string * A) :=
  match l with
  | [] => []
  | (k, a) :: rest =>
      if decide (k = n) then (k, f a) :: rest
      else (k, a) :: assoc_update n f rest
  end.

Definition node_attrs (G : DiGraph) (n : string) : option NodeAttrs :=
  assoc n (_node G).

(** [G.add_node(n, kind=k, definition=d)]: a new node is appended; for a
    node that is already present the two attributes are overwritten. *)
Definition add_node (G : DiGraph) (n : string) (k : string)
    (d : NodeDefinition) : DiGraph :=
  if has_node G n then
    {| _node := assoc_update n (λ a, {| kind := Some k; definition := Some d;
                                        flow_control_node := flow_control_node a |})
                  (_node G);
       _adj := _adj G |}
  else
    {| _node := _node G ++ [(n, {| kind := Some k; definition := Some d;
                                   flow_control_node := None |})];
       _adj := _adj G |}.

Definition ensure_node (G : DiGraph) (n : string) : DiGraph :=
  if has_node G n then G
  else {| _node := _node G ++ [(n, no_attrs)]; _adj := _adj G |}.

Definition has_edge (G : DiGraph) (u v : string) : bool :=
  bool_decide ((u, v) ∈ (_adj G).*1).

(** [G.add_edge(u, v)] without attributes: missing endpoints are created,
    an existing edge keeps its attribute dictionary. *)
Definition add_edge (G : DiGraph) (u v : string) : DiGraph :=
  let G1 := ensure_node (ensure_node G u) v in
  if has_edge G1 u v then G1
  else {| _node := _node G1; _adj := _adj G1 ++ [(u, v, ∅)] |}.

Definition edge_attrs (G : DiGraph) (u v : string) : option (gmap string bool) :=
  snd <$> List.find (λ e : string * string * gmap string bool,
                       bool_decide (e.1 = (u, v))) (_adj G).

(** The out-edges of [u], in insertion order. *)
Definition out_edges (G : DiGraph) (u : string)
  : list (string * string * gmap string bool) :=
  filter (λ e, e.1.1 = u) (_adj G).

(** [G.successors(u)] *)
Definition successors (G : DiGraph) (u : string) : list string :=
  (λ e : string * string * gmap string bool, e.1.2) <$> out_edges G u.

(** [G.edges()]: grouped by source node, in node order. *)
Definition edges (G : DiGraph) : list (string * string) :=
  mjoin ((λ n, (λ v, (n, v)) <$> successors G n) <$> nodes G).

(** [G.reverse()]: the nodes keep their order and attributes; the edges are
    re-inserted, reversed, in the order [G] iterates over them. *)
Definition reverse (G : DiGraph) : DiGraph :=
  {| _node := _node G;
     _adj := (λ e : string * string * gmap string bool, (e.1.2, e.1.1, e.2)) <$>
             mjoin (out_edges G <$> nodes G) |}.

(** [G.remove_node(n)] *)
Definition remove_node (G : DiGraph) (n : string) : DiGraph :=
  {| _node := filter (λ p : string * NodeAttrs, p.1 ≠ n) (_node G);
     _adj := filter (λ e : string * string * gmap string bool,
                       e.1.1 ≠ n ∧ e.1.2 ≠ n) (_adj G) |}.

(** [G.nodes[n][FLOW_CONTROL_NODE_KEY] = True] for a node [n] of [G]. *)
Definition set_flow_control_node (G : DiGraph) (n : string) : DiGraph :=
  {| _node := assoc_update n (λ a, {| kind := kind a; definition := definition a;
                                      flow_control_node := Some true |})
                (_node G);
     _adj := _adj G |}.

(** Modelled from the spec: [get_nodes_of_specific_kind] (compiler/utils.py)
    is not part of the sources; §3 tags every node with its kind, and the
    helper collects the ids of the nodes whose ["kind"] attribute is [k]. *)
Definition get_nodes_of_specific_kind (execution_graph : DiGraph)
    (k : string) : gset string :=
  list_to_set (omap (λ p : string * NodeAttrs,
                       if decide (kind p.2 = Some k) then Some p.1 else None)
                 (_node execution_graph)).

(** Modelled from the spec: [is_flow_control_step] and
    [FLOW_CONTROL_NODE_KEY] (compiler/utils.py) are not part of the sources;
    §3 gives a step node the flag [is_flow_control], which is read here with
    the default [False]. *)
Definition is_flow_control_step (execution_graph : DiGraph) (node : string)
  : bool :=
  match node_attrs execution_graph node with
  | Some a => default false (flow_control_node a)
  | None => false
  end.

(** ** Graph construction: nodes *)

Definition add_input_nodes_for_graph (inputs : list InputType)
    (execution_graph : DiGraph) : DiGraph :=
  foldl (λ G input_spec,
           add_node G (construct_input_selector (input_name input_spec))
             INPUT_NODE_KIND (InputDefinition input_spec))
    execution_graph inputs.

Definition add_steps_nodes_for_graph (steps : list WorkflowBlockManifest)
    (execution_graph : DiGraph) : DiGraph :=
  foldl (λ G step,
           add_node G (construct_step_selector (step_name step))
             STEP_NODE_KIND (StepDefinition step))
    execution_graph steps.

Definition add_output_nodes_for_graph (outputs : list JsonField)
    (execution_graph : DiGraph) : DiGraph :=
  foldl (λ G output_spec,
           add_node G (construct_output_name (output_name output_spec))
             OUTPUT_NODE_KIND (OutputFieldDefinition output_spec))
    execution_graph outputs.

(** ** Graph construction: edges *)

(** A [for] loop whose body may raise. *)
Fixpoint for_each {A S : Type} (body : S → A → Result S) (l : list A) (s : S)
  : Result S :=
  match l with
  | [] => Ok s
  | a :: rest => s' ← body s a; for_each body rest s'
  end.

Definition verify_edge_is_created_between_existing_nodes
    (execution_graph : DiGraph) (start end_ : string) : Result unit :=
  if negb (has_node execution_graph start) then
    Raise (InvalidReferenceTargetError start)
  else if negb (has_node execution_graph end_) then
    Raise (InvalidReferenceTargetError end_)
  else Ok ().

Definition step_definition_allows_flow_control_references
    (step_selector_definition : SelectorDefinition) : bool :=
  bool_decide
    (0 < length (filter (λ d, selected_element d = STEP_AS_SELECTED_ELEMENT)
                   (allowed_references step_selector_definition))).

Definition establish_flow_control_edge (step_selector : string)
    (step_selector_definition : SelectorDefinition)
    (execution_graph : DiGraph) : Result DiGraph :=
  if negb (step_definition_allows_flow_control_references
             step_selector_definition) then
    Raise (ExecutionGraphStructureError
             (DetectedReferenceToOtherStep step_selector))
  else
    let other_node_selector :=
      get_step_selector_from_its_output (selector step_selector_definition) in
    let execution_graph :=
      add_edge execution_graph step_selector other_node_selector in
    Ok (set_flow_control_node execution_graph step_selector).

Definition get_kind_of_value_provided_in_step_output
    (step_manifest : WorkflowBlockManifest) (step_property : string)
    (manifest_class2block_class : gmap string WorkflowBlock)
  : Result (list Kind) :=
  match manifest_class2block_class !! manifest_class step_manifest with
  | None => Raise (KeyError (manifest_class step_manifest))
  | Some block_class_for_referred_node =>
      let referred_node_outputs :=
        get_actual_outputs block_class_for_referred_node step_manifest in
      Ok (mjoin (output_definition_kind <$>
                   filter (λ output, output_definition_name output = step_property)
                     referred_node_outputs))
  end.

(** Modelled from the spec: reference_type_checker.py is not part of the
    sources.  §4.4: compatibility holds iff [actual ∩ expected ≠ ∅],
    treating wildcard as matching everything on either side; on failure a
    type-mismatch error ([ReferenceTypeError]) is raised. *)
Definition validate_reference_types (expected actual : list Kind)
  : Result unit :=
  let expected_kind_names : gset string := list_to_set (kind_name <$> expected) in
  let actual_kind_names : gset string := list_to_set (kind_name <$> actual) in
  if bool_decide (kind_name WILDCARD_KIND ∈ expected_kind_names
                  ∨ kind_name WILDCARD_KIND ∈ actual_kind_names) then Ok ()
  else if bool_decide (expected_kind_names ∩ actual_kind_names = ∅) then
    Raise ReferenceTypeError
  else Ok ().

(** [execution_graph.nodes[selector]["definition"].kind] *)
Definition input_kind_of_node (execution_graph : DiGraph) (sel : string)
  : Result (list Kind) :=
  match node_attrs execution_graph sel with
  | None => Raise (KeyError sel)
  | Some a =>
      match definition a with
      | None => Raise (KeyError "definition")
      | Some (InputDefinition input_spec) => Ok (input_kind input_spec)
      | Some _ => Raise AttributeError
      end
  end.

(** [execution_graph.nodes[other_step_selector]["definition"]], whose class
    is then looked up among the manifest classes. *)
Definition manifest_of_node (execution_graph : DiGraph) (sel : string)
  : Result WorkflowBlockManifest :=
  match node_attrs execution_graph sel with
  | None => Raise (KeyError sel)
  | Some a =>
      match definition a with
      | None => Raise (KeyError "definition")
      | Some (StepDefinition step) => Ok step
      | Some _ => Raise (KeyError sel)
      end
  end.

Definition expected_input_kind (step_selector_definition : SelectorDefinition)
  : list Kind :=
  mjoin (reference_kind <$> allowed_references step_selector_definition).

(** The [if]/[else] of [add_edge_for_step] that computes
    [actual_input_kind] of a data reference. *)
Definition actual_input_kind (execution_graph : DiGraph)
    (step_selector_definition : SelectorDefinition)
    (manifest_class2block_class : gmap string WorkflowBlock)
  : Result (list Kind) :=
  let other_step_selector :=
    get_step_selector_from_its_output (selector step_selector_definition) in
  if is_input_selector (selector step_selector_definition) then
    input_kind_of_node execution_graph (selector step_selector_definition)
  else
    other_step_manifest ← manifest_of_node execution_graph other_step_selector;
    get_kind_of_value_provided_in_step_output other_step_manifest
      (get_last_chunk_of_selector (selector step_selector_definition))
      manifest_class2block_class.

Definition add_edge_for_step (execution_graph : DiGraph)
    (step_selector : string) (step_selector_definition : SelectorDefinition)
    (manifest_class2block_class : gmap string WorkflowBlock)
  : Result DiGraph :=
  let other_step_selector :=
    get_step_selector_from_its_output (selector step_selector_definition) in
  _ ← verify_edge_is_created_between_existing_nodes
        execution_graph step_selector other_step_selector;
  if is_step_selector (selector step_selector_definition) then
    establish_flow_control_edge step_selector step_selector_definition
      execution_graph
  else
    actual_input_kind ←
      actual_input_kind execution_graph step_selector_definition
        manifest_class2block_class;
    _ ← validate_reference_types
          (expected_input_kind step_selector_definition) actual_input_kind;
    Ok (add_edge execution_graph other_step_selector step_selector).

Definition add_edges_for_step (execution_graph : DiGraph) (step_name : string)
    (step_selectors : list SelectorDefinition)
    (manifest_class2block_class : gmap string WorkflowBlock)
  : Result DiGraph :=
  let step_selector := construct_step_selector step_name in
  for_each (λ G step_selector_definition,
              add_edge_for_step G step_selector step_selector_definition
                manifest_class2block_class)
    step_selectors execution_graph.

Definition add_steps_edges (workflow_definition : ParsedWorkflowDefinition)
    (execution_graph : DiGraph)
    (manifest_class2block_class : gmap string WorkflowBlock)
  : Result DiGraph :=
  for_each (λ G step,
              add_edges_for_step G (step_name step) (get_step_selectors step)
                manifest_class2block_class)
    (steps workflow_definition) execution_graph.

Definition add_edge_for_output (execution_graph : DiGraph) (output : JsonField)
  : Result DiGraph :=
  let output_selector := output_selector output in
  let output_selector :=
    if is_step_output_selector output_selector
    then get_step_selector_from_its_output output_selector
    else output_selector in
  let output_name := construct_output_name (output_name output) in
  _ ← verify_edge_is_created_between_existing_nodes
        execution_graph output_selector output_name;
  Ok (add_edge execution_graph output_selector output_name).

Definition add_edges_for_outputs (workflow_definition : ParsedWorkflowDefinition)
    (execution_graph : DiGraph) : Result DiGraph :=
  for_each add_edge_for_output (outputs workflow_definition) execution_graph.

Definition construct_graph (workflow_definition : ParsedWorkflowDefinition)
    (manifest_class2block_class : gmap string WorkflowBlock)
  : Result DiGraph :=
  let execution_graph := empty_graph in
  let execution_graph :=
    add_input_nodes_for_graph (inputs workflow_definition) execution_graph in
  let execution_graph :=
    add_steps_nodes_for_graph (steps workflow_definition) execution_graph in
  let execution_graph :=
    add_output_nodes_for_graph (outputs workflow_definition) execution_graph in
  execution_graph ← add_steps_edges workflow_definition execution_graph
                      manifest_class2block_class;
  add_edges_for_outputs workflow_definition execution_graph.

(** ** networkx algorithms used by the validator *)

(** [G.in_degree(v)] *)
Definition in_degree (G : DiGraph) (v : string) : Z :=
  Z.of_nat (length (filter (λ e : string * string * gmap string bool, e.1.2 = v)
                      (_adj G))).

(** [nx.topological_generations]: the body of the inner loop over the
    children of a node of the current generation.  A child that is missing
    from [indegree_map] makes networkx raise [RuntimeError]. *)
Definition visit_child (st : gmap string Z * list string) (child : string)
  : Result (gmap string Z * list string) :=
  match st.1 !! child with
  | None => Raise RuntimeError
  | Some d =>
      if decide (d - 1 = 0)%Z
      then Ok (delete child st.1, st.2 ++ [child])
      else Ok (<[child := (d - 1)%Z]> st.1, st.2)
  end.

Definition process_generation (G : DiGraph) (this_generation : list string)
    (indegree_map : gmap string Z) : Result (gmap string Z * list string) :=
  for_each (λ st node, for_each visit_child (successors G node) st)
    this_generation (indegree_map, []).

(** The [while zero_indegree] loop; every generation is non-empty and a node
    belongs to at most one generation, so [fuel] = number of nodes suffices. *)
Fixpoint topological_generations_loop (fuel : nat) (G : DiGraph)
    (indegree_map : gmap string Z) (zero_indegree : list string)
  : Result (list (list string)) :=
  match zero_indegree with
  | [] => if decide (indegree_map = ∅) then Ok [] else Raise NetworkXUnfeasible
  | _ :: _ =>
      match fuel with
      | 0 => Raise FuelExhausted
      | S fuel =>
          st ← process_generation G zero_indegree indegree_map;
          later_generations ← topological_generations_loop fuel G st.1 st.2;
          Ok (zero_indegree :: later_generations)
      end
  end.

Definition topological_generations (G : DiGraph) : Result (list (list string)) :=
  let indegree_map : gmap string Z :=
    list_to_map (omap (λ v, if decide (0 < in_degree G v)%Z
                            then Some (v, in_degree G v) else None)
                   (nodes G)) in
  let zero_indegree :=
    filter (λ v, in_degree G v = 0%Z) (nodes G) in
  topological_generations_loop (length (nodes G)) G indegree_map zero_indegree.

(** [nx.topological_sort] *)
Definition topological_sort (G : DiGraph) : Result (list string) :=
  generations ← topological_generations G;
  Ok (mjoin (generations : list (list string))).

(** [nx.is_directed_acyclic_graph]: the topological sort is run to its end
    and only [NetworkXUnfeasible] is caught. *)
Definition is_directed_acyclic_graph (G : DiGraph) : Result bool :=
  match topological_sort G with
  | Ok _ => Ok true
  | Raise NetworkXUnfeasible => Ok false
  | Raise e => Raise e
  end.

(** [nx.dfs_postorder_nodes(G, source)]: the depth-first search of networkx
    keeps a stack of (node, iterator over its children); a node is emitted
    when its frame is popped.  (The depth limit of networkx is the number of
    nodes and never cuts a branch.) *)
Record DfsState := {
  dfs_visited : gset string;
  dfs_stack : list (string * list string);
  dfs_emitted : list string;
}.

Definition dfs_step (G : DiGraph) (st : DfsState) : option DfsState :=
  match dfs_stack st with
  | [] => None
  | (parent, []) :: stack =>
      Some {| dfs_visited := dfs_visited st;
              dfs_stack := stack;
              dfs_emitted := dfs_emitted st ++ [parent] |}
  | (parent, child :: children) :: stack =>
      if decide (child ∈ dfs_visited st) then
        Some {| dfs_visited := dfs_visited st;
                dfs_stack := (parent, children) :: stack;
                dfs_emitted := dfs_emitted st |}
      else
        Some {| dfs_visited := {[child]} ∪ dfs_visited st;
                dfs_stack := (child, successors G child)
                               :: (parent, children) :: stack;
                dfs_emitted := dfs_emitted st |}
  end.

Fixpoint dfs_loop (fuel : nat) (G : DiGraph) (st : DfsState) : DfsState :=
  match fuel with
  | 0 => st
  | S fuel =>
      match dfs_step G st with
      | None => st
      | Some st' => dfs_loop fuel G st'
      end
  end.

(** Every iteration consumes one child of a frame or pops a frame: the
    number of nodes plus the number of edges, plus the frame of the source,
    bounds the iterations. *)
Definition dfs_fuel (G : DiGraph) : nat :=
  length (nodes G) + length (edges G) + 1.

Definition dfs_postorder_nodes (G : DiGraph) (source : string)
  : Result (list string) :=
  if has_node G source then
    Ok (dfs_emitted
          (dfs_loop (dfs_fuel G) G
             {| dfs_visited := {[source]};
                dfs_stack := [(source, successors G source)];
                dfs_emitted := [] |}))
  else Raise (KeyError source).

(** [nx.descendants(G, source)]: the nodes reachable from [source], without
    [source] itself; [NetworkXError] when [source] is not in [G]. *)
Definition descendants (G : DiGraph) (source : string) : Result (gset string) :=
  match dfs_postorder_nodes G source with
  | Ok reached => Ok (list_to_set reached ∖ {[source]})
  | Raise _ => Raise NetworkXError
  end.

(** ** Structural validation: terminal reachability *)

Definition get_nodes_that_do_not_produce_outputs (execution_graph : DiGraph)
    (manifest_class2block_class : gmap string WorkflowBlock)
  : Result (gset string) :=
  let step_nodes := get_nodes_of_specific_kind execution_graph STEP_NODE_KIND in
  for_each (λ (result : gset string) step_node,
              step_manifest ← manifest_of_node execution_graph step_node;
              match manifest_class2block_class !! manifest_class step_manifest with
              | None => Raise (KeyError (manifest_class step_manifest))
              | Some block_type =>
                  if decide (length (get_actual_outputs block_type step_manifest) = 0)
                  then Ok ({[step_node]} ∪ result)
                  else Ok result
              end)
    (elements step_nodes) ∅.

Definition get_nodes_that_are_reachable_from_pointed_ones_in_reversed_graph
    (execution_graph : DiGraph) (pointed_nodes : gset string)
  : Result (gset string) :=
  let reversed_graph := reverse execution_graph in
  for_each (λ (result : gset string) pointed_node,
              nodes_reaching_pointed_one ←
                dfs_postorder_nodes reversed_graph pointed_node;
              Ok (result ∪ list_to_set nodes_reaching_pointed_one))
    (elements pointed_nodes) ∅.

Definition verify_each_node_reach_at_least_one_output
    (execution_graph : DiGraph)
    (manifest_class2block_class : gmap string WorkflowBlock) : Result unit :=
  let all_nodes : gset string := list_to_set (nodes execution_graph) in
  let output_nodes :=
    get_nodes_of_specific_kind execution_graph OUTPUT_NODE_KIND in
  nodes_without_outputs ←
    get_nodes_that_do_not_produce_outputs execution_graph
      manifest_class2block_class;
  let nodes_that_must_be_reached := output_nodes ∪ nodes_without_outputs in
  nodes_reaching_output ←
    get_nodes_that_are_reachable_from_pointed_ones_in_reversed_graph
      execution_graph nodes_that_must_be_reached;
  let nodes_not_reaching_output := all_nodes ∖ nodes_reaching_output in
  if decide (0 < size nodes_not_reaching_output) then
    Raise (DanglingExecutionBranchError nodes_not_reaching_output)
  else Ok ().

(** ** Structural validation: branch isolation *)

Definition detect_steps_with_more_than_one_parent_step
    (execution_graph : DiGraph) : gset string :=
  let steps_nodes := get_nodes_of_specific_kind execution_graph STEP_NODE_KIND in
  let edges_of_steps_nodes := edges execution_graph in
  let steps_parents : gmap string (gset string) :=
    foldl (λ (steps_parents : gmap string (gset string)) (edge : string * string),
             let parent := edge.1 in
             let child := edge.2 in
             if decide (parent ∉ steps_nodes ∨ child ∉ steps_nodes)
             then steps_parents
             else <[child := {[parent]} ∪ default ∅ (steps_parents !! child)]>
                    steps_parents)
      ∅ edges_of_steps_nodes in
  dom (filter (λ kv : string * gset string, 1 < size kv.2) steps_parents).

Definition construct_reversed_graph_with_steps_only
    (execution_graph : DiGraph) : DiGraph :=
  let reversed_steps_graph := reverse execution_graph in
  foldl (λ (G : DiGraph) (node : string * NodeAttrs),
           if decide (kind node.2 ≠ Some STEP_NODE_KIND)
           then remove_node G node.1 else G)
    reversed_steps_graph (_node reversed_steps_graph).

Definition construct_path_to_step_through_selected_parent (graph : DiGraph)
    (topological_order : list string) (parent_step step : string)
  : Result (list string) :=
  normal_flow_path_nodes ← descendants graph parent_step;
  let normal_flow_path_nodes := {[parent_step]} ∪ normal_flow_path_nodes in
  let normal_flow_path_nodes := {[step]} ∪ normal_flow_path_nodes in
  Ok (filter (λ n, n ∈ normal_flow_path_nodes) topological_order).

(** The loop of [denote_flow_control_steps_successors_in_normal_flow] over
    [reversed_flow_path[1:]]. *)
Fixpoint denote_successors_loop (reversed_steps_graph : DiGraph)
    (previous_node : string) (path_tail : list string)
    (control_flow_steps_successors : gmap string (gset string))
    (conditions_steps : nat) : gmap string (gset string) * nat :=
  match path_tail with
  | [] => (control_flow_steps_successors, conditions_steps)
  | node :: path_tail =>
      if is_flow_control_step reversed_steps_graph node then
        denote_successors_loop reversed_steps_graph node path_tail
          (<[node := {[previous_node]}
                     ∪ default ∅ (control_flow_steps_successors !! node)]>
             control_flow_steps_successors)
          (conditions_steps + 1)
      else
        denote_successors_loop reversed_steps_graph node path_tail
          control_flow_steps_successors conditions_steps
  end.

Definition denote_flow_control_steps_successors_in_normal_flow
    (reversed_steps_graph : DiGraph) (reversed_flow_path : list string)
    (control_flow_steps_successors : gmap string (gset string))
  : gmap string (gset string) * nat :=
  let conditions_steps := 0 in
  match reversed_flow_path with
  | [] => (control_flow_steps_successors, conditions_steps)
  | previous_node :: path_tail =>
      denote_successors_loop reversed_steps_graph previous_node path_tail
        control_flow_steps_successors conditions_steps
  end.

(** The body of the loop over the parents of the investigated step. *)
Definition denote_parent (reversed_steps_graph : DiGraph)
    (reversed_topological_order : list string) (step : string)
    (st : gmap string (gset string) * nat)
    (parent_of_investigated_step : string)
  : Result (gmap string (gset string) * nat) :=
  reversed_flow_path ←
    construct_path_to_step_through_selected_parent reversed_steps_graph
      reversed_topological_order parent_of_investigated_step step;
  let r := denote_flow_control_steps_successors_in_normal_flow
             reversed_steps_graph reversed_flow_path st.1 in
  Ok (r.1, r.2 `max` st.2).

Definition verify_multi_parent_step_execution_paths
    (reversed_steps_graph : DiGraph)
    (reversed_topological_order : list string) (step : string) : Result unit :=
  if negb (has_node reversed_steps_graph step) then Raise NetworkXError else
  st ← for_each (denote_parent reversed_steps_graph
                   reversed_topological_order step)
         (successors reversed_steps_graph step) (∅, 0);
  let control_flow_steps_successors := st.1 in
  let max_conditions_steps_in_execution_branch := st.2 in
  if decide (max_conditions_steps_in_execution_branch
             < size control_flow_steps_successors) then
    Raise ConditionalBranchesClashError
  else if decide (map_Exists (λ _ potential_next_steps,
                                1 < size potential_next_steps)
                    control_flow_steps_successors) then
    Raise ConditionalBranchesClashError
  else Ok ().

Definition verify_each_node_step_has_parent_in_the_same_branch
    (execution_graph : DiGraph) : Result unit :=
  let steps_with_more_than_one_parent :=
    detect_steps_with_more_than_one_parent_step execution_graph in
  if decide (size steps_with_more_than_one_parent = 0) then Ok () else
  let reversed_steps_graph :=
    construct_reversed_graph_with_steps_only execution_graph in
  reversed_topological_order ← topological_sort reversed_steps_graph;
  for_each (λ _ step,
              verify_multi_parent_step_execution_paths reversed_steps_graph
                reversed_topological_order step)
    (elements steps_with_more_than_one_parent) ().

(** ** Compilation entry point *)

(** The dictionary comprehension of [prepare_execution_graph]: a later
    block of the same manifest class replaces an earlier one. *)
Definition manifest_classes_of (available_blocks : list BlockSpecification)
  : gmap string WorkflowBlock :=
  foldl (λ m block, <[spec_manifest_class block := spec_block_class block]> m)
    ∅ available_blocks.

Definition prepare_execution_graph
    (workflow_definition : ParsedWorkflowDefinition)
    (available_blocks : list BlockSpecification) : Result DiGraph :=
  let manifest_class2block_class := manifest_classes_of available_blocks in
  execution_graph ← construct_graph workflow_definition
                      manifest_class2block_class;
  acyclic ← is_directed_acyclic_graph execution_graph;
  if negb acyclic then Raise (ExecutionGraphStructureError DetectedCycle) else
  _ ← verify_each_node_reach_at_least_one_output execution_graph
        manifest_class2block_class;
  _ ← verify_each_node_step_has_parent_in_the_same_branch execution_graph;
  Ok execution_graph.

(** ** Connection discovery *)

Record BlockPropertyDefinition := {
  block_type : string;
  manifest_type_identifier : string;
  block_property_name : string;
  compatible_element : string;
}.

Global Instance BlockPropertyDefinition_eq_dec : EqDecision BlockPropertyDefinition.
Proof. solve_decision. Defined.

Global Instance BlockPropertyDefinition_countable : Countable BlockPropertyDefinition.
Proof.
  refine (inj_countable'
            (λ d, (block_type d, manifest_type_identifier d,
                   block_property_name d, compatible_element d))
            (λ t, {| block_type := t.1.1.1; manifest_type_identifier := t.1.1.2;
                     block_property_name := t.1.2; compatible_element := t.2 |})
            _).
  by intros [].
Defined.

(** The parsed schema of a block manifest: its selector properties by name. *)
Record BlockManifestMetadata := {
  selectors : gmap string SelectorDefinition;
}.

Record BlockDescription := {
  description_block_class : string;
  description_manifest_type_identifier : string;
  outputs_manifest : list OutputDefinition;
}.

(** The additions of one allowed reference of a selector property. *)
Definition add_allowed_reference (block_description : BlockDescription)
    (selector : SelectorDefinition)
    (kind_major_step_inputs : gmap string (gset BlockPropertyDefinition))
    (allowed_reference : ReferenceDefinition)
  : gmap string (gset BlockPropertyDefinition) :=
  if decide (selected_element allowed_reference = STEP_AS_SELECTED_ELEMENT)
  then kind_major_step_inputs
  else
    let property_definition :=
      {| block_type := description_block_class block_description;
         manifest_type_identifier :=
           description_manifest_type_identifier block_description;
         block_property_name := property_name selector;
         compatible_element := selected_element allowed_reference |} in
    let add (m : gmap string (gset BlockPropertyDefinition)) (k : string) :=
      <[k := {[property_definition]} ∪ default ∅ (m !! k)]> m in
    let kind_major_step_inputs :=
      foldl (λ m single_kind, add m (kind_name single_kind))
        kind_major_step_inputs (reference_kind allowed_reference) in
    add kind_major_step_inputs (kind_name WILDCARD_KIND).

Definition get_all_inputs_kind_major (blocks : list BlockDescription)
    (all_schemas : gmap string BlockManifestMetadata)
  : Result (gmap string (gset BlockPropertyDefinition)) :=
  for_each (λ kind_major_step_inputs block_description,
              match all_schemas !! description_block_class block_description with
              | None => Raise (KeyError (description_block_class block_description))
              | Some metadata =>
                  Ok (foldl (λ m selector,
                               foldl (add_allowed_reference block_description selector)
                                 m (allowed_references selector))
                        kind_major_step_inputs
                        (map_to_list (selectors metadata)).*2)
              end)
    blocks ∅.

(** The node passes of [construct_graph]. *)
Definition construct_nodes (workflow_definition : ParsedWorkflowDefinition)
  : DiGraph :=
  add_output_nodes_for_graph (outputs workflow_definition)
    (add_steps_nodes_for_graph (steps workflow_definition)
       (add_input_nodes_for_graph (inputs workflow_definition) empty_graph)).

(** ** Statements about graphs *)

(** The graph holds exactly one node under [id], of kind [k], whose attached
    definition is [d]. *)
Definition single_node_with (G : DiGraph) (id k : string) (d : NodeDefinition)
  : Prop :=
  length (filter (λ p : string * NodeAttrs, p.1 = id) (_node G)) = 1 ∧
  ∃ a, node_attrs G id = Some a ∧ kind a = Some k ∧ definition a = Some d.

(** The invariants of a [networkx.DiGraph]: a node occurs once and the
    endpoints of an edge are nodes. *)
Record wf_graph (G : DiGraph) : Prop := {
  wf_nodes : NoDup (nodes G);
  wf_endpoints : ∀ u v, (u, v) ∈ (_adj G).*1 → u ∈ nodes G ∧ v ∈ nodes G;
}.

(** No edge carries an attribute. *)
Definition all_edges_plain (G : DiGraph) : Prop :=
  Forall (λ e : string * string * gmap string bool, e.2 = ∅) (_adj G).

(** Step [u] holds a flow-control reference to [v]: one of its selector
    properties has a pure step selector whose target is [v]. *)
Definition flow_control_reference (workflow_definition : ParsedWorkflowDefinition)
    (u v : string) : Prop :=
  ∃ step step_selector_definition,
    step ∈ steps workflow_definition ∧
    step_selector_definition ∈ get_step_selectors step ∧
    is_step_selector (selector step_selector_definition) = true ∧
    u = construct_step_selector (step_name step) ∧
    v = get_step_selector_from_its_output (selector step_selector_definition).

(** The key under which an edge would carry the discriminator of §3. *)
Definition FLOW_CONTROL_EDGE_KEY : string := "flow_control".

(** The names of two lists of kinds are compatible (§4.4). *)
Definition kinds_compatible (expected actual : list Kind) : Prop :=
  (∃ e, e ∈ expected ∧ kind_name e = kind_name WILDCARD_KIND) ∨
  (∃ a, a ∈ actual ∧ kind_name a = kind_name WILDCARD_KIND) ∨
  (∃ e a, e ∈ expected ∧ a ∈ actual ∧ kind_name e = kind_name a).

(** The selected element that matches the form of a selector (§3). *)
Definition selected_element_of_selector (r : string) : string :=
  if is_input_selector r then INPUT_AS_SELECTED_ELEMENT
  else if is_step_output_selector r then STEP_OUTPUT_AS_SELECTED_ELEMENT
  else STEP_AS_SELECTED_ELEMENT.

(** The expected kinds as §4.4 words them: the kinds of the allowed
    references whose [selected_element] matches the form of the selector.
    (The source computes [expected_input_kind] instead.) *)
Definition expected_kinds_matching_selector_form
    (step_selector_definition : SelectorDefinition) : list Kind :=
  mjoin (reference_kind <$>
           filter (λ ref, selected_element ref
                          = selected_element_of_selector
                              (selector step_selector_definition))
             (allowed_references step_selector_definition)).

(** Membership in a list given by its elements. *)
Ltac in_list := first [ by left | right; in_list ].

(** ** Example workflows *)

Definition boolean_kind : Kind := {| kind_name := "boolean" |}.
Definition image_kind : Kind := {| kind_name := "image" |}.
Definition integer_kind : Kind := {| kind_name := "integer" |}.
Definition value_kind : Kind := {| kind_name := "value" |}.

Definition step_reference (property value : string) : SelectorDefinition :=
  {| selector := value; property_name := property;
     allowed_references :=
       [{| selected_element := STEP_AS_SELECTED_ELEMENT; reference_kind := [] |}] |}.

Definition data_reference (property value : string) (k : Kind)
  : SelectorDefinition :=
  {| selector := value; property_name := property;
     allowed_references :=
       [{| selected_element := INPUT_AS_SELECTED_ELEMENT; reference_kind := [k] |};
        {| selected_element := STEP_OUTPUT_AS_SELECTED_ELEMENT;
           reference_kind := [k] |}] |}.

Definition condition_block : WorkflowBlock :=
  {| block_class_id := "ConditionBlock"; get_actual_outputs := λ _, [] |}.

Definition transform_block : WorkflowBlock :=
  {| block_class_id := "TransformBlock";
     get_actual_outputs :=
       λ _, [{| output_definition_name := "y";
                output_definition_kind := [value_kind] |}] |}.

Definition example_blocks : list BlockSpecification :=
  [{| spec_manifest_class := "Condition"; spec_block_class := condition_block |};
   {| spec_manifest_class := "Transform"; spec_block_class := transform_block |}].

Definition example_manifest_class2block_class : gmap string WorkflowBlock :=
  <["Transform" := transform_block]> (<["Condition" := condition_block]> ∅).

Definition transform_step (name : string) (sels : list SelectorDefinition)
  : WorkflowBlockManifest :=
  {| step_name := name; manifest_class := "Transform";
     manifest_selectors := sels |}.

Definition condition_step (name : string) (sels : list SelectorDefinition)
  : WorkflowBlockManifest :=
  {| step_name := name; manifest_class := "Condition";
     manifest_selectors := sels |}.

(** Scenario 5 of the specification, completed with the input [c] and with
    an output reading [G], so that every node reaches a terminal. *)
Definition scenario_5 : ParsedWorkflowDefinition :=
  {| inputs := [{| input_name := "c"; input_kind := [boolean_kind] |}];
     steps :=
       [condition_step "if"
          [data_reference "cond" "$inputs.c" boolean_kind;
           step_reference "step_if_true" "$steps.B";
           step_reference "step_if_false" "$steps.E"];
        transform_step "B" [];
        transform_step "E" [];
        transform_step "C" [data_reference "x" "$steps.B.y" value_kind];
        transform_step "F" [data_reference "x" "$steps.E.y" value_kind];
        transform_step "G" [data_reference "x" "$steps.C.y" value_kind;
                            data_reference "y" "$steps.F.y" value_kind]];
     outputs := [{| output_name := "result"; output_selector := "$steps.G.y" |}] |}.

(** A definition that names two inputs, two steps and two outputs alike. *)
Definition duplicated_names : ParsedWorkflowDefinition :=
  {| inputs := [{| input_name := "image"; input_kind := [image_kind] |};
                {| input_name := "image"; input_kind := [integer_kind] |}];
     steps := [transform_step "a" [data_reference "x" "$inputs.image" image_kind];
               transform_step "a" []];
     outputs := [{| output_name := "result"; output_selector := "$steps.a.y" |};
                 {| output_name := "result"; output_selector := "$inputs.image" |}] |}.

(** A property that accepts images from inputs and integers from steps,
    fed with an integer input. *)
Definition mixed_reference : SelectorDefinition :=
  {| selector := "$inputs.n"; property_name := "image";
     allowed_references :=
       [{| selected_element := INPUT_AS_SELECTED_ELEMENT;
           reference_kind := [image_kind] |};
        {| selected_element := STEP_OUTPUT_AS_SELECTED_ELEMENT;
           reference_kind := [integer_kind] |}] |}.

Definition mixed_reference_workflow : ParsedWorkflowDefinition :=
  {| inputs := [{| input_name := "n"; input_kind := [integer_kind] |}];
     steps := [transform_step "det" [mixed_reference]];
     outputs := [{| output_name := "result"; output_selector := "$steps.det.y" |}] |}.

(** A reference to an output that step [a] does not declare. *)
Definition missing_property_workflow : ParsedWorkflowDefinition :=
  {| inputs := [];
     steps := [transform_step "a" [];
               transform_step "b" [data_reference "x" "$steps.a.nope" value_kind]];
     outputs := [{| output_name := "result"; output_selector := "$steps.b.y" |}] |}.

(** The same, from a property that accepts the wildcard kind and from a
    workflow output. *)
Definition missing_property_accepted : ParsedWorkflowDefinition :=
  {| inputs := [];
     steps := [transform_step "a" [];
               transform_step "b" [data_reference "x" "$steps.a.nope" WILDCARD_KIND]];
     outputs := [{| output_name := "result"; output_selector := "$steps.b.nope" |}] |}.

(** References to an input and to a step that do not exist. *)
Definition missing_input_workflow : ParsedWorkflowDefinition :=
  {| inputs := [];
     steps := [transform_step "a" [data_reference "x" "$inputs.img" value_kind]];
     outputs := [{| output_name := "result"; output_selector := "$steps.a.y" |}] |}.

(** Scenario 3 of the specification. *)
Definition scenario_3 : ParsedWorkflowDefinition :=
  {| inputs := [];
     steps := [transform_step "a" [data_reference "x" "$steps.b.y" value_kind];
               transform_step "b" [data_reference "x" "$steps.a.y" value_kind]];
     outputs := [] |}.

(** A step reference on a property that only accepts data. *)
Definition unexpected_step_reference : ParsedWorkflowDefinition :=
  {| inputs := [];
     steps := [transform_step "a" [];
               transform_step "b" [data_reference "x" "$steps.a" value_kind]];
     outputs := [{| output_name := "result"; output_selector := "$steps.b.y" |}] |}.

(** A condition step selecting between two independent branches. *)
Definition branching_workflow : ParsedWorkflowDefinition :=
  {| inputs := [{| input_name := "c"; input_kind := [boolean_kind] |}];
     steps :=
       [condition_step "if"
          [data_reference "cond" "$inputs.c" boolean_kind;
           step_reference "step_if_true" "$steps.B";
           step_reference "step_if_false" "$steps.E"];
        transform_step "B" [];
        transform_step "E" []];
     outputs := [{| output_name := "b"; output_selector := "$steps.B.y" |};
                 {| output_name := "e"; output_selector := "$steps.E.y" |}] |}.

(** The graph constructed for [branching_workflow]. *)
Definition branching_graph : DiGraph :=
  Eval vm_compute in
    match construct_graph branching_workflow example_manifest_class2block_class with
    | Ok G => G
    | Raise _ => empty_graph
    end.

(** The description and the parsed schema of the condition block: a data
    property [cond] and two properties that only accept step references. *)
Definition condition_block_description : BlockDescription :=
  {| description_block_class := "ConditionBlock";
     description_manifest_type_identifier := "Condition";
     outputs_manifest := [] |}.

Definition condition_block_schema : BlockManifestMetadata :=
  {| selectors :=
       <["cond" := data_reference "cond" "" boolean_kind]>
         (<["step_if_true" := step_reference "step_if_true" ""]>
            (<["step_if_false" := step_reference "step_if_false" ""]> ∅)) |}.

Definition example_schemas : gmap string BlockManifestMetadata :=
  <["ConditionBlock" := condition_block_schema]> ∅.

(** The entry of the consumers-by-kind index for the wildcard kind. *)
Definition wildcard_consumers
    (kind_major_step_inputs : gmap string (gset BlockPropertyDefinition))
  : gset BlockPropertyDefinition :=
  default ∅ (kind_major_step_inputs !! kind_name WILDCARD_KIND).

(** The index entry made for an allowed reference of a selector property. *)
Definition property_definition_of (block_description : BlockDescription)
    (selector : SelectorDefinition) (allowed_reference : ReferenceDefinition)
  : BlockPropertyDefinition :=
  {| block_type := description_block_class block_description;
     manifest_type_identifier :=
       description_manifest_type_identifier block_description;
     block_property_name := property_name selector;
     compatible_element := selected_element allowed_reference |}.

(** ** Reachability and the depth-first search *)

Definition edge_rel (G : DiGraph) (u v : string) : Prop :=
  (u, v) ∈ (_adj G).*1.

(** [v] is reachable from [u] along the edges of [G]. *)
Definition reachable (G : DiGraph) : relation string := rtc (edge_rel G).

(** The invariant of the search from [source]. *)
Record dfs_invariant (G : DiGraph) (source : string) (st : DfsState) : Prop := {
  dfs_visited_split :
    ∀ v, v ∈ dfs_visited st ↔ v ∈ dfs_emitted st ∨ v ∈ (dfs_stack st).*1;
  dfs_visited_reachable : ∀ v, v ∈ dfs_visited st → reachable G source v;
  dfs_visited_closed :
    ∀ v c, v ∈ dfs_visited st → edge_rel G v c →
           c ∈ dfs_visited st ∨ ∃ cs, (v, cs) ∈ dfs_stack st ∧ c ∈ cs;
  dfs_source_visited : source ∈ dfs_visited st;
  dfs_stack_edges :
    ∀ p cs c, (p, cs) ∈ dfs_stack st → c ∈ cs → edge_rel G p c;
}.

(** The iterations the search still needs: one per child left in a frame
    and one to pop it, for the frames on the stack and for the frames of the
    nodes not visited yet. *)
Definition dfs_unvisited_cost (G : DiGraph) (visited : gset string)
    (l : list string) : nat :=
  sum_list_with (λ v, if decide (v ∈ visited) then 0
                      else S (length (successors G v))) l.

Definition dfs_measure (G : DiGraph) (st : DfsState) : nat :=
  sum_list_with (λ frame : string * list string, S (length frame.2))
    (dfs_stack st)
  + dfs_unvisited_cost G (dfs_visited st) (nodes G).

(** ** Cycles and the topological sort *)

(** The graph has a cycle: some node reaches itself along at least one
    edge. *)
Definition has_cycle (G : DiGraph) : Prop := ∃ n, tc (edge_rel G) n n.

(** The edges into [v] that leave a node of [P]. *)
Definition in_from (G : DiGraph) (P : gset string) (v : string) : Z :=
  Z.of_nat (length (filter (λ e : string * string * gmap string bool,
                              e.1.2 = v ∧ e.1.1 ∈ P) (_adj G))).

Definition occurrences (v : string) (l : list string) : Z :=
  Z.of_nat (length (filter (λ c, c = v) l)).

(** [indegree_map] holds, for the nodes that still have unprocessed
    incoming edges, the number of these edges; [k v] edges into [v] have
    been processed. *)
Definition counts_ok (G : DiGraph) (k : string → Z) (m : gmap string Z) : Prop :=
  ∀ v, m !! v = if decide (0 < in_degree G v - k v)%Z
                then Some (in_degree G v - k v)%Z else None.

(** The invariant of the loop over the generations: the nodes of [P] have
    been emitted, those of [zero_indegree] are about to be. *)
Record generations_invariant (G : DiGraph) (P : gset string)
    (indegree_map : gmap string Z) (zero_indegree : list string) : Prop := {
  generations_counts : counts_ok G (in_from G P) indegree_map;
  generations_zero_NoDup : NoDup zero_indegree;
  generations_zero :
    ∀ v, v ∈ zero_indegree →
         (v ∉ P) ∧ v ∈ nodes G ∧ in_from G P v = in_degree G v;
  generations_emitted :
    ∀ v, v ∈ P → v ∈ nodes G ∧ in_from G P v = in_degree G v;
}.

(** ** Statements about terminal reachability *)

(** The definition attached to a step node and its registered block. *)
Definition step_block (G : DiGraph) (m : gmap string WorkflowBlock)
    (n : string) (step : WorkflowBlockManifest) (block : WorkflowBlock) : Prop :=
  node_attrs G n ≫= definition = Some (StepDefinition step) ∧
  m !! manifest_class step = Some block.

(** A terminal: an output node, or a step node whose block declares no
    output for the manifest of the step. *)
Definition terminal (G : DiGraph) (m : gmap string WorkflowBlock) (t : string)
  : Prop :=
  t ∈ get_nodes_of_specific_kind G OUTPUT_NODE_KIND ∨
  (t ∈ get_nodes_of_specific_kind G STEP_NODE_KIND ∧
   ∃ step block, step_block G m t step block ∧
                 get_actual_outputs block step = []).

Definition reaches_terminal (G : DiGraph) (m : gmap string WorkflowBlock)
    (n : string) : Prop :=
  ∃ t, terminal G m t ∧ reachable G n t.

(** Every step node carries a manifest whose class is registered. *)
Definition steps_registered (G : DiGraph) (m : gmap string WorkflowBlock)
  : Prop :=
  ∀ n, n ∈ get_nodes_of_specific_kind G STEP_NODE_KIND →
       ∃ step block, step_block G m n step block.

(** ** Statements about the branch-isolation pass *)

Definition is_step_node (G : DiGraph) (n : string) : Prop :=
  n ∈ get_nodes_of_specific_kind G STEP_NODE_KIND.

(** Step [m] reads an output of the node [p]: one of its selector properties
    holds a selector that is not a pure step selector and whose target is
    [p]. *)
Definition data_reference_to (workflow_definition : ParsedWorkflowDefinition)
    (p m : string) : Prop :=
  ∃ step step_selector_definition,
    step ∈ steps workflow_definition ∧
    step_selector_definition ∈ get_step_selectors step ∧
    is_step_selector (selector step_selector_definition) = false ∧
    m = construct_step_selector (step_name step) ∧
    p = get_step_selector_from_its_output (selector step_selector_definition).

(** [s] comes right before the flow-control step [c] on [path]: on the
    reversed path, [s] is the branch that [c] must have chosen. *)
Definition recorded_on_path (G : DiGraph) (path : list string) (c s : string)
  : Prop :=
  is_flow_control_step G c = true ∧ ∃ l1 l2, path = l1 ++ s :: c :: l2.

(** The flow-control steps counted on a reversed path (its first node is
    not looked at). *)
Definition flow_control_steps_on_path (G : DiGraph) (path : list string) : nat :=
  length (filter (λ n, is_flow_control_step G n = true) (tail path)).

(** The reversed path into [m] through its parent [p]. *)
Definition reversed_flow_path (G : DiGraph) (τ : list string) (m p : string)
  : list string :=
  match construct_path_to_step_through_selected_parent G τ p m with
  | Ok path => path
  | Raise _ => []
  end.

(** What the pass records for [m] over the paths through all its parents. *)
Definition recorded (G : DiGraph) (τ : list string) (m c s : string) : Prop :=
  ∃ p, p ∈ successors G m ∧ recorded_on_path G (reversed_flow_path G τ m p) c s.

(** Hazard 1: a flow-control step is recorded with two branch successors. *)
Definition hazard_1 (G : DiGraph) (τ : list string) (m : string) : Prop :=
  ∃ c s1 s2, recorded G τ m c s1 ∧ recorded G τ m c s2 ∧ s1 ≠ s2.

(** Hazard 2: more distinct flow-control steps are recorded than any single
    path counts. *)
Definition hazard_2 (G : DiGraph) (τ : list string) (m : string) : Prop :=
  ∃ D : gset string,
    (∀ c, c ∈ D ↔ ∃ s, recorded G τ m c s) ∧
    max_list ((λ p, flow_control_steps_on_path G (reversed_flow_path G τ m p))
                <$> successors G m) < size D.

(** The analysis of the multi-parent step [m] on the reversed step-only
    graph [G] with the topological order [τ]: the path through every parent
    is [τ] restricted to [m] and the nodes reachable from the parent, and
    the analysis raises exactly on the two hazards. *)
Definition branch_isolation_spec (G : DiGraph) (τ : list string) (m : string)
  : Prop :=
  (∀ p, p ∈ successors G m →
        ∃ X : gset string,
          construct_path_to_step_through_selected_parent G τ p m
          = Ok (filter (λ n, n ∈ X) τ) ∧
          ∀ n, n ∈ X ↔ n = m ∨ reachable G p n) ∧
  (((hazard_1 G τ m ∨ hazard_2 G τ m) ∧
    verify_multi_parent_step_execution_paths G τ m
    = Raise ConditionalBranchesClashError) ∨
   (¬ (hazard_1 G τ m ∨ hazard_2 G τ m) ∧
    verify_multi_parent_step_execution_paths G τ m = Ok ())).

(** Every key of the dictionary holds a non-empty set. *)
Definition nonempty_values (m : gmap string (gset string)) : Prop :=
  ∀ c X, m !! c = Some X → X ≠ ∅.

(** A step that a condition step selects and that also reads another step. *)
Definition mixed_parents_workflow : ParsedWorkflowDefinition :=
  {| inputs := [{| input_name := "c"; input_kind := [boolean_kind] |}];
     steps :=
       [transform_step "P" [];
        condition_step "if"
          [data_reference "cond" "$inputs.c" boolean_kind;
           step_reference "step_if_true" "$steps.M";
           step_reference "step_if_false" "$steps.E"];
        transform_step "M" [data_reference "x" "$steps.P.y" value_kind];
        transform_step "E" []];
     outputs := [{| output_name := "m"; output_selector := "$steps.M.y" |};
                 {| output_name := "e"; output_selector := "$steps.E.y" |}] |}.

Definition mixed_parents_graph : DiGraph :=
  Eval vm_compute in
    match construct_graph mixed_parents_workflow
            example_manifest_class2block_class with
    | Ok G => G
    | Raise _ => empty_graph
    end.

(** Scenario 4 of the specification: [aux] feeds nothing. *)
Definition scenario_4 : ParsedWorkflowDefinition :=
  {| inputs := [{| input_name := "img"; input_kind := [image_kind] |}];
     steps := [transform_step "aux" [data_reference "image" "$inputs.img" image_kind];
               transform_step "main" [data_reference "image" "$inputs.img" image_kind]];
     outputs := [{| output_name := "result"; output_selector := "$steps.main.y" |}] |}.

Definition scenario_4_graph : DiGraph :=
  Eval vm_compute in
    match construct_graph scenario_4 example_manifest_class2block_class with
    | Ok G => G
    | Raise _ => empty_graph
    end.

Definition scenario_5_graph : DiGraph :=
  Eval vm_compute in
    match construct_graph scenario_5 example_manifest_class2block_class with
    | Ok G => G
    | Raise _ => empty_graph
    end.

Definition scenario_5_order : list string :=
  Eval vm_compute in
    match topological_sort
            (construct_reversed_graph_with_steps_only scenario_5_graph) with
    | Ok order => order
    | Raise _ => []
    end.

Definition scenario_3_graph : DiGraph :=
  Eval vm_compute in
    match construct_graph scenario_3 example_manifest_class2block_class with
    | Ok G => G
    | Raise _ => empty_graph
    end.

(** ** Further parts of graph_constructor.py *)

(** [add_edges_for_step_inputs]: the loop runs over a Python set, whose
    order is arbitrary; [elements] fixes one. *)
Definition add_edges_for_step_inputs (execution_graph : DiGraph)
    (input_selectors : gset string) (step_selector : string) : Result DiGraph :=
  for_each (λ G input_selector,
              let input_selector :=
                if is_step_output_selector input_selector
                then get_step_selector_from_its_output input_selector
                else input_selector in
              _ ← verify_edge_is_created_between_existing_nodes
                    G input_selector step_selector;
              Ok (add_edge G input_selector step_selector))
    (elements input_selectors) execution_graph.

(** The node an input selector of [add_edges_for_step_inputs] stands for. *)
Definition input_selector_target (input_selector : string) : string :=
  if is_step_output_selector input_selector
  then get_step_selector_from_its_output input_selector
  else input_selector.

(** The node a workflow output reads: the step of a step-output selector,
    the selector itself otherwise (the [if] of [add_edges_for_outputs]). *)
Definition output_target (output : JsonField) : string :=
  if is_step_output_selector (output_selector output)
  then get_step_selector_from_its_output (output_selector output)
  else output_selector output.

(** ** Statements about the constructed graph *)

(** [n] is the id of an input, of a step or of an output of the
    definition. *)
Definition declared_node (workflow_definition : ParsedWorkflowDefinition)
    (n : string) : Prop :=
  (∃ i, i ∈ inputs workflow_definition ∧
        n = construct_input_selector (input_name i)) ∨
  (∃ s, s ∈ steps workflow_definition ∧
        n = construct_step_selector (step_name s)) ∨
  (∃ o, o ∈ outputs workflow_definition ∧
        n = construct_output_name (output_name o)).

(** The attributes [a] of the node [n] are those of a declared input, step
    or output whose id is [n]. *)
Definition node_of_definition (workflow_definition : ParsedWorkflowDefinition)
    (n : string) (a : NodeAttrs) : Prop :=
  (∃ i, i ∈ inputs workflow_definition ∧
        n = construct_input_selector (input_name i) ∧
        kind a = Some INPUT_NODE_KIND ∧
        definition a = Some (InputDefinition i)) ∨
  (∃ s, s ∈ steps workflow_definition ∧
        n = construct_step_selector (step_name s) ∧
        kind a = Some STEP_NODE_KIND ∧
        definition a = Some (StepDefinition s)) ∨
  (∃ o, o ∈ outputs workflow_definition ∧
        n = construct_output_name (output_name o) ∧
        kind a = Some OUTPUT_NODE_KIND ∧
        definition a = Some (OutputFieldDefinition o)).

(** Output [v] of the definition reads the node [u]. *)
Definition output_reference (workflow_definition : ParsedWorkflowDefinition)
    (u v : string) : Prop :=
  ∃ o, o ∈ outputs workflow_definition ∧
       u = output_target o ∧ v = construct_output_name (output_name o).

(** The edge [(u, v)] is asked for by the definition. *)
Definition requested_edge (workflow_definition : ParsedWorkflowDefinition)
    (u v : string) : Prop :=
  data_reference_to workflow_definition u v ∨
  flow_control_reference workflow_definition u v ∨
  output_reference workflow_definition u v.

(** Every step node carries the manifest of a step. *)
Definition steps_defined (G : DiGraph) : Prop :=
  ∀ n, n ∈ get_nodes_of_specific_kind G STEP_NODE_KIND →
       ∃ step, node_attrs G n ≫= definition = Some (StepDefinition step).

(** The entry of [available_blocks] that the dictionary comprehension of
    [prepare_execution_graph] keeps for a manifest class: the last one. *)
Definition last_block_of (available_blocks : list BlockSpecification)
    (c : string) : option WorkflowBlock :=
  spec_block_class <$>
    last (filter (λ b, spec_manifest_class b = c) available_blocks).

(** ** Further parts of connections_discovery.py *)

(** Block classes (Python class objects in the source) are named by their
    identifiers, as in [BlockDescription]. *)

(** [parse_all_schemas].  Modelled from the spec:
    [parse_block_manifest_schema] (schema_parser.py) is not part of the
    sources; [block_manifest_metadata block] stands for
    [parse_block_manifest_schema(schema=block.block_schema)].  A later block
    of the same class replaces an earlier one. *)
Definition parse_all_schemas
    (block_manifest_metadata : BlockDescription → BlockManifestMetadata)
    (blocks : list BlockDescription) : gmap string BlockManifestMetadata :=
  foldl (λ m block,
           <[description_block_class block := block_manifest_metadata block]> m)
    ∅ blocks.

(** [d[k].add(x)] on a [defaultdict(set)]. *)
Definition defaultdict_add `{Countable A} (d : gmap string (gset A))
    (k : string) (x : A) : gmap string (gset A) :=
  <[k := {[x]} ∪ default ∅ (d !! k)]> d.

(** [d[k]] on a [defaultdict(set)]: a missing key is created with the empty
    set, in the dictionary itself. *)
Definition defaultdict_getitem `{Countable A} (d : gmap string (gset A))
    (k : string) : gset A * gmap string (gset A) :=
  match d !! k with
  | Some X => (X, d)
  | None => (∅, <[k := ∅]> d)
  end.

Definition get_all_outputs_kind_major (blocks : list BlockDescription)
  : gmap string (gset string) :=
  foldl (λ kind_major_step_outputs block,
           let kind_major_step_outputs :=
             defaultdict_add kind_major_step_outputs (kind_name WILDCARD_KIND)
               (description_block_class block) in
           foldl (λ kind_major_step_outputs output,
                    foldl (λ kind_major_step_outputs kind,
                             defaultdict_add kind_major_step_outputs
                               (kind_name kind) (description_block_class block))
                      kind_major_step_outputs (output_definition_kind output))
             kind_major_step_outputs (outputs_manifest block))
    ∅ blocks.

(** The blocks matching one selector property: the body of the loop of
    [discover_block_input_connections]. *)
Definition blocks_matching_property (selector : SelectorDefinition)
    (output_kind2schemas : gmap string (gset string)) : gset string :=
  foldl (λ blocks_matching_property allowed_reference,
           if decide (selected_element allowed_reference
                      ≠ STEP_OUTPUT_AS_SELECTED_ELEMENT)
           then blocks_matching_property
           else
             foldl (λ blocks_matching_property single_kind,
                      blocks_matching_property
                      ∪ default ∅ (output_kind2schemas !! kind_name single_kind))
               blocks_matching_property (reference_kind allowed_reference))
    ∅ (allowed_references selector).

Definition discover_block_input_connections (starting_block : string)
    (all_schemas : gmap string BlockManifestMetadata)
    (output_kind2schemas : gmap string (gset string))
  : Result (gmap string (gset string)) :=
  match all_schemas !! starting_block with
  | None => Raise (KeyError starting_block)
  | Some metadata =>
      Ok (foldl (λ (result : gmap string (gset string)) selector,
                   <[property_name selector :=
                       blocks_matching_property selector output_kind2schemas]>
                     result)
            ∅ (map_to_list (selectors metadata)).*2)
  end.

(** [discover_block_output_connections]: [describe_outputs] is the class
    method of the block classes; [input_kind2schemas] is the
    [defaultdict(set)] made by [convert_kinds_mapping_to_block_wise_format],
    shared with the caller, and the lookups of missing kinds add keys to
    it: the dictionary is returned with the result. *)
Definition discover_block_output_connections
    (describe_outputs : string → list OutputDefinition)
    (starting_block : string)
    (input_kind2schemas : gmap string (gset string))
  : gmap string (gset string) * gmap string (gset string) :=
  foldl (λ (st : gmap string (gset string) * gmap string (gset string)) output,
           let inner :=
             foldl (λ (acc : gset string * gmap string (gset string)) single_kind,
                      let r := defaultdict_getitem acc.2 (kind_name single_kind) in
                      (acc.1 ∪ r.1, r.2))
               (∅, st.2) (output_definition_kind output) in
           (<[output_definition_name output := inner.1]> st.1, inner.2))
    (∅, input_kind2schemas) (describe_outputs starting_block).

Definition convert_property_connections_to_block_wise_connections
    (property_wise_connections : gmap string (gmap string (gset string)))
  : gmap string (gset string) :=
  foldl (λ (result : gmap string (gset string))
           (item : string * gmap string (gset string)),
           let block_connections :=
             foldl (λ (block_connections : gset string) property_connections,
                      block_connections ∪ property_connections)
               ∅ (map_to_list item.2).*2 in
           <[item.1 := block_connections]> result)
    ∅ (map_to_list property_wise_connections).

Definition convert_kinds_mapping_to_block_wise_format
    (detailed_input_kind2schemas : gmap string (gset BlockPropertyDefinition))
    (compatible_elements : gset string) : gmap string (gset string) :=
  foldl (λ (result : gmap string (gset string))
           (item : string * gset BlockPropertyDefinition),
           foldl (λ (result : gmap string (gset string)) definition,
                    if decide (compatible_element definition ∉ compatible_elements)
                    then result
                    else defaultdict_add result item.1 (block_type definition))
             result (elements item.2))
    ∅ (map_to_list detailed_input_kind2schemas).

Record BlocksConnections := {
  property_wise : gmap string (gmap string (gset string));
  block_wise : gmap string (gset string);
}.

Record DiscoveredConnections := {
  input_connections : BlocksConnections;
  output_connections : BlocksConnections;
  kinds_connections : gmap string (gset BlockPropertyDefinition);
}.

(** The state of the loop of [discover_blocks_connections] over the block
    classes: the two property-wise dictionaries and the shared index of the
    consumers. *)
Record ConnectionsLoopState := {
  input_property_wise_connections : gmap string (gmap string (gset string));
  output_property_wise_connections : gmap string (gmap string (gset string));
  coarse_input_kind2schemas : gmap string (gset string);
}.

Definition discover_connections_of_block
    (describe_outputs : string → list OutputDefinition)
    (all_schemas : gmap string BlockManifestMetadata)
    (output_kind2schemas : gmap string (gset string))
    (st : ConnectionsLoopState) (manifest_type : string)
  : Result ConnectionsLoopState :=
  inputs_of_block ←
    discover_block_input_connections manifest_type all_schemas
      output_kind2schemas;
  let outputs_of_block :=
    discover_block_output_connections describe_outputs manifest_type
      (coarse_input_kind2schemas st) in
  Ok {| input_property_wise_connections :=
          <[manifest_type := inputs_of_block]>
            (input_property_wise_connections st);
        output_property_wise_connections :=
          <[manifest_type := outputs_of_block.1]>
            (output_property_wise_connections st);
        coarse_input_kind2schemas := outputs_of_block.2 |}.

Definition discover_blocks_connections
    (block_manifest_metadata : BlockDescription → BlockManifestMetadata)
    (describe_outputs : string → list OutputDefinition)
    (blocks : list BlockDescription) : Result DiscoveredConnections :=
  let all_schemas := parse_all_schemas block_manifest_metadata blocks in
  let output_kind2schemas := get_all_outputs_kind_major blocks in
  detailed_input_kind2schemas ← get_all_inputs_kind_major blocks all_schemas;
  let coarse_input_kind2schemas :=
    convert_kinds_mapping_to_block_wise_format detailed_input_kind2schemas
      {[STEP_OUTPUT_AS_SELECTED_ELEMENT]} in
  st ← for_each (discover_connections_of_block describe_outputs all_schemas
                   output_kind2schemas)
         (map_to_list all_schemas).*1
         {| input_property_wise_connections := ∅;
            output_property_wise_connections := ∅;
            coarse_input_kind2schemas := coarse_input_kind2schemas |};
  let input_block_wise_connections :=
    convert_property_connections_to_block_wise_connections
      (input_property_wise_connections st) in
  let output_block_wise_connections :=
    convert_property_connections_to_block_wise_connections
      (output_property_wise_connections st) in
  Ok {| input_connections :=
          {| property_wise := input_property_wise_connections st;
             block_wise := input_block_wise_connections |};
        output_connections :=
          {| property_wise := output_property_wise_connections st;
             block_wise := output_block_wise_connections |};
        kinds_connections := detailed_input_kind2schemas |}.

(** ** Statements about the discovered connections *)

(** Block [b] declares an output of the kind named [k]. *)
Definition produces_kind (block : BlockDescription) (k : string) : Prop :=
  ∃ output single_kind,
    output ∈ outputs_manifest block ∧
    single_kind ∈ output_definition_kind output ∧
    kind_name single_kind = k.

(** The selector property accepts the output of a step under the kind
    named [k]. *)
Definition accepts_step_output_of_kind (selector : SelectorDefinition)
    (k : string) : Prop :=
  ∃ allowed_reference single_kind,
    allowed_reference ∈ allowed_references selector ∧
    selected_element allowed_reference = STEP_OUTPUT_AS_SELECTED_ELEMENT ∧
    single_kind ∈ reference_kind allowed_reference ∧
    kind_name single_kind = k.

(** The selector property accepts the output of a step, whatever the
    kind. *)
Definition accepts_step_output (selector : SelectorDefinition) : Prop :=
  ∃ allowed_reference,
    allowed_reference ∈ allowed_references selector ∧
    selected_element allowed_reference = STEP_OUTPUT_AS_SELECTED_ELEMENT.

(** ** Further example workflows *)

(** A step of a block class that is not registered, read by an output. *)
Definition unregistered_step_workflow : ParsedWorkflowDefinition :=
  {| inputs := [];
     steps := [{| step_name := "a"; manifest_class := "Unknown";
                  manifest_selectors := [] |}];
     outputs := [{| output_name := "result"; output_selector := "$steps.a.y" |}] |}.

Definition unregistered_step_graph : DiGraph :=
  Eval vm_compute in
    match construct_graph unregistered_step_workflow
            example_manifest_class2block_class with
    | Ok G => G
    | Raise _ => empty_graph
    end.

(** A cycle between [a] and [b], where [a] also reads the step [c]. *)
Definition cyclic_merge_workflow : ParsedWorkflowDefinition :=
  {| inputs := [];
     steps := [transform_step "a" [data_reference "x" "$steps.b.y" value_kind;
                                   data_reference "z" "$steps.c.y" value_kind];
               transform_step "b" [data_reference "x" "$steps.a.y" value_kind];
               transform_step "c" []];
     outputs := [] |}.

Definition cyclic_merge_graph : DiGraph :=
  Eval vm_compute in
    match construct_graph cyclic_merge_workflow
            example_manifest_class2block_class with
    | Ok G => G
    | Raise _ => empty_graph
    end.

(** The description and the parsed schema of the transform block: one
    output [y] and one data property [x]. *)
Definition transform_block_description : BlockDescription :=
  {| description_block_class := "TransformBlock";
     description_manifest_type_identifier := "Transform";
     outputs_manifest := [{| output_definition_name := "y";
                              output_definition_kind := [value_kind] |}] |}.

Definition transform_block_schema : BlockManifestMetadata :=
  {| selectors := <["x" := data_reference "x" "" value_kind]> ∅ |}.

Definition example_block_descriptions : list BlockDescription :=
  [condition_block_description; transform_block_description].

Definition example_block_manifest_metadata (block : BlockDescription)
  : BlockManifestMetadata :=
  if String.eqb (description_block_class block) "ConditionBlock"
  then condition_block_schema else transform_block_schema.

Definition example_describe_outputs (block_class : string)
  : list OutputDefinition :=
  if String.eqb block_class "TransformBlock"
  then [{| output_definition_name := "y";
           output_definition_kind := [value_kind] |}]
  else [].

(** ** Statements about the errors of compilation *)

(** The classes of the errors that the construction of the graph raises. *)
Definition construction_error_classes : list ErrorClass :=
  [InvalidReferenceTargetErrorClass; ExecutionGraphStructureErrorClass;
   ReferenceTypeErrorClass; KeyErrorClass; AttributeErrorClass].

(** The classes of the errors that compilation raises. *)
Definition compilation_error_classes : list ErrorClass :=
  construction_error_classes
  ++ [DanglingExecutionBranchErrorClass; ConditionalBranchesClashErrorClass].

(** * Properties *)

(** ** Association lists and nodes *)

Section assoc_lists.
Context {A : Type}.
Implicit Types (l : list (string * A)) (n : string).

Lemma assoc_update_keys n f l : (assoc_update n f l).*1 = l.*1.
Proof.
  induction l as [|[k a] l IH]; csimpl; [done|].
  case_decide; csimpl; by rewrite ?IH.
Qed.

Lemma assoc_app_r n l x :
  assoc n (l ++ [(n, x)]) = Some (default x (assoc n l)).
Proof.
  induction l as [|[k a] l IH]; csimpl.
  - by rewrite decide_True.
  - case_decide; [done|]. by rewrite IH.
Qed.

Lemma assoc_app_ne n k l x : k ≠ n → assoc n (l ++ [(k, x)]) = assoc n l.
Proof.
  intros Hne. induction l as [|[k' a] l IH]; csimpl.
  - by rewrite decide_False.
  - case_decide; [done|]. by rewrite IH.
Qed.

Lemma assoc_None n l : assoc n l = None ↔ n ∉ l.*1.
Proof.
  induction l as [|[k a] l IH]; csimpl.
  - split; [intros _; apply not_elem_of_nil | done].
  - rewrite not_elem_of_cons. case_decide; subst.
    + split; [done | intros [? _]; done].
    + rewrite IH. naive_solver.
Qed.

Lemma assoc_is_Some n l : is_Some (assoc n l) ↔ n ∈ l.*1.
Proof.
  rewrite <-not_eq_None_Some, assoc_None.
  split; [apply dec_stable | by intros ? ?].
Qed.

Lemma assoc_update_eq n f l :
  assoc n (assoc_update n f l) = f <$> assoc n l.
Proof.
  induction l as [|[k a] l IH]; csimpl; [done|].
  case_decide; csimpl; case_decide; try done.
Qed.

Lemma assoc_update_ne n k f l :
  k ≠ n → assoc n (assoc_update k f l) = assoc n l.
Proof.
  intros Hne. induction l as [|[k' a] l IH]; csimpl; [done|].
  repeat (case_decide; csimpl); subst; try done.
Qed.

Lemma assoc_elem_of n a l : assoc n l = Some a → (n, a) ∈ l.
Proof.
  induction l as [|[k b] l IH]; csimpl; [done|].
  case_decide; subst.
  - intros [= ->]. left.
  - intros. right. auto.
Qed.

Lemma filter_key_absent n l :
  n ∉ l.*1 → filter (λ p : string * A, p.1 = n) l = [].
Proof.
  induction l as [|[k a] l IH]; csimpl; [done|].
  rewrite not_elem_of_cons. intros [Hne Hl].
  rewrite filter_cons. simpl. rewrite decide_False by done. auto.
Qed.

Lemma filter_key_length n l :
  NoDup l.*1 → n ∈ l.*1 →
  length (filter (λ p : string * A, p.1 = n) l) = 1.
Proof.
  induction l as [|[k a] l IH]; csimpl; intros Hnd Hin.
  - by apply elem_of_nil in Hin.
  - apply NoDup_cons in Hnd as [Hk Hnd].
    rewrite filter_cons. simpl. case_decide; subst; simpl.
    + by rewrite filter_key_absent.
    + apply IH; [done|]. apply elem_of_cons in Hin as [?|?]; congruence.
Qed.
End assoc_lists.

Lemma has_node_true G n : has_node G n = true ↔ n ∈ nodes G.
Proof. unfold has_node. by rewrite bool_decide_eq_true. Qed.

Lemma has_node_false G n : has_node G n = false ↔ n ∉ nodes G.
Proof. unfold has_node. by rewrite bool_decide_eq_false. Qed.

Lemma node_attrs_is_Some G n : is_Some (node_attrs G n) ↔ n ∈ nodes G.
Proof. apply assoc_is_Some. Qed.

Lemma nodes_add_node G n k d n' :
  n' ∈ nodes (add_node G n k d) ↔ n' = n ∨ n' ∈ nodes G.
Proof.
  unfold add_node. destruct (has_node G n) eqn:Hn; unfold nodes; simpl.
  - rewrite assoc_update_keys. apply has_node_true in Hn.
    unfold nodes in Hn. naive_solver.
  - rewrite fmap_app, elem_of_app. simpl. rewrite list_elem_of_singleton.
    naive_solver.
Qed.

Lemma NoDup_nodes_add_node G n k d :
  NoDup (nodes G) → NoDup (nodes (add_node G n k d)).
Proof.
  unfold add_node. destruct (has_node G n) eqn:Hn; unfold nodes; simpl.
  - by rewrite assoc_update_keys.
  - intros Hnd. rewrite fmap_app. apply NoDup_app. split; [done|].
    apply has_node_false in Hn. split.
    + intros x Hx Hx'. apply list_elem_of_singleton in Hx'. by subst.
    + apply NoDup_singleton.
Qed.

Lemma adj_add_node G n k d : _adj (add_node G n k d) = _adj G.
Proof. unfold add_node. by destruct (has_node G n). Qed.

Lemma node_attrs_add_node_eq G n k d :
  node_attrs (add_node G n k d) n =
  Some {| kind := Some k; definition := Some d;
          flow_control_node := node_attrs G n ≫= flow_control_node |}.
Proof.
  unfold add_node, node_attrs. destruct (has_node G n) eqn:Hn; simpl.
  - rewrite assoc_update_eq. apply has_node_true, assoc_is_Some in Hn.
    destruct Hn as [a ->]. done.
  - rewrite assoc_app_r. apply has_node_false, assoc_None in Hn.
    by rewrite Hn.
Qed.

Lemma node_attrs_add_node_ne G n k d n' :
  n ≠ n' → node_attrs (add_node G n k d) n' = node_attrs G n'.
Proof.
  intros Hne. unfold add_node, node_attrs. destruct (has_node G n); simpl.
  - by apply assoc_update_ne.
  - by apply assoc_app_ne.
Qed.

(** A loop of [add_node] calls over a list of definitions. *)
Section add_nodes_loop.
Context {A : Type} (key : A → string) (k : string) (d : A → NodeDefinition).

Local Abbreviation add_nodes_loop l G :=
  (foldl (λ G x, add_node G (key x) k (d x)) G l).

Lemma add_nodes_loop_snoc l x G :
  add_nodes_loop (l ++ [x]) G = add_node (add_nodes_loop l G) (key x) k (d x).
Proof. by rewrite foldl_app. Qed.

Lemma add_nodes_loop_nodes l G n :
  n ∈ nodes (add_nodes_loop l G) ↔ n ∈ nodes G ∨ ∃ x, x ∈ l ∧ key x = n.
Proof.
  induction l as [|x l IH] using rev_ind.
  - simpl. split; [auto|]. intros [?|(x & Hx & _)]; [done|].
    by apply elem_of_nil in Hx.
  - rewrite add_nodes_loop_snoc, nodes_add_node, IH.
    setoid_rewrite elem_of_app. setoid_rewrite list_elem_of_singleton.
    naive_solver.
Qed.

Lemma add_nodes_loop_NoDup l G :
  NoDup (nodes G) → NoDup (nodes (add_nodes_loop l G)).
Proof.
  intros Hnd. induction l as [|x l IH] using rev_ind; [done|].
  rewrite add_nodes_loop_snoc. by apply NoDup_nodes_add_node.
Qed.

Lemma add_nodes_loop_adj l G : _adj (add_nodes_loop l G) = _adj G.
Proof.
  induction l as [|x l IH] using rev_ind; [done|].
  by rewrite add_nodes_loop_snoc, adj_add_node.
Qed.

Lemma add_nodes_loop_other l G n :
  (∀ x, x ∈ l → key x ≠ n) →
  node_attrs (add_nodes_loop l G) n = node_attrs G n.
Proof.
  induction l as [|x l IH] using rev_ind; intros Hl; [done|].
  rewrite add_nodes_loop_snoc, node_attrs_add_node_ne.
  - apply IH. intros y Hy. apply Hl, elem_of_app. by left.
  - apply Hl, elem_of_app. right. by apply list_elem_of_singleton.
Qed.

Lemma add_nodes_loop_flow l G n :
  node_attrs (add_nodes_loop l G) n ≫= flow_control_node
  = node_attrs G n ≫= flow_control_node.
Proof.
  induction l as [|x l IH] using rev_ind; [done|].
  rewrite add_nodes_loop_snoc. destruct (decide (key x = n)) as [<-|Hne].
  - by rewrite node_attrs_add_node_eq.
  - by rewrite node_attrs_add_node_ne.
Qed.

(** The last definition carrying a key is the one attached to the node. *)
Lemma add_nodes_loop_last l1 x l2 G :
  (∀ y, y ∈ l2 → key y ≠ key x) →
  node_attrs (add_nodes_loop (l1 ++ x :: l2) G) (key x) =
  Some {| kind := Some k; definition := Some (d x);
          flow_control_node := node_attrs G (key x) ≫= flow_control_node |}.
Proof.
  intros Hl2. rewrite foldl_app. simpl.
  rewrite add_nodes_loop_other by done.
  rewrite node_attrs_add_node_eq. by rewrite add_nodes_loop_flow.
Qed.
End add_nodes_loop.

(** ** Node ids *)

Lemma input_selector_not_step a b :
  construct_input_selector a ≠ construct_step_selector b.
Proof. done. Qed.

Lemma input_selector_not_output a b :
  construct_input_selector a ≠ construct_output_name b.
Proof. done. Qed.

Lemma step_selector_not_output a b :
  construct_step_selector a ≠ construct_output_name b.
Proof. done. Qed.

Lemma construct_input_selector_inj a b :
  construct_input_selector a = construct_input_selector b → a = b.
Proof. by intros [=]. Qed.

Lemma construct_step_selector_inj a b :
  construct_step_selector a = construct_step_selector b → a = b.
Proof. by intros [=]. Qed.

Lemma construct_output_name_inj a b :
  construct_output_name a = construct_output_name b → a = b.
Proof. by intros [=]. Qed.

Lemma construct_nodes_NoDup wd : NoDup (nodes (construct_nodes wd)).
Proof.
  unfold construct_nodes, add_output_nodes_for_graph,
    add_steps_nodes_for_graph, add_input_nodes_for_graph.
  do 3 apply add_nodes_loop_NoDup. apply NoDup_nil_2.
Qed.

Lemma construct_nodes_adj wd : _adj (construct_nodes wd) = [].
Proof.
  unfold construct_nodes, add_output_nodes_for_graph,
    add_steps_nodes_for_graph, add_input_nodes_for_graph.
  by rewrite !add_nodes_loop_adj.
Qed.

Lemma single_node_with_intro G id k d f :
  NoDup (nodes G) →
  node_attrs G id = Some {| kind := Some k; definition := Some d;
                            flow_control_node := f |} →
  single_node_with G id k d.
Proof.
  intros Hnd Hattrs. split.
  - apply filter_key_length; [done|]. apply node_attrs_is_Some. by eexists.
  - eexists. split; [done|]. done.
Qed.

(** C10. Duplicate names are not rejected.  The three node passes are total
    functions (they return a graph, not a [Result]); after them the id of
    every input, step and output occurs once among the nodes, and the
    definition attached to it is the last one of that name in definition
    order. *)
Theorem duplicate_names_last_definition_wins (wd : ParsedWorkflowDefinition) :
  let G := construct_nodes wd in
  (∀ l1 x l2, inputs wd = l1 ++ x :: l2 →
     (∀ y, y ∈ l2 → input_name y ≠ input_name x) →
     single_node_with G (construct_input_selector (input_name x))
       INPUT_NODE_KIND (InputDefinition x)) ∧
  (∀ l1 x l2, steps wd = l1 ++ x :: l2 →
     (∀ y, y ∈ l2 → step_name y ≠ step_name x) →
     single_node_with G (construct_step_selector (step_name x))
       STEP_NODE_KIND (StepDefinition x)) ∧
  (∀ l1 x l2, outputs wd = l1 ++ x :: l2 →
     (∀ y, y ∈ l2 → output_name y ≠ output_name x) →
     single_node_with G (construct_output_name (output_name x))
       OUTPUT_NODE_KIND (OutputFieldDefinition x)).
Proof.
  intros G. pose proof (construct_nodes_NoDup wd) as Hnd.
  subst G. unfold construct_nodes, add_output_nodes_for_graph,
    add_steps_nodes_for_graph, add_input_nodes_for_graph in *.
  split; [|split]; intros l1 x l2 Hl Hlast;
    eapply single_node_with_intro; try done.
  - rewrite add_nodes_loop_other
      by (intros; apply not_eq_sym, input_selector_not_output).
    rewrite add_nodes_loop_other
      by (intros; apply not_eq_sym, input_selector_not_step).
    rewrite Hl. apply (add_nodes_loop_last (λ i, construct_input_selector (input_name i))).
    intros y Hy Heq. by apply construct_input_selector_inj, Hlast in Heq.
  - rewrite add_nodes_loop_other
      by (intros; apply not_eq_sym, step_selector_not_output).
    rewrite Hl. apply (add_nodes_loop_last (λ s, construct_step_selector (step_name s))).
    intros y Hy Heq. by apply construct_step_selector_inj, Hlast in Heq.
  - rewrite Hl. apply (add_nodes_loop_last (λ o, construct_output_name (output_name o))).
    intros y Hy Heq. by apply construct_output_name_inj, Hlast in Heq.
Qed.

Lemma duplicate_names_last_definition_wins_witness :
  single_node_with (construct_nodes duplicated_names) "$inputs.image"
    INPUT_NODE_KIND
    (InputDefinition {| input_name := "image"; input_kind := [integer_kind] |}) ∧
  single_node_with (construct_nodes duplicated_names) "$steps.a"
    STEP_NODE_KIND (StepDefinition (transform_step "a" [])) ∧
  single_node_with (construct_nodes duplicated_names) "out.result"
    OUTPUT_NODE_KIND
    (OutputFieldDefinition {| output_name := "result";
                              output_selector := "$inputs.image" |}).
Proof.
  destruct (duplicate_names_last_definition_wins duplicated_names)
    as (Hin & Hst & Hout).
  split; [|split].
  - apply (Hin [{| input_name := "image"; input_kind := [image_kind] |}]
             {| input_name := "image"; input_kind := [integer_kind] |} []);
      [reflexivity|]. intros y Hy. by apply elem_of_nil in Hy.
  - apply (Hst [transform_step "a" [data_reference "x" "$inputs.image" image_kind]]
             (transform_step "a" []) []); [reflexivity|].
    intros y Hy. by apply elem_of_nil in Hy.
  - apply (Hout [{| output_name := "result"; output_selector := "$steps.a.y" |}]
             {| output_name := "result"; output_selector := "$inputs.image" |} []);
      [reflexivity|]. intros y Hy. by apply elem_of_nil in Hy.
Defined.

(** ** Loops that may raise *)

Section for_each_facts.
Context {A S : Type} (body : S → A → Result S).

Lemma for_each_app l1 l2 s :
  for_each body (l1 ++ l2) s = s' ← for_each body l1 s; for_each body l2 s'.
Proof.
  revert s. induction l1 as [|a l1 IH]; intros s; simpl; [done|].
  destruct (body s a); simpl; auto.
Qed.

(** An invariant of the body holds when the loop returns. *)
Lemma for_each_invariant (P : S → Prop) l s s' :
  (∀ s1 a s2, a ∈ l → P s1 → body s1 a = Ok s2 → P s2) →
  P s → for_each body l s = Ok s' → P s'.
Proof.
  revert s. induction l as [|a l IH]; intros s Hbody Hs; simpl.
  - by intros [= <-].
  - destruct (body s a) as [s1|] eqn:Ha; simpl; [|done].
    apply IH; [|eapply Hbody; [left|done..]].
    intros ? b ? Hb. apply Hbody. by right.
Qed.

(** What one iteration establishes, and every iteration keeps, holds
    when the loop returns. *)
Lemma for_each_established (Q : S → Prop) l s s' a :
  a ∈ l →
  (∀ s1 s2, body s1 a = Ok s2 → Q s2) →
  (∀ s1 b s2, Q s1 → body s1 b = Ok s2 → Q s2) →
  for_each body l s = Ok s' → Q s'.
Proof.
  intros Ha Hest Hkeep. revert s.
  induction l as [|b l IH]; intros s; simpl; [by apply elem_of_nil in Ha|].
  destruct (body s b) as [s1|] eqn:Hb; simpl; [|done].
  apply elem_of_cons in Ha as [->|Ha].
  - apply for_each_invariant; [|by eapply Hest].
    intros ? c ? _. apply Hkeep.
  - by apply IH.
Qed.

(** The loop returns when every iteration does. *)
Lemma for_each_returns (P : S → Prop) l s :
  (∀ s1 a, a ∈ l → P s1 → ∃ s2, body s1 a = Ok s2 ∧ P s2) →
  P s → ∃ s', for_each body l s = Ok s' ∧ P s'.
Proof.
  revert s. induction l as [|a l IH]; intros s Hbody Hs; simpl; [eauto|].
  destruct (Hbody s a) as (s1 & -> & Hs1); [left|done|]. simpl.
  apply IH; [|done]. intros ? b ? ?. apply Hbody; [by right|done].
Qed.

(** A loop that accumulates a set: what the result holds is what the
    initial state held or what one iteration contributes. *)
Lemma for_each_accumulates {D : Type} (view : S → D → Prop)
    (contributes : A → D → Prop) l s s' :
  (∀ s1 a s2 d, a ∈ l → body s1 a = Ok s2 →
                view s2 d ↔ view s1 d ∨ contributes a d) →
  for_each body l s = Ok s' →
  ∀ d, view s' d ↔ view s d ∨ ∃ a, a ∈ l ∧ contributes a d.
Proof.
  revert s. induction l as [|a l IH]; intros s Hbody; simpl.
  - intros [= <-] d. split; [auto|]. intros [?|(a & Ha & _)]; [done|].
    by apply elem_of_nil in Ha.
  - destruct (body s a) as [s1|] eqn:Ha; simpl; [|done].
    intros Hrest d. rewrite (IH s1); [|by intros; apply Hbody; [right|]|done].
    rewrite (Hbody s a s1 d); [|left|done].
    setoid_rewrite elem_of_cons. naive_solver.
Qed.
End for_each_facts.

Lemma foldl_accumulates {A S D : Type} (f : S → A → S) (view : S → D → Prop)
    (contributes : A → D → Prop) l s :
  (∀ s1 a d, a ∈ l → view (f s1 a) d ↔ view s1 d ∨ contributes a d) →
  ∀ d, view (foldl f s l) d ↔ view s d ∨ ∃ a, a ∈ l ∧ contributes a d.
Proof.
  revert s. induction l as [|a l IH]; intros s Hf d; simpl.
  - split; [auto|]. intros [?|(a & Ha & _)]; [done|].
    by apply elem_of_nil in Ha.
  - rewrite IH; [|by intros; apply Hf; right].
    rewrite Hf; [|left]. setoid_rewrite elem_of_cons. naive_solver.
Qed.

Lemma foldl_invariant {A S : Type} (f : S → A → S) (P : S → Prop) l s :
  (∀ s1 a, a ∈ l → P s1 → P (f s1 a)) → P s → P (foldl f s l).
Proof.
  revert s. induction l as [|a l IH]; intros s Hf Hs; simpl; [done|].
  apply IH; [|apply Hf; [left|done]]. intros ? b ? ?. apply Hf; [by right|done].
Qed.

(** ** Selectors *)

Lemma append_cons c s t : String c s +:+ t = String c (s +:+ t).
Proof. reflexivity. Qed.

Lemma append_empty_l s : "" +:+ s = s.
Proof. reflexivity. Qed.

Lemma append_empty_r s : s +:+ "" = s.
Proof. induction s as [|c s IH]; [done|]. by rewrite append_cons, IH. Qed.

Lemma append_assoc s1 s2 s3 : (s1 +:+ s2) +:+ s3 = s1 +:+ (s2 +:+ s3).
Proof.
  induction s1 as [|c s1 IH]; [done|]. by rewrite !append_cons, IH.
Qed.

Lemma split_on_dot_from_not_nil chunk s : split_on_dot_from chunk s ≠ [].
Proof.
  revert chunk. induction s as [|c s IH]; intros chunk; simpl; [done|].
  destruct (Ascii.eqb c "."); [done | apply IH].
Qed.

(** Joining the chunks with dots gives the string back. *)
Lemma concat_split_on_dot_from chunk s :
  String.concat "." (split_on_dot_from chunk s) = chunk +:+ s.
Proof.
  revert chunk. induction s as [|c s IH]; intros chunk; simpl.
  - by rewrite append_empty_r.
  - destruct (Ascii.eqb c ".") eqn:Hc.
    + apply Ascii.eqb_eq in Hc as ->.
      pose proof (split_on_dot_from_not_nil "" s) as Hne.
      specialize (IH ""). rewrite append_empty_l in IH.
      destruct (split_on_dot_from "" s) as [|x xs]; [done|].
      change (String.concat "." (chunk :: x :: xs))
        with (chunk +:+ "." +:+ String.concat "." (x :: xs)).
      by rewrite IH.
    + by rewrite IH, append_assoc.
Qed.

Lemma concat_split_on_dot s : String.concat "." (split_on_dot s) = s.
Proof. apply concat_split_on_dot_from. Qed.

(** The target of a pure step selector is the selector itself. *)
Lemma target_of_step_selector r :
  is_step_selector r = true → get_step_selector_from_its_output r = r.
Proof.
  unfold is_step_selector, get_step_selector_from_its_output.
  pose proof (concat_split_on_dot r) as Hr.
  destruct (split_on_dot r) as [|p [|x [|y l]]]; try done.
Qed.

(** The target of an input selector is the selector itself. *)
Lemma target_of_input_selector r :
  is_input_selector r = true → get_step_selector_from_its_output r = r.
Proof.
  unfold is_input_selector, get_step_selector_from_its_output.
  pose proof (concat_split_on_dot r) as Hr.
  destruct (split_on_dot r) as [|p [|x [|y l]]]; try done.
Qed.

Lemma step_selector_is_no_input_selector r :
  is_step_selector r = true → is_input_selector r = false.
Proof.
  unfold is_step_selector, is_input_selector.
  destruct (split_on_dot r) as [|p [|x [|y l]]]; try done.
  intros ->%String.eqb_eq. done.
Qed.

(** ** Edges *)

Lemma nodes_ensure_node G n n' :
  n' ∈ nodes (ensure_node G n) ↔ n' = n ∨ n' ∈ nodes G.
Proof.
  unfold ensure_node. destruct (has_node G n) eqn:Hn.
  - apply has_node_true in Hn. naive_solver.
  - unfold nodes. simpl. rewrite fmap_app, elem_of_app. simpl.
    rewrite list_elem_of_singleton. naive_solver.
Qed.

Lemma ensure_node_present G n : n ∈ nodes G → ensure_node G n = G.
Proof. intros Hn%has_node_true. unfold ensure_node. by rewrite Hn. Qed.

Lemma NoDup_nodes_ensure_node G n :
  NoDup (nodes G) → NoDup (nodes (ensure_node G n)).
Proof.
  unfold ensure_node. destruct (has_node G n) eqn:Hn; [done|].
  unfold nodes. simpl. intros Hnd. rewrite fmap_app. apply NoDup_app.
  split; [done|]. apply has_node_false in Hn. split.
  - intros x Hx Hx'. apply list_elem_of_singleton in Hx'. by subst.
  - apply NoDup_singleton.
Qed.

Lemma adj_ensure_node G n : _adj (ensure_node G n) = _adj G.
Proof. unfold ensure_node. by destruct (has_node G n). Qed.

Lemma node_attrs_ensure_node G n n' a :
  node_attrs G n' = Some a → node_attrs (ensure_node G n) n' = Some a.
Proof.
  intros Ha. unfold ensure_node. destruct (has_node G n) eqn:Hn; [done|].
  unfold node_attrs. simpl. rewrite assoc_app_ne; [done|].
  intros ->. apply has_node_false in Hn. apply Hn, node_attrs_is_Some. eauto.
Qed.

Lemma nodes_add_edge G u v n :
  n ∈ nodes (add_edge G u v) ↔ n = u ∨ n = v ∨ n ∈ nodes G.
Proof.
  unfold add_edge. destruct (has_edge _ _ _); unfold nodes at 1; simpl;
    fold (nodes (ensure_node (ensure_node G u) v));
    rewrite !nodes_ensure_node; naive_solver.
Qed.

Lemma NoDup_nodes_add_edge G u v :
  NoDup (nodes G) → NoDup (nodes (add_edge G u v)).
Proof.
  intros Hnd. unfold add_edge. destruct (has_edge _ _ _); unfold nodes; simpl;
    by do 2 apply NoDup_nodes_ensure_node.
Qed.

Lemma node_add_edge_present G u v :
  u ∈ nodes G → v ∈ nodes G → _node (add_edge G u v) = _node G.
Proof.
  intros Hu Hv. unfold add_edge.
  rewrite (ensure_node_present G u), (ensure_node_present G v) by done.
  by destruct (has_edge _ _ _).
Qed.

Lemma node_attrs_add_edge G u v n a :
  node_attrs G n = Some a → node_attrs (add_edge G u v) n = Some a.
Proof.
  intros Ha. unfold add_edge.
  destruct (has_edge _ _ _); unfold node_attrs; simpl;
    by do 2 apply node_attrs_ensure_node.
Qed.

Lemma adj_add_edge G u v :
  _adj (add_edge G u v) =
  if has_edge G u v then _adj G else _adj G ++ [(u, v, ∅)].
Proof.
  assert (∀ G n, has_edge (ensure_node G n) u v = has_edge G u v) as Hens.
  { intros G' n. unfold has_edge. by rewrite adj_ensure_node. }
  unfold add_edge. rewrite !Hens.
  destruct (has_edge G u v); simpl; by rewrite !adj_ensure_node.
Qed.

Lemma has_edge_true G u v : has_edge G u v = true ↔ (u, v) ∈ (_adj G).*1.
Proof. unfold has_edge. by rewrite bool_decide_eq_true. Qed.

Lemma edge_add_edge G u v a b :
  (a, b) ∈ (_adj (add_edge G u v)).*1 ↔ (a, b) = (u, v) ∨ (a, b) ∈ (_adj G).*1.
Proof.
  rewrite adj_add_edge. destruct (has_edge G u v) eqn:He.
  - apply has_edge_true in He. naive_solver.
  - rewrite fmap_app, elem_of_app. simpl. rewrite list_elem_of_singleton.
    naive_solver.
Qed.

Lemma has_edge_add_edge G u v : has_edge (add_edge G u v) u v = true.
Proof. apply has_edge_true, edge_add_edge. by left. Qed.

Lemma has_edge_add_edge_mono G u v a b :
  has_edge G a b = true → has_edge (add_edge G u v) a b = true.
Proof. rewrite !has_edge_true, edge_add_edge. auto. Qed.

Lemma nodes_set_flow_control_node G n :
  nodes (set_flow_control_node G n) = nodes G.
Proof. unfold nodes. simpl. apply assoc_update_keys. Qed.

Lemma is_flow_control_step_set G n :
  n ∈ nodes G → is_flow_control_step (set_flow_control_node G n) n = true.
Proof.
  intros [a Ha]%node_attrs_is_Some. unfold is_flow_control_step, node_attrs in *.
  simpl. by rewrite assoc_update_eq, Ha.
Qed.

Lemma is_flow_control_step_set_mono G n n' :
  is_flow_control_step G n' = true →
  is_flow_control_step (set_flow_control_node G n) n' = true.
Proof.
  unfold is_flow_control_step, node_attrs. simpl.
  destruct (decide (n = n')) as [->|Hne].
  - rewrite assoc_update_eq. by destruct (assoc n' (_node G)).
  - by rewrite assoc_update_ne.
Qed.

Lemma is_flow_control_step_add_edge_mono G u v n :
  is_flow_control_step G n = true →
  is_flow_control_step (add_edge G u v) n = true.
Proof.
  unfold is_flow_control_step.
  destruct (node_attrs G n) as [a|] eqn:Ha; [|done].
  by rewrite (node_attrs_add_edge _ _ _ _ a).
Qed.

(** ** Edges induced by selectors *)

Lemma verify_edge_ok G start end_ :
  has_node G start = true → has_node G end_ = true →
  verify_edge_is_created_between_existing_nodes G start end_ = Ok ().
Proof.
  intros Hs He. unfold verify_edge_is_created_between_existing_nodes.
  by rewrite Hs, He.
Qed.

Lemma verify_edge_inv G start end_ u :
  verify_edge_is_created_between_existing_nodes G start end_ = Ok u →
  start ∈ nodes G ∧ end_ ∈ nodes G.
Proof.
  unfold verify_edge_is_created_between_existing_nodes.
  destruct (has_node G start) eqn:Hs; [|done].
  destruct (has_node G end_) eqn:He; [|done].
  by rewrite <-!has_node_true.
Qed.

Lemma allows_flow_control_references_true sd :
  step_definition_allows_flow_control_references sd = true ↔
  Exists (λ ref, selected_element ref = STEP_AS_SELECTED_ELEMENT)
    (allowed_references sd).
Proof.
  unfold step_definition_allows_flow_control_references.
  rewrite bool_decide_eq_true. induction (allowed_references sd) as [|ref l IH].
  - simpl. rewrite Exists_nil. lia.
  - rewrite filter_cons, Exists_cons. case_decide; simpl; [|naive_solver].
    split; [auto | lia].
Qed.

Lemma allows_flow_control_references_false sd :
  step_definition_allows_flow_control_references sd = false ↔
  Forall (λ ref, selected_element ref ≠ STEP_AS_SELECTED_ELEMENT)
    (allowed_references sd).
Proof.
  rewrite <-not_true_iff_false, allows_flow_control_references_true.
  by rewrite <-Forall_Exists_neg.
Qed.

(** C6. A pure step selector on a property that permits no [step]
    reference raises the structure error; otherwise the edge goes from the
    referring step to the referred one, the referring step is marked as a
    flow-control step, and the outcome depends neither on the registered
    blocks nor on any kind: no compatibility check is made. *)
Theorem flow_control_reference_edge (G : DiGraph) (s : string)
    (sd : SelectorDefinition) :
  is_step_selector (selector sd) = true →
  has_node G s = true →
  has_node G (selector sd) = true →
  (Forall (λ ref, selected_element ref ≠ STEP_AS_SELECTED_ELEMENT)
     (allowed_references sd) →
   ∀ m, add_edge_for_step G s sd m
        = Raise (ExecutionGraphStructureError (DetectedReferenceToOtherStep s))) ∧
  (Exists (λ ref, selected_element ref = STEP_AS_SELECTED_ELEMENT)
     (allowed_references sd) →
   ∃ G', (∀ m, add_edge_for_step G s sd m = Ok G') ∧
         (∀ a b, (a, b) ∈ (_adj G').*1 ↔
                 (a, b) = (s, selector sd) ∨ (a, b) ∈ (_adj G).*1) ∧
         nodes G' = nodes G ∧
         is_flow_control_step G' s = true).
Proof.
  intros Hstep Hs Hr. unfold add_edge_for_step.
  rewrite (target_of_step_selector _ Hstep), (verify_edge_ok _ _ _ Hs Hr), Hstep.
  simpl. unfold establish_flow_control_edge.
  rewrite (target_of_step_selector _ Hstep).
  split.
  - intros Hnone%allows_flow_control_references_false m. by rewrite Hnone.
  - intros Hsome%allows_flow_control_references_true. rewrite Hsome. simpl.
    eexists. split; [done|]. apply has_node_true in Hs, Hr.
    split; [|split].
    + intros a b. simpl. apply edge_add_edge.
    + rewrite nodes_set_flow_control_node. unfold nodes.
      by rewrite node_add_edge_present.
    + apply is_flow_control_step_set, nodes_add_edge. by left.
Qed.

Lemma flow_control_reference_edge_witness :
  let G := construct_nodes branching_workflow in
  ∃ G', (∀ m, add_edge_for_step G "$steps.if"
                (step_reference "step_if_true" "$steps.B") m = Ok G') ∧
        has_edge G' "$steps.if" "$steps.B" = true ∧
        is_flow_control_step G' "$steps.if" = true.
Proof.
  intros G.
  destruct (flow_control_reference_edge G "$steps.if"
              (step_reference "step_if_true" "$steps.B"))
    as [_ HG']; [reflexivity | reflexivity | reflexivity |].
  destruct HG' as (G' & Hadd & Hedges & _ & Hflow).
  - apply Exists_cons_hd. reflexivity.
  - exists G'. split; [done|]. split; [|done].
    apply has_edge_true, Hedges. by left.
Defined.

Lemma elem_of_expected_input_kind sd e :
  e ∈ expected_input_kind sd ↔
  ∃ ref, ref ∈ allowed_references sd ∧ e ∈ reference_kind ref.
Proof.
  unfold expected_input_kind. rewrite list_elem_of_join.
  setoid_rewrite list_elem_of_fmap. naive_solver.
Qed.

Lemma wildcard_among_names (l : list Kind) :
  kind_name WILDCARD_KIND ∈ (list_to_set (kind_name <$> l) : gset string) ↔
  ∃ e, e ∈ l ∧ kind_name e = kind_name WILDCARD_KIND.
Proof. rewrite elem_of_list_to_set, list_elem_of_fmap. naive_solver. Qed.

Lemma validate_reference_types_compatible expected actual :
  kinds_compatible expected actual →
  validate_reference_types expected actual = Ok ().
Proof.
  intros Hc. unfold validate_reference_types.
  case_bool_decide as Hw; [done|]. case_bool_decide as He; [|done].
  rewrite !wildcard_among_names in Hw.
  destruct Hc as [?|[?|(e & a & He' & Ha & Hn)]]; [naive_solver..|].
  exfalso. apply (not_elem_of_empty (C:=gset string) (kind_name e)).
  rewrite <-He, elem_of_intersection, !elem_of_list_to_set, !list_elem_of_fmap.
  split; [by exists e | by exists a].
Qed.

Lemma validate_reference_types_incompatible expected actual :
  ¬ kinds_compatible expected actual →
  validate_reference_types expected actual = Raise ReferenceTypeError.
Proof.
  intros Hc. unfold validate_reference_types.
  case_bool_decide as Hw.
  { rewrite !wildcard_among_names in Hw. exfalso. apply Hc.
    unfold kinds_compatible. tauto. }
  case_bool_decide as He; [done|]. exfalso.
  apply set_choose_L in He as [n Hn].
  rewrite elem_of_intersection, !elem_of_list_to_set, !list_elem_of_fmap in Hn.
  destruct Hn as [(e & -> & He) (a & Hn & Ha)].
  apply Hc. right. right. by exists e, a.
Qed.

(** A data reference whose endpoints exist is type-checked and, when the
    check passes, becomes an edge from the referred node. *)
Lemma add_edge_for_step_data G s sd m actual :
  is_step_selector (selector sd) = false →
  has_node G s = true →
  has_node G (get_step_selector_from_its_output (selector sd)) = true →
  actual_input_kind G sd m = Ok actual →
  (kinds_compatible (expected_input_kind sd) actual →
   add_edge_for_step G s sd m
   = Ok (add_edge G (get_step_selector_from_its_output (selector sd)) s)) ∧
  (¬ kinds_compatible (expected_input_kind sd) actual →
   add_edge_for_step G s sd m = Raise ReferenceTypeError).
Proof.
  intros Hstep Hs Hr Hactual. unfold add_edge_for_step.
  rewrite (verify_edge_ok _ _ _ Hs Hr), Hstep, Hactual. simpl.
  split; intros Hc.
  - by rewrite validate_reference_types_compatible.
  - by rewrite validate_reference_types_incompatible.
Qed.

(** C2, as the source has it.  The expected kinds of a data reference are
    the kinds of all the allowed references of the property, whatever their
    [selected_element]; the edge is created exactly when the actual kinds
    are compatible with them. *)
Theorem expected_kinds_are_all_allowed_kinds (G : DiGraph) (s : string)
    (sd : SelectorDefinition) (m : gmap string WorkflowBlock)
    (actual : list Kind) :
  is_step_selector (selector sd) = false →
  has_node G s = true →
  has_node G (get_step_selector_from_its_output (selector sd)) = true →
  actual_input_kind G sd m = Ok actual →
  (∀ e, e ∈ expected_input_kind sd ↔
        ∃ ref, ref ∈ allowed_references sd ∧ e ∈ reference_kind ref) ∧
  (kinds_compatible (expected_input_kind sd) actual →
   add_edge_for_step G s sd m
   = Ok (add_edge G (get_step_selector_from_its_output (selector sd)) s)) ∧
  (¬ kinds_compatible (expected_input_kind sd) actual →
   add_edge_for_step G s sd m = Raise ReferenceTypeError).
Proof.
  intros Hstep Hs Hr Hactual. split; [apply elem_of_expected_input_kind|].
  by apply add_edge_for_step_data.
Qed.

Lemma expected_kinds_are_all_allowed_kinds_witness :
  let G := construct_nodes mixed_reference_workflow in
  add_edge_for_step G "$steps.det" mixed_reference
    example_manifest_class2block_class
  = Ok (add_edge G "$inputs.n" "$steps.det").
Proof.
  intros G.
  destruct (expected_kinds_are_all_allowed_kinds G "$steps.det" mixed_reference
              example_manifest_class2block_class [integer_kind])
    as (_ & Hok & _); [reflexivity..|].
  apply Hok. right. right. exists integer_kind, integer_kind.
  split; [|split; [|done]].
  - right. left.
  - left.
Defined.

(** C2 fails as stated: an integer input is accepted by a property whose
    [input] references only allow images, because the kinds allowed for
    step outputs are expected as well. *)
Lemma expected_kinds_not_filtered_by_selector_form :
  let G := construct_nodes mixed_reference_workflow in
  actual_input_kind G mixed_reference example_manifest_class2block_class
  = Ok [integer_kind] ∧
  expected_kinds_matching_selector_form mixed_reference = [image_kind] ∧
  validate_reference_types
    (expected_kinds_matching_selector_form mixed_reference) [integer_kind]
  = Raise ReferenceTypeError ∧
  expected_input_kind mixed_reference = [image_kind; integer_kind] ∧
  add_edge_for_step G "$steps.det" mixed_reference
    example_manifest_class2block_class
  = Ok (add_edge G "$inputs.n" "$steps.det") ∧
  returns (prepare_execution_graph mixed_reference_workflow example_blocks).
Proof.
  intros G. split; [vm_compute; reflexivity|].
  split; [vm_compute; reflexivity|].
  split; [vm_compute; reflexivity|].
  split; [vm_compute; reflexivity|].
  split; [vm_compute; reflexivity|].
  eexists. vm_compute. reflexivity.
Qed.

Lemma actual_kinds_of_missing_property G sd m step block :
  is_input_selector (selector sd) = false →
  node_attrs G (get_step_selector_from_its_output (selector sd))
    ≫= definition = Some (StepDefinition step) →
  m !! manifest_class step = Some block →
  (∀ o, o ∈ get_actual_outputs block step →
        output_definition_name o ≠ get_last_chunk_of_selector (selector sd)) →
  actual_input_kind G sd m = Ok [].
Proof.
  intros Hin Hdef Hblock Hnone. unfold actual_input_kind, manifest_of_node.
  rewrite Hin.
  destruct (node_attrs G _) as [a|]; [|done]. simpl in Hdef. rewrite Hdef.
  simpl. unfold get_kind_of_value_provided_in_step_output. rewrite Hblock.
  f_equal. induction (get_actual_outputs block step) as [|o l IH]; [done|].
  rewrite filter_cons, decide_False; [|apply Hnone; left].
  apply IH. intros o' Ho'. apply Hnone. by right.
Qed.

(** C4, as the source has it.  A selector whose input or step is not a node
    of the graph raises [InvalidReferenceTargetError], from a step property
    and from a workflow output alike.  A step-output selector whose step
    exists but declares no output of that name is not looked up beyond the
    step: its actual kinds are empty, and the reference is rejected by the
    type check unless the property accepts the wildcard kind. *)
Theorem missing_reference_target_is_rejected :
  (∀ G s sd m,
     has_node G s = true →
     has_node G (get_step_selector_from_its_output (selector sd)) = false →
     add_edge_for_step G s sd m
     = Raise (InvalidReferenceTargetError
                (get_step_selector_from_its_output (selector sd)))) ∧
  (∀ G o,
     let target :=
       if is_step_output_selector (output_selector o)
       then get_step_selector_from_its_output (output_selector o)
       else output_selector o in
     has_node G target = false →
     add_edge_for_output G o = Raise (InvalidReferenceTargetError target)) ∧
  (∀ G s sd m step block,
     let target := get_step_selector_from_its_output (selector sd) in
     has_node G s = true →
     is_step_selector (selector sd) = false →
     is_input_selector (selector sd) = false →
     node_attrs G target ≫= definition = Some (StepDefinition step) →
     m !! manifest_class step = Some block →
     (∀ o, o ∈ get_actual_outputs block step →
           output_definition_name o ≠ get_last_chunk_of_selector (selector sd)) →
     actual_input_kind G sd m = Ok [] ∧
     ((∃ e, e ∈ expected_input_kind sd ∧ kind_name e = kind_name WILDCARD_KIND) →
      add_edge_for_step G s sd m = Ok (add_edge G target s)) ∧
     ((∀ e, e ∈ expected_input_kind sd → kind_name e ≠ kind_name WILDCARD_KIND) →
      add_edge_for_step G s sd m = Raise ReferenceTypeError)).
Proof.
  split; [|split].
  - intros G s sd m Hs Hr. unfold add_edge_for_step,
      verify_edge_is_created_between_existing_nodes. by rewrite Hs, Hr.
  - intros G o target Ht. unfold add_edge_for_output,
      verify_edge_is_created_between_existing_nodes. fold target.
    by rewrite Ht.
  - intros G s sd m step block target Hs Hstep Hin Hdef Hblock Hnone.
    pose proof (actual_kinds_of_missing_property _ _ _ _ _ Hin Hdef Hblock Hnone)
      as Hactual.
    assert (has_node G target = true) as Hr.
    { apply has_node_true, node_attrs_is_Some.
      subst target. by destruct (node_attrs G _). }
    destruct (add_edge_for_step_data G s sd m [] Hstep Hs Hr Hactual)
      as (Hok & Hraise).
    split; [done|]. split.
    + intros Hw. apply Hok. by left.
    + intros Hw. apply Hraise. intros [(e & He & Hn)|[(a & Ha & _)|(e & a & _ & Ha & _)]].
      * by apply (Hw e).
      * by apply elem_of_nil in Ha.
      * by apply elem_of_nil in Ha.
Qed.

Lemma missing_reference_target_is_rejected_witness :
  add_edge_for_step (construct_nodes missing_input_workflow) "$steps.a"
    (data_reference "x" "$inputs.img" value_kind)
    example_manifest_class2block_class
  = Raise (InvalidReferenceTargetError "$inputs.img") ∧
  add_edge_for_output (construct_nodes missing_input_workflow)
    {| output_name := "result"; output_selector := "$steps.b.y" |}
  = Raise (InvalidReferenceTargetError "$steps.b") ∧
  add_edge_for_step (construct_nodes missing_property_workflow) "$steps.b"
    (data_reference "x" "$steps.a.nope" value_kind)
    example_manifest_class2block_class
  = Raise ReferenceTypeError.
Proof.
  destruct missing_reference_target_is_rejected as (Hstep & Hout & Hprop).
  split; [|split].
  - apply (Hstep (construct_nodes missing_input_workflow) "$steps.a"
             (data_reference "x" "$inputs.img" value_kind)); reflexivity.
  - apply (Hout (construct_nodes missing_input_workflow)
             {| output_name := "result"; output_selector := "$steps.b.y" |}).
    reflexivity.
  - apply (Hprop (construct_nodes missing_property_workflow) "$steps.b"
             (data_reference "x" "$steps.a.nope" value_kind)
             example_manifest_class2block_class (transform_step "a" [])
             transform_block); try reflexivity.
    + intros o Ho. apply list_elem_of_singleton in Ho as ->. done.
    + intros e He. apply elem_of_expected_input_kind in He as (ref & Href & He).
      apply elem_of_cons in Href as [->|Href];
        [|apply list_elem_of_singleton in Href as ->];
        apply list_elem_of_singleton in He as ->; done.
Defined.

(** C4 fails as stated: a reference to an output that the referred step does
    not declare raises the type error, not [InvalidReferenceTargetError];
    and it raises nothing from a property that accepts the wildcard kind or
    from a workflow output. *)
Lemma missing_property_is_no_invalid_reference :
  prepare_execution_graph missing_property_workflow example_blocks
  = Raise ReferenceTypeError ∧
  ¬ raises (prepare_execution_graph missing_property_workflow example_blocks)
      InvalidReferenceTargetErrorClass ∧
  returns (prepare_execution_graph missing_property_accepted example_blocks).
Proof.
  split; [vm_compute; reflexivity|]. split.
  - intros (e & He & Hclass). vm_compute in He. by injection He as <-.
  - eexists. vm_compute. reflexivity.
Qed.


(** ** Invariants of the constructed graph *)

Lemma wf_graph_empty : wf_graph empty_graph.
Proof.
  split; simpl.
  - apply NoDup_nil_2.
  - intros u v Huv. by apply elem_of_nil in Huv.
Qed.

Lemma wf_graph_add_node G n k d : wf_graph G → wf_graph (add_node G n k d).
Proof.
  intros [Hn He]. split.
  - by apply NoDup_nodes_add_node.
  - intros u v. rewrite adj_add_node, !nodes_add_node. naive_solver.
Qed.

Lemma wf_graph_add_edge G u v : wf_graph G → wf_graph (add_edge G u v).
Proof.
  intros [Hn He]. split.
  - by apply NoDup_nodes_add_edge.
  - intros a b. rewrite edge_add_edge, !nodes_add_edge. naive_solver.
Qed.

Lemma wf_graph_set_flow_control_node G n :
  wf_graph G → wf_graph (set_flow_control_node G n).
Proof.
  intros [Hn He]. split; rewrite ?nodes_set_flow_control_node; done.
Qed.

Lemma construct_nodes_wf wd : wf_graph (construct_nodes wd).
Proof.
  unfold construct_nodes, add_output_nodes_for_graph,
    add_steps_nodes_for_graph, add_input_nodes_for_graph.
  repeat (apply foldl_invariant; [intros; by apply wf_graph_add_node|]).
  apply wf_graph_empty.
Qed.

(** What a successful [add_edge_for_step] did. *)
Lemma add_edge_for_step_inv G s sd m G' :
  add_edge_for_step G s sd m = Ok G' →
  let target := get_step_selector_from_its_output (selector sd) in
  s ∈ nodes G ∧ target ∈ nodes G ∧
  if is_step_selector (selector sd)
  then G' = set_flow_control_node (add_edge G s target) s
  else G' = add_edge G target s.
Proof.
  unfold add_edge_for_step.
  destruct (verify_edge_is_created_between_existing_nodes _ _ _) as [[]|] eqn:Hv;
    [|done].
  apply verify_edge_inv in Hv as [Hs Hr]. simpl.
  destruct (is_step_selector (selector sd)).
  - unfold establish_flow_control_edge.
    destruct (step_definition_allows_flow_control_references sd); [|done].
    simpl. by intros [= <-].
  - destruct (actual_input_kind G sd m) as [actual|]; [|done]. simpl.
    destruct (validate_reference_types _ _) as [[]|]; [|done]. simpl.
    by intros [= <-].
Qed.

Lemma add_edge_for_output_inv G o G' :
  add_edge_for_output G o = Ok G' →
  ∃ target, target ∈ nodes G ∧
            construct_output_name (output_name o) ∈ nodes G ∧
            G' = add_edge G target (construct_output_name (output_name o)).
Proof.
  unfold add_edge_for_output.
  destruct (verify_edge_is_created_between_existing_nodes _ _ _) as [[]|] eqn:Hv;
    [|done].
  apply verify_edge_inv in Hv as [Hs Hr]. simpl. intros [= <-]. eauto.
Qed.

(** A property of graphs that [add_edge] and the flow-control mark keep is
    kept by the edge passes. *)
Section edge_passes_keep.
Context (P : DiGraph → Prop).
Context (P_add_edge : ∀ G u v, P G → P (add_edge G u v)).
Context (P_set_flow : ∀ G n, P G → P (set_flow_control_node G n)).

Lemma add_edge_for_step_keeps G s sd m G' :
  P G → add_edge_for_step G s sd m = Ok G' → P G'.
Proof.
  intros HP (_ & _ & HG')%add_edge_for_step_inv.
  destruct (is_step_selector (selector sd)); subst G'; auto.
Qed.

Lemma add_edges_for_step_keeps G name sels m G' :
  P G → add_edges_for_step G name sels m = Ok G' → P G'.
Proof.
  intros HP. apply for_each_invariant; [|done].
  intros G1 sd G2 _. apply add_edge_for_step_keeps.
Qed.

Lemma add_steps_edges_keeps wd G m G' :
  P G → add_steps_edges wd G m = Ok G' → P G'.
Proof.
  intros HP. apply for_each_invariant; [|done].
  intros G1 sd G2 _. apply add_edges_for_step_keeps.
Qed.

Lemma add_edge_for_output_keeps G o G' :
  P G → add_edge_for_output G o = Ok G' → P G'.
Proof. intros HP (t & _ & _ & ->)%add_edge_for_output_inv. auto. Qed.

Lemma add_edges_for_outputs_keeps wd G G' :
  P G → add_edges_for_outputs wd G = Ok G' → P G'.
Proof.
  intros HP. apply for_each_invariant; [|done].
  intros G1 sd G2 _. apply add_edge_for_output_keeps.
Qed.

Lemma construct_graph_keeps wd m G :
  P (construct_nodes wd) → construct_graph wd m = Ok G → P G.
Proof.
  intros HP. unfold construct_graph. fold (construct_nodes wd).
  destruct (add_steps_edges wd (construct_nodes wd) m) as [G1|] eqn:HG1;
    [|done].
  simpl. apply add_edges_for_outputs_keeps.
  by eapply add_steps_edges_keeps.
Qed.
End edge_passes_keep.

Lemma construct_graph_wf wd m G : construct_graph wd m = Ok G → wf_graph G.
Proof.
  apply construct_graph_keeps.
  - intros. by apply wf_graph_add_edge.
  - intros. by apply wf_graph_set_flow_control_node.
  - apply construct_nodes_wf.
Qed.

Lemma all_edges_plain_add_edge G u v :
  all_edges_plain G → all_edges_plain (add_edge G u v).
Proof.
  unfold all_edges_plain. rewrite adj_add_edge.
  destruct (has_edge G u v); [done|]. intros HG.
  apply Forall_app. split; [done|]. by apply Forall_singleton.
Qed.

Lemma construct_graph_plain wd m G :
  construct_graph wd m = Ok G → all_edges_plain G.
Proof.
  apply construct_graph_keeps.
  - apply all_edges_plain_add_edge.
  - done.
  - unfold all_edges_plain. rewrite construct_nodes_adj. apply Forall_nil_2.
Qed.

Lemma edge_attrs_plain G u v :
  all_edges_plain G → has_edge G u v = true → edge_attrs G u v = Some ∅.
Proof.
  unfold all_edges_plain, edge_attrs. rewrite has_edge_true.
  induction (_adj G) as [|[[a b] d] l IH]; simpl.
  - intros _ Huv. by apply elem_of_nil in Huv.
  - rewrite Forall_cons. simpl. intros [-> Hl] Huv.
    case_bool_decide as Hab; [done|]. apply IH; [done|].
    apply elem_of_cons in Huv as [?|?]; [congruence|done].
Qed.

(** The edge of a flow-control reference and the mark on its source, once
    made, stay. *)
Lemma flow_control_reference_marked wd m G u v :
  construct_graph wd m = Ok G → flow_control_reference wd u v →
  has_edge G u v = true ∧ is_flow_control_step G u = true.
Proof.
  intros HG (step & sd & Hstep & Hsd & Hpure & -> & ->).
  set (Q := λ G : DiGraph,
         has_edge G (construct_step_selector (step_name step))
           (get_step_selector_from_its_output (selector sd)) = true ∧
         is_flow_control_step G (construct_step_selector (step_name step)) = true).
  assert (∀ G u v, Q G → Q (add_edge G u v)) as Qadd.
  { intros G1 a b [? ?]. split;
      [by apply has_edge_add_edge_mono | by apply is_flow_control_step_add_edge_mono]. }
  assert (∀ G n, Q G → Q (set_flow_control_node G n)) as Qset.
  { intros G1 n [? ?]. split; [done | by apply is_flow_control_step_set_mono]. }
  change (Q G). unfold construct_graph in HG. fold (construct_nodes wd) in HG.
  destruct (add_steps_edges wd (construct_nodes wd) m) as [G1|] eqn:HG1; [|done].
  simpl in HG. eapply (add_edges_for_outputs_keeps Q); [done| |done].
  revert HG1. apply (for_each_established _ Q _ _ _ step); [done| |].
  - intros G2 G3. apply (for_each_established _ Q _ _ _ sd); [done| |].
    + intros G4 G5 (Hs & _ & HG5)%add_edge_for_step_inv. rewrite Hpure in HG5.
      subst G5. split.
      * apply has_edge_add_edge.
      * apply is_flow_control_step_set, nodes_add_edge. by left.
    + intros G4 sd' G5. by apply add_edge_for_step_keeps.
  - intros G2 step' G3. by apply add_edges_for_step_keeps.
Qed.

(** C8, as the source has it.  No edge of a constructed graph carries an
    attribute: the attribute dictionary of every edge is empty.  A
    flow-control reference is recorded on the referring step, whose node
    carries [FLOW_CONTROL_NODE_KEY]; its edge is there like any other. *)
Theorem edges_are_plain_and_the_step_is_marked
    (wd : ParsedWorkflowDefinition) (m : gmap string WorkflowBlock)
    (G : DiGraph) :
  construct_graph wd m = Ok G →
  (∀ u v, has_edge G u v = true → edge_attrs G u v = Some ∅) ∧
  (∀ u v, flow_control_reference wd u v →
          has_edge G u v = true ∧ is_flow_control_step G u = true).
Proof.
  intros HG. split.
  - intros u v. apply edge_attrs_plain. by eapply construct_graph_plain.
  - intros u v. by eapply flow_control_reference_marked.
Qed.

Lemma branching_workflow_flow_control_reference :
  flow_control_reference branching_workflow "$steps.if" "$steps.B".
Proof.
  eexists _, (step_reference "step_if_true" "$steps.B").
  split; [left|]. split; [right; left|]. done.
Qed.

Lemma edges_are_plain_and_the_step_is_marked_witness :
  construct_graph branching_workflow example_manifest_class2block_class
  = Ok branching_graph ∧
  edge_attrs branching_graph "$steps.if" "$steps.B" = Some ∅ ∧
  is_flow_control_step branching_graph "$steps.if" = true.
Proof.
  assert (construct_graph branching_workflow example_manifest_class2block_class
          = Ok branching_graph) as HG by (vm_compute; reflexivity).
  destruct (edges_are_plain_and_the_step_is_marked _ _ _ HG) as [Hplain Hmark].
  destruct (Hmark _ _ branching_workflow_flow_control_reference) as [Hedge Hflow].
  split; [done|]. split; [by apply Hplain | done].
Defined.

(** C8 fails as stated: in a compiled graph the edge from a flow-control
    step to the step it selects carries no [flow_control] marker. *)
Lemma flow_control_edge_carries_no_marker :
  ∃ G, prepare_execution_graph branching_workflow example_blocks = Ok G ∧
       flow_control_reference branching_workflow "$steps.if" "$steps.B" ∧
       has_edge G "$steps.if" "$steps.B" = true ∧
       edge_attrs G "$steps.if" "$steps.B" ≫= (.!! FLOW_CONTROL_EDGE_KEY) = None.
Proof.
  eexists. split; [vm_compute; reflexivity|].
  split; [apply branching_workflow_flow_control_reference|].
  split; vm_compute; reflexivity.
Qed.

(** ** Connection discovery *)

Lemma wildcard_consumers_add (m : gmap string (gset BlockPropertyDefinition))
    (k : string) (pd d : BlockPropertyDefinition) :
  d ∈ wildcard_consumers (<[k := {[pd]} ∪ default ∅ (m !! k)]> m) ↔
  d ∈ wildcard_consumers m ∨ (k = kind_name WILDCARD_KIND ∧ d = pd).
Proof.
  unfold wildcard_consumers. destruct (decide (k = kind_name WILDCARD_KIND)) as [->|Hk].
  - rewrite lookup_insert_eq. simpl. set_solver.
  - rewrite lookup_insert_ne by done. naive_solver.
Qed.

Lemma wildcard_consumers_add_allowed_reference b sel m ref d :
  d ∈ wildcard_consumers (add_allowed_reference b sel m ref) ↔
  d ∈ wildcard_consumers m ∨
  (selected_element ref ≠ STEP_AS_SELECTED_ELEMENT ∧
   d = property_definition_of b sel ref).
Proof.
  unfold add_allowed_reference. case_decide as Hstep; [naive_solver|].
  fold (property_definition_of b sel ref).
  rewrite wildcard_consumers_add.
  rewrite (foldl_accumulates _ (λ m d, d ∈ wildcard_consumers m)
             (λ k d, kind_name k = kind_name WILDCARD_KIND
                     ∧ d = property_definition_of b sel ref)).
  - naive_solver.
  - intros m1 k d1 _. apply wildcard_consumers_add.
Qed.

Lemma get_all_inputs_kind_major_returns blocks all_schemas :
  (∀ b, b ∈ blocks → is_Some (all_schemas !! description_block_class b)) →
  returns (get_all_inputs_kind_major blocks all_schemas).
Proof.
  intros Hschemas. unfold get_all_inputs_kind_major.
  match goal with |- returns (for_each ?body _ _) =>
    destruct (for_each_returns body (λ _, True) blocks ∅) as (m & Hm & _);
      [|done|by exists m]
  end.
  intros m1 b Hb _. destruct (Hschemas b Hb) as [metadata ->]. eauto.
Qed.

Lemma get_all_inputs_kind_major_wildcard blocks all_schemas m d :
  get_all_inputs_kind_major blocks all_schemas = Ok m →
  d ∈ wildcard_consumers m ↔
  ∃ b metadata name sel ref,
    b ∈ blocks ∧
    all_schemas !! description_block_class b = Some metadata ∧
    selectors metadata !! name = Some sel ∧
    ref ∈ allowed_references sel ∧
    selected_element ref ≠ STEP_AS_SELECTED_ELEMENT ∧
    d = property_definition_of b sel ref.
Proof.
  unfold get_all_inputs_kind_major. intros Hm.
  eapply (for_each_accumulates _ (λ m d, d ∈ wildcard_consumers m)
            (λ b d, ∃ metadata name sel ref,
               all_schemas !! description_block_class b = Some metadata ∧
               selectors metadata !! name = Some sel ∧
               ref ∈ allowed_references sel ∧
               selected_element ref ≠ STEP_AS_SELECTED_ELEMENT ∧
               d = property_definition_of b sel ref)) in Hm as ->.
  - unfold wildcard_consumers at 1. rewrite lookup_empty. simpl.
    rewrite elem_of_empty. naive_solver.
  - clear d. intros m1 b m2 d Hb.
    destruct (all_schemas !! description_block_class b) as [metadata|] eqn:Hmd;
      [|done].
    intros [= <-].
    rewrite (foldl_accumulates _ (λ m d, d ∈ wildcard_consumers m)
               (λ sel d, ∃ ref, ref ∈ allowed_references sel ∧
                  selected_element ref ≠ STEP_AS_SELECTED_ELEMENT ∧
                  d = property_definition_of b sel ref)).
    + apply or_iff_compat_l. split.
      * intros (sel & Hsel & ref & Href & Hne & ->).
        apply list_elem_of_fmap in Hsel as ([name sel'] & -> & Hsel).
        apply elem_of_map_to_list in Hsel. by exists metadata, name, sel', ref.
      * intros (metadata' & name & sel & ref & [= <-] & Hsel & Href & Hne & ->).
        exists sel. split; [|by exists ref].
        apply list_elem_of_fmap. exists (name, sel). split; [done|].
        by apply elem_of_map_to_list.
    + intros m3 sel d1 _.
      rewrite (foldl_accumulates _ (λ m d, d ∈ wildcard_consumers m)
                 (λ ref d, selected_element ref ≠ STEP_AS_SELECTED_ELEMENT ∧
                           d = property_definition_of b sel ref)).
      * naive_solver.
      * intros m4 ref d2 _. apply wildcard_consumers_add_allowed_reference.
Qed.

Lemma example_schemas_registered b :
  b ∈ [condition_block_description] →
  is_Some (example_schemas !! description_block_class b).
Proof. intros ->%list_elem_of_singleton. eexists. vm_compute. reflexivity. Qed.

(** C7, as the source has it.  The wildcard entry of the consumers-by-kind
    index holds one definition for every allowed reference of every selector
    property of every registered block whose [selected_element] is not
    [step]; references to steps are skipped, so a property that only accepts
    step references has no entry. *)
Theorem wildcard_consumers_skip_step_references
    (blocks : list BlockDescription)
    (all_schemas : gmap string BlockManifestMetadata) :
  (∀ b, b ∈ blocks → is_Some (all_schemas !! description_block_class b)) →
  ∃ m, get_all_inputs_kind_major blocks all_schemas = Ok m ∧
       ∀ d, d ∈ wildcard_consumers m ↔
            ∃ b metadata name sel ref,
              b ∈ blocks ∧
              all_schemas !! description_block_class b = Some metadata ∧
              selectors metadata !! name = Some sel ∧
              ref ∈ allowed_references sel ∧
              selected_element ref ≠ STEP_AS_SELECTED_ELEMENT ∧
              d = property_definition_of b sel ref.
Proof.
  intros Hschemas.
  destruct (get_all_inputs_kind_major_returns _ _ Hschemas) as [m Hm].
  exists m. split; [done|]. intros d.
  by apply get_all_inputs_kind_major_wildcard.
Qed.

Lemma wildcard_consumers_skip_step_references_witness :
  ∃ m, get_all_inputs_kind_major [condition_block_description] example_schemas
       = Ok m ∧
       {| block_type := "ConditionBlock"; manifest_type_identifier := "Condition";
          block_property_name := "cond"; compatible_element := "input" |}
       ∈ wildcard_consumers m.
Proof.
  destruct (wildcard_consumers_skip_step_references
              [condition_block_description] example_schemas) as (m & Hm & Hin).
  - intros b ->%list_elem_of_singleton. eexists. vm_compute. reflexivity.
  - exists m. split; [done|]. apply Hin.
    exists condition_block_description, condition_block_schema, "cond",
      (data_reference "cond" "" boolean_kind),
      {| selected_element := INPUT_AS_SELECTED_ELEMENT;
         reference_kind := [boolean_kind] |}.
    split; [left|]. split; [vm_compute; reflexivity|].
    split; [vm_compute; reflexivity|]. split; [left|].
    split; [done | reflexivity].
Defined.

(** C7 fails as stated: the property [step_if_true] of the condition block
    is a selector property of a registered block, and the wildcard entry
    holds no definition for it. *)
Lemma step_only_property_is_no_wildcard_consumer :
  ∃ m, get_all_inputs_kind_major [condition_block_description] example_schemas
       = Ok m ∧
       selectors condition_block_schema !! "step_if_true"
       = Some (step_reference "step_if_true" "") ∧
       ∀ d, d ∈ wildcard_consumers m → block_property_name d ≠ "step_if_true".
Proof.
  destruct (get_all_inputs_kind_major_returns _ _ example_schemas_registered)
    as [m Hm].
  exists m. split; [done|]. split; [vm_compute; reflexivity|].
  intros d Hd.
  apply (get_all_inputs_kind_major_wildcard _ _ _ _ Hm) in Hd
    as (b & metadata & name & sel & ref & Hb & Hmd & Hsel & Href & Hne & ->).
  apply list_elem_of_singleton in Hb as ->.
  assert (metadata = condition_block_schema) as ->.
  { vm_compute in Hmd. by injection Hmd as <-. }
  unfold condition_block_schema in Hsel. simpl in Hsel.
  repeat (apply lookup_insert_Some in Hsel as [[<- <-]|[_ Hsel]]).
  - simpl. discriminate.
  - apply list_elem_of_singleton in Href as ->. by destruct Hne.
  - simpl. discriminate.
  - by rewrite lookup_empty in Hsel.
Qed.

(** ** Graph queries *)

Lemma elem_of_successors G u v :
  v ∈ successors G u ↔ (u, v) ∈ (_adj G).*1.
Proof.
  unfold successors, out_edges. rewrite !list_elem_of_fmap. split.
  - intros ([[a b] d] & -> & [Ha He]%list_elem_of_filter). simpl in *. subst a.
    by exists (u, b, d).
  - intros ([[a b] d] & [= <- <-] & He). exists (u, v, d). split; [done|].
    by apply list_elem_of_filter.
Qed.

Lemma elem_of_edges G u v :
  (u, v) ∈ edges G ↔ u ∈ nodes G ∧ (u, v) ∈ (_adj G).*1.
Proof.
  unfold edges. rewrite list_elem_of_join. split.
  - intros (l & Huv & (n & -> & Hn)%list_elem_of_fmap).
    apply list_elem_of_fmap in Huv as (w & [= <- <-] & Hw).
    by apply elem_of_successors in Hw.
  - intros [Hu Huv]. eexists. split; [|apply list_elem_of_fmap; by exists u].
    apply list_elem_of_fmap. exists v. by rewrite elem_of_successors.
Qed.

Lemma elem_of_get_nodes_of_specific_kind G k n :
  NoDup (nodes G) →
  n ∈ get_nodes_of_specific_kind G k ↔
  ∃ a, node_attrs G n = Some a ∧ kind a = Some k.
Proof.
  intros Hnd. unfold get_nodes_of_specific_kind, node_attrs, nodes in *.
  rewrite elem_of_list_to_set, list_elem_of_omap.
  induction (_node G) as [|[n' a'] l IH]; csimpl in *.
  - split; [intros (? & []%elem_of_nil & _) | by intros (? & ? & _)].
  - apply NoDup_cons in Hnd as [Hn' Hnd]. specialize (IH Hnd).
    case_decide as Hnn'; subst.
    + split.
      * intros ([n1 a1] & [[= -> ->]|Hin]%elem_of_cons & Hk); simpl in Hk.
        -- case_decide; [|done]. eauto.
        -- case_decide; [|done]. injection Hk as ->. exfalso. apply Hn'.
           apply list_elem_of_fmap. by exists (n, a1).
      * intros (a & [= <-] & Hk). exists (n, a'). split; [left|].
        simpl. by rewrite decide_True.
    + rewrite <-IH. split.
      * intros ([n1 a1] & [[= -> ->]|Hin]%elem_of_cons & Hk); simpl in Hk.
        -- case_decide; [|done]. congruence.
        -- by exists (n1, a1).
      * intros (x & Hx & Hk). exists x. split; [by right|done].
Qed.

Lemma is_step_node_add_edge G u v n :
  NoDup (nodes G) → is_step_node G n → is_step_node (add_edge G u v) n.
Proof.
  intros Hnd. unfold is_step_node.
  rewrite !elem_of_get_nodes_of_specific_kind
    by auto using NoDup_nodes_add_edge.
  intros (a & Ha & Hk). exists a. split; [|done]. by apply node_attrs_add_edge.
Qed.

Lemma is_step_node_set_flow_control_node G n' n :
  NoDup (nodes G) → is_step_node G n →
  is_step_node (set_flow_control_node G n') n.
Proof.
  intros Hnd. unfold is_step_node.
  rewrite !elem_of_get_nodes_of_specific_kind
    by (by rewrite ?nodes_set_flow_control_node).
  intros (a & Ha & Hk). unfold node_attrs in *. simpl.
  destruct (decide (n' = n)) as [->|Hne].
  - rewrite assoc_update_eq, Ha. simpl. eauto.
  - rewrite assoc_update_ne by done. eauto.
Qed.

Lemma add_nodes_kind {A : Type} (key : A → string) (k : string)
    (d : A → NodeDefinition) (l : list A) (G : DiGraph) (x : A) :
  x ∈ l →
  ∃ a, node_attrs (foldl (λ G x, add_node G (key x) k (d x)) G l) (key x)
       = Some a ∧ kind a = Some k.
Proof.
  induction l as [|y l IH] using rev_ind; [by intros ?%elem_of_nil|].
  rewrite foldl_app. simpl. intros Hx.
  destruct (decide (key y = key x)) as [<-|Hne].
  - rewrite node_attrs_add_node_eq. eauto.
  - rewrite node_attrs_add_node_ne by done. apply IH.
    apply elem_of_app in Hx as [?|?%list_elem_of_singleton]; [done|].
    subst. done.
Qed.

(** The steps of a definition are step nodes of its graph. *)
Lemma construct_nodes_step_node wd step :
  step ∈ steps wd →
  is_step_node (construct_nodes wd) (construct_step_selector (step_name step)).
Proof.
  intros Hstep. unfold is_step_node.
  apply elem_of_get_nodes_of_specific_kind; [apply construct_nodes_NoDup|].
  unfold construct_nodes, add_output_nodes_for_graph, add_steps_nodes_for_graph.
  rewrite add_nodes_loop_other
    by (intros; apply not_eq_sym, step_selector_not_output).
  by apply (add_nodes_kind (λ s, construct_step_selector (step_name s))).
Qed.

Lemma construct_graph_step_node wd m G step :
  construct_graph wd m = Ok G → step ∈ steps wd →
  is_step_node G (construct_step_selector (step_name step)).
Proof.
  intros HG Hstep.
  cut (wf_graph G ∧ is_step_node G (construct_step_selector (step_name step)));
    [by intros [_ ?]|].
  revert HG.
  apply (construct_graph_keeps
           (λ G, wf_graph G ∧
                 is_step_node G (construct_step_selector (step_name step)))).
  - intros G1 u v [Hwf Hs]. split; [by apply wf_graph_add_edge|].
    apply is_step_node_add_edge; [apply Hwf|done].
  - intros G1 n [Hwf Hs]. split; [by apply wf_graph_set_flow_control_node|].
    apply is_step_node_set_flow_control_node; [apply Hwf|done].
  - split; [apply construct_nodes_wf | by apply construct_nodes_step_node].
Qed.

(** The edge of a data reference, once made, stays. *)
Lemma data_reference_edge wd m G p c :
  construct_graph wd m = Ok G → data_reference_to wd p c →
  has_edge G p c = true.
Proof.
  intros HG (step & sd & Hstep & Hsd & Hdata & -> & ->).
  set (Q := λ G : DiGraph,
         has_edge G (get_step_selector_from_its_output (selector sd))
           (construct_step_selector (step_name step)) = true).
  assert (∀ G u v, Q G → Q (add_edge G u v)) as Qadd.
  { intros G1 a b ?. by apply has_edge_add_edge_mono. }
  assert (∀ G n, Q G → Q (set_flow_control_node G n)) as Qset by done.
  change (Q G). unfold construct_graph in HG. fold (construct_nodes wd) in HG.
  destruct (add_steps_edges wd (construct_nodes wd) m) as [G1|] eqn:HG1; [|done].
  simpl in HG. eapply (add_edges_for_outputs_keeps Q); [done| |done].
  revert HG1. apply (for_each_established _ Q _ _ _ step); [done| |].
  - intros G2 G3. apply (for_each_established _ Q _ _ _ sd); [done| |].
    + intros G4 G5 (Hs & _ & HG5)%add_edge_for_step_inv. rewrite Hdata in HG5.
      subst G5. apply has_edge_add_edge.
    + intros G4 sd' G5. by apply add_edge_for_step_keeps.
  - intros G2 step' G3. by apply add_edges_for_step_keeps.
Qed.

(** ** Steps with more than one parent step *)

Lemma size_gt_1_distinct (X : gset string) :
  1 < size X ↔ ∃ a b, a ∈ X ∧ b ∈ X ∧ a ≠ b.
Proof.
  split.
  - intros Hsize.
    destruct (size_pos_elem_of X) as [a Ha]; [lia|].
    destruct (size_pos_elem_of (X ∖ {[a]})) as [b Hb].
    { rewrite size_difference by set_solver. rewrite size_singleton. lia. }
    exists a, b. set_solver.
  - intros (a & b & Ha & Hb & Hne).
    destruct (decide (size X = 0)) as [H0|H0].
    { apply size_empty_inv in H0. set_solver. }
    destruct (decide (size X = 1)) as [H1|H1]; [|lia].
    destruct Hne. by apply (size_singleton_inv X).
Qed.

(** The steps analysed by the branch-isolation pass are the step nodes with
    two different step nodes among the sources of their incoming edges. *)
Lemma elem_of_detect_steps_with_more_than_one_parent_step G m :
  m ∈ detect_steps_with_more_than_one_parent_step G ↔
  ∃ a b, a ≠ b ∧ (a, m) ∈ edges G ∧ (b, m) ∈ edges G ∧
         is_step_node G a ∧ is_step_node G b ∧ is_step_node G m.
Proof.
  unfold detect_steps_with_more_than_one_parent_step, is_step_node.
  set (steps_nodes := get_nodes_of_specific_kind G STEP_NODE_KIND).
  match goal with |- _ ∈ dom (filter _ (foldl ?f ∅ _)) ↔ _ =>
    pose proof (foldl_accumulates f
      (λ (sp : gmap string (gset string)) (cp : string * string),
         cp.2 ∈ default ∅ (sp !! cp.1))
      (λ (e : string * string) (cp : string * string),
         e = (cp.2, cp.1) ∧ cp.2 ∈ steps_nodes ∧ cp.1 ∈ steps_nodes)
      (edges G) ∅) as Hparents;
    set (steps_parents := foldl f ∅ (edges G)) in *
  end.
  assert (∀ c p, p ∈ default ∅ (steps_parents !! c) ↔
                 (p, c) ∈ edges G ∧ p ∈ steps_nodes ∧ c ∈ steps_nodes)
    as Hchar.
  { intros c p. unshelve epose proof (Hparents _ (c, p)) as ->.
    - clear. intros sp [p c] [c' p'] _. simpl in *. case_decide as Hskip.
      + split; [auto|]. intros [?|([= -> ->] & ? & ?)]; [done|]. tauto.
      + assert (p ∈ steps_nodes ∧ c ∈ steps_nodes) as [Hp Hc].
        { split; apply dec_stable; tauto. }
        destruct (decide (c = c')) as [->|Hne].
        * rewrite lookup_insert_eq. simpl. rewrite elem_of_union,
            elem_of_singleton. naive_solver.
        * rewrite lookup_insert_ne by done. naive_solver.
    - simpl. rewrite lookup_empty. simpl. rewrite elem_of_empty.
      split; [|naive_solver]. intros [[]|([a b] & Hab & [= -> ->] & ? & ?)].
      done. }
  clear Hparents. rewrite elem_of_dom. unfold is_Some.
  setoid_rewrite map_lookup_filter_Some. simpl. split.
  - intros (X & HX & (a & b & Ha & Hb & Hne)%size_gt_1_distinct).
    exists a, b. specialize (Hchar m). rewrite HX in Hchar. simpl in Hchar.
    apply Hchar in Ha, Hb. tauto.
  - intros (a & b & Hne & Ha & Hb & Hsa & Hsb & Hsm).
    assert (a ∈ default ∅ (steps_parents !! m)) as Ha' by by apply Hchar.
    assert (b ∈ default ∅ (steps_parents !! m)) as Hb' by by apply Hchar.
    destruct (steps_parents !! m) as [X|]; simpl in *; [|set_solver].
    exists X. split; [done|]. apply size_gt_1_distinct. eauto.
Qed.

(** C9. A step selected by a flow-control step and reading the output of a
    different step has two step parents: the edge of the flow-control
    reference counts like the data edge, and the step is analysed by the
    branch-isolation pass. *)
Theorem flow_control_parent_counts_as_step_parent
    (wd : ParsedWorkflowDefinition) (mm : gmap string WorkflowBlock)
    (G : DiGraph) (fc p m : string) :
  construct_graph wd mm = Ok G →
  flow_control_reference wd fc m →
  data_reference_to wd p m →
  is_step_node G p →
  fc ≠ p →
  is_flow_control_step G fc = true ∧
  has_edge G fc m = true ∧ has_edge G p m = true ∧
  m ∈ detect_steps_with_more_than_one_parent_step G.
Proof.
  intros HG Hfc Hdata Hp Hne.
  destruct (flow_control_reference_marked _ _ _ _ _ HG Hfc) as [Hedge Hmark].
  pose proof (data_reference_edge _ _ _ _ _ HG Hdata) as Hedge'.
  pose proof (construct_graph_wf _ _ _ HG) as Hwf.
  split; [done|]. split; [done|]. split; [done|].
  apply elem_of_detect_steps_with_more_than_one_parent_step.
  exists fc, p. apply has_edge_true in Hedge, Hedge'.
  destruct (wf_endpoints _ Hwf _ _ Hedge) as [Hfcn _].
  destruct (wf_endpoints _ Hwf _ _ Hedge') as [Hpn _].
  rewrite !elem_of_edges. repeat split; try done.
  - destruct Hfc as (step & _ & Hstep & _ & _ & -> & _).
    by eapply construct_graph_step_node.
  - destruct Hdata as (step & _ & Hstep & _ & _ & -> & _).
    by eapply construct_graph_step_node.
Qed.

Lemma mixed_parents_references :
  flow_control_reference mixed_parents_workflow "$steps.if" "$steps.M" ∧
  data_reference_to mixed_parents_workflow "$steps.P" "$steps.M".
Proof.
  split.
  - eexists _, (step_reference "step_if_true" "$steps.M").
    split; [right; left|]. split; [right; left|]. done.
  - eexists _, (data_reference "x" "$steps.P.y" value_kind).
    split; [right; right; left|]. split; [left|]. done.
Qed.

Lemma flow_control_parent_counts_as_step_parent_witness :
  "$steps.M" ∈ detect_steps_with_more_than_one_parent_step mixed_parents_graph.
Proof.
  destruct mixed_parents_references as [Hfc Hdata].
  apply (flow_control_parent_counts_as_step_parent mixed_parents_workflow
           example_manifest_class2block_class mixed_parents_graph
           "$steps.if" "$steps.P" "$steps.M"); done.
Defined.

(** ** Depth-first search *)

Lemma dfs_invariant_initial G source :
  dfs_invariant G source
    {| dfs_visited := {[source]};
       dfs_stack := [(source, successors G source)];
       dfs_emitted := [] |}.
Proof.
  split; simpl.
  - intros v. rewrite elem_of_singleton, list_elem_of_singleton.
    split; [auto|]. by intros [[]%elem_of_nil|].
  - intros v ->%elem_of_singleton. apply rtc_refl.
  - intros v c ->%elem_of_singleton Hc. right. exists (successors G source).
    split; [left|]. by apply elem_of_successors.
  - by apply elem_of_singleton.
  - intros p cs c [= -> ->]%list_elem_of_singleton Hc.
    by apply elem_of_successors.
Qed.

Lemma dfs_step_invariant G source st st' :
  dfs_invariant G source st → dfs_step G st = Some st' →
  dfs_invariant G source st'.
Proof.
  intros [Hsplit Hreach Hclosed Hsrc Hedges]. unfold dfs_step.
  destruct (dfs_stack st) as [|[parent [|child children]] stack] eqn:Hstack;
    [done| |].
  - intros [= <-]. split; simpl; try done.
    + intros v. rewrite Hsplit, elem_of_app, list_elem_of_singleton.
      csimpl. rewrite elem_of_cons. tauto.
    + intros v c Hv Hc. destruct (Hclosed v c Hv Hc) as [?|(cs & Hcs & Hin)];
        [by left|]. right. exists cs. split; [|done].
      apply elem_of_cons in Hcs as [[= -> ->]|?]; [|done].
      by apply elem_of_nil in Hin.
    + intros p cs c Hp. apply Hedges. by right.
  - assert (parent ∈ dfs_visited st) as Hparent.
    { apply Hsplit. right. csimpl. left. }
    case_decide as Hchild; intros [= <-]; split; simpl; try done.
    + intros v c Hv Hc. destruct (Hclosed v c Hv Hc) as [?|(cs & Hcs & Hin)];
        [by left|].
      apply elem_of_cons in Hcs as [[= -> ->]|?].
      * apply elem_of_cons in Hin as [->|Hin]; [by left|].
        right. exists children. split; [left|done].
      * right. exists cs. split; [by right|done].
    + intros p cs c [[= -> ->]|Hp]%elem_of_cons Hc.
      * apply (Hedges _ (child :: children)); [left|by right].
      * apply (Hedges _ cs); [by right|done].
    + intros v. rewrite elem_of_union, elem_of_singleton, Hsplit. csimpl.
      rewrite !elem_of_cons. tauto.
    + intros v [->%elem_of_singleton|Hv]%elem_of_union; [|auto].
      eapply rtc_r; [by apply Hreach|].
      apply (Hedges _ (child :: children)); left.
    + intros v c [->%elem_of_singleton|Hv]%elem_of_union Hc.
      * right. exists (successors G child). split; [left|].
        by apply elem_of_successors.
      * destruct (Hclosed v c Hv Hc) as [?|(cs & Hcs & Hin)];
          [left; set_solver|].
        apply elem_of_cons in Hcs as [[= -> ->]|?].
        -- apply elem_of_cons in Hin as [->|Hin]; [left; set_solver|].
           right. exists children. split; [right; left|done].
        -- right. exists cs. split; [by do 2 right|done].
    + set_solver.
    + intros p cs c [[= -> ->]|[[= -> ->]|Hp]%elem_of_cons]%elem_of_cons Hc.
      * by apply elem_of_successors.
      * apply (Hedges _ (child :: children)); [left|by right].
      * apply (Hedges _ cs); [by right|done].
Qed.

Lemma dfs_loop_invariant fuel G source st :
  dfs_invariant G source st → dfs_invariant G source (dfs_loop fuel G st).
Proof.
  revert st. induction fuel as [|fuel IH]; intros st Hst; simpl; [done|].
  destruct (dfs_step G st) as [st'|] eqn:Hstep; [|done].
  by eapply IH, dfs_step_invariant.
Qed.

Lemma dfs_unvisited_cost_mono G visited c l :
  (dfs_unvisited_cost G ({[c]} ∪ visited) l
   ≤ dfs_unvisited_cost G visited l)%nat.
Proof.
  unfold dfs_unvisited_cost. induction l as [|v l IH]; simpl; [done|].
  repeat case_decide; try lia. set_solver.
Qed.

Lemma dfs_unvisited_cost_visit G visited c l :
  c ∈ l → c ∉ visited →
  (dfs_unvisited_cost G ({[c]} ∪ visited) l + 1 + length (successors G c)
   ≤ dfs_unvisited_cost G visited l)%nat.
Proof.
  intros Hc Hvisited. induction l as [|v l IH]; [by apply elem_of_nil in Hc|].
  pose proof (dfs_unvisited_cost_mono G visited c l) as Hmono.
  unfold dfs_unvisited_cost in *. simpl.
  apply elem_of_cons in Hc as [<-|Hc].
  - rewrite decide_True by set_solver. rewrite decide_False by done. lia.
  - specialize (IH Hc). repeat case_decide; try lia. set_solver.
Qed.

(** Every iteration lowers the measure. *)
Lemma dfs_step_measure G source st st' :
  (∀ u v, edge_rel G u v → v ∈ nodes G) →
  dfs_invariant G source st → dfs_step G st = Some st' →
  (dfs_measure G st' < dfs_measure G st)%nat.
Proof.
  intros Hwf Hinv. unfold dfs_step, dfs_measure.
  destruct (dfs_stack st) as [|[parent [|child children]] stack] eqn:Hstack;
    [done| |].
  - intros [= <-]. simpl. lia.
  - case_decide as Hchild; intros [= <-]; simpl; [lia|].
    assert (child ∈ nodes G) as Hnode.
    { eapply Hwf, (dfs_stack_edges _ _ _ Hinv); [rewrite Hstack|]; left. }
    pose proof (dfs_unvisited_cost_visit G _ _ _ Hnode Hchild). lia.
Qed.

Lemma dfs_measure_zero G st : dfs_measure G st = 0 → dfs_stack st = [].
Proof.
  unfold dfs_measure. destruct (dfs_stack st); [done|]. simpl. lia.
Qed.

(** With enough fuel the search ends on an empty stack. *)
Lemma dfs_loop_ends fuel G source st :
  (∀ u v, edge_rel G u v → v ∈ nodes G) →
  dfs_invariant G source st → (dfs_measure G st ≤ fuel)%nat →
  dfs_stack (dfs_loop fuel G st) = [].
Proof.
  intros Hwf. revert st. induction fuel as [|fuel IH]; intros st Hinv Hfuel.
  - simpl. apply (dfs_measure_zero G). lia.
  - simpl. destruct (dfs_step G st) as [st'|] eqn:Hstep.
    + apply IH; [by eapply dfs_step_invariant|].
      pose proof (dfs_step_measure _ _ _ _ Hwf Hinv Hstep). lia.
    + unfold dfs_step in Hstep.
      destruct (dfs_stack st) as [|[? [|??]] ?]; [done|done|].
      by case_decide.
Qed.

Lemma dfs_unvisited_cost_empty G (l : list string) :
  dfs_unvisited_cost G ∅ l
  = length l + length (mjoin ((λ n, (λ v, (n, v)) <$> successors G n) <$> l)).
Proof.
  unfold dfs_unvisited_cost. induction l as [|v l IH]; [done|].
  csimpl. rewrite IH, length_app, length_fmap.
  rewrite decide_False by apply not_elem_of_empty. lia.
Qed.

Lemma dfs_initial_measure G source :
  source ∈ nodes G →
  (dfs_measure G {| dfs_visited := {[source]};
                    dfs_stack := [(source, successors G source)];
                    dfs_emitted := [] |} ≤ dfs_fuel G)%nat.
Proof.
  intros Hsrc. unfold dfs_measure, dfs_fuel. simpl.
  pose proof (dfs_unvisited_cost_visit G ∅ source (nodes G) Hsrc) as Hcost.
  rewrite (right_id_L ∅ (∪)) in Hcost.
  rewrite dfs_unvisited_cost_empty in Hcost. fold (edges G) in Hcost.
  specialize (Hcost (not_elem_of_empty _)). lia.
Qed.

(** The search returns the nodes reachable from its source. *)
Lemma dfs_postorder_nodes_reachable G source :
  (∀ u v, edge_rel G u v → v ∈ nodes G) → source ∈ nodes G →
  ∃ l, dfs_postorder_nodes G source = Ok l ∧
       ∀ v, v ∈ l ↔ reachable G source v.
Proof.
  intros Hwf Hsrc. unfold dfs_postorder_nodes.
  rewrite (proj2 (has_node_true _ _) Hsrc). eexists. split; [done|].
  pose proof (dfs_invariant_initial G source) as Hinit.
  pose proof (dfs_loop_invariant (dfs_fuel G) _ _ _ Hinit) as Hinv.
  pose proof (dfs_loop_ends (dfs_fuel G) _ _ _ Hwf Hinit
                (dfs_initial_measure _ _ Hsrc)) as Hend.
  destruct Hinv as [Hsplit Hreach Hclosed Hsource _].
  rewrite Hend in Hsplit, Hclosed.
  assert (∀ v, v ∈ dfs_emitted (dfs_loop (dfs_fuel G) G
            {| dfs_visited := {[source]};
               dfs_stack := [(source, successors G source)];
               dfs_emitted := [] |}) ↔
          v ∈ dfs_visited (dfs_loop (dfs_fuel G) G
            {| dfs_visited := {[source]};
               dfs_stack := [(source, successors G source)];
               dfs_emitted := [] |})) as Hemitted.
  { intros v. rewrite Hsplit. csimpl. rewrite elem_of_nil. tauto. }
  intros v. rewrite Hemitted. split; [apply Hreach|].
  intros Hv. revert v Hv. apply rtc_ind_r; [done|].
  intros y z _ Hyz IH.
  destruct (Hclosed y z IH Hyz) as [?|(cs & []%elem_of_nil & _)]. done.
Qed.

Lemma descendants_reachable G source :
  (∀ u v, edge_rel G u v → v ∈ nodes G) → source ∈ nodes G →
  ∃ X, descendants G source = Ok X ∧
       ∀ v, v ∈ X ↔ reachable G source v ∧ v ≠ source.
Proof.
  intros Hwf Hsrc. unfold descendants.
  destruct (dfs_postorder_nodes_reachable G source Hwf Hsrc) as (l & -> & Hl).
  eexists. split; [done|]. intros v.
  rewrite elem_of_difference, elem_of_list_to_set, elem_of_singleton, Hl.
  done.
Qed.

(** ** Terminal reachability *)

Lemma edge_rel_reverse G u v :
  (∀ a b, edge_rel G a b → a ∈ nodes G) →
  edge_rel (reverse G) u v ↔ edge_rel G v u.
Proof.
  intros Hwf. unfold edge_rel, reverse. simpl.
  rewrite <-list_fmap_compose, !list_elem_of_fmap.
  setoid_rewrite list_elem_of_join. setoid_rewrite list_elem_of_fmap. split.
  - intros ([[a b] d] & [= -> ->] & l & He & n & -> & Hn).
    apply list_elem_of_filter in He as [_ He]. by exists (a, b, d).
  - intros ([[a b] d] & [= -> ->] & He). exists (a, b, d). split; [done|].
    exists (out_edges G a). split.
    + by apply list_elem_of_filter.
    + exists a. split; [done|]. apply (Hwf a b), list_elem_of_fmap.
      by exists (a, b, d).
Qed.

Lemma reachable_reverse G u v :
  (∀ a b, edge_rel G a b → a ∈ nodes G) →
  reachable (reverse G) u v ↔ reachable G v u.
Proof.
  intros Hwf. unfold reachable. split.
  - revert v. apply rtc_ind_r; [apply rtc_refl|].
    intros y z _ Hyz IH. apply (edge_rel_reverse G y z Hwf) in Hyz.
    by eapply rtc_l.
  - revert v. apply rtc_ind_l; [apply rtc_refl|].
    intros x y Hxy _ IH. eapply rtc_r; [done|].
    by apply (edge_rel_reverse G y x Hwf).
Qed.

Lemma get_nodes_of_specific_kind_nodes G k n :
  n ∈ get_nodes_of_specific_kind G k → n ∈ nodes G.
Proof.
  unfold get_nodes_of_specific_kind, nodes.
  rewrite elem_of_list_to_set, list_elem_of_omap, list_elem_of_fmap.
  intros ([n' a] & Hin & Hk). simpl in Hk. case_decide; [|done].
  injection Hk as ->. by exists (n, a).
Qed.

Lemma manifest_of_node_step G n step :
  node_attrs G n ≫= definition = Some (StepDefinition step) →
  manifest_of_node G n = Ok step.
Proof.
  unfold manifest_of_node. destruct (node_attrs G n) as [a|]; [|done].
  simpl. by intros ->.
Qed.

(** The side-effecting steps: the step nodes whose block declares no
    output. *)
Lemma get_nodes_that_do_not_produce_outputs_spec G m :
  steps_registered G m →
  ∃ T, get_nodes_that_do_not_produce_outputs G m = Ok T ∧
       ∀ n, n ∈ T ↔
            n ∈ get_nodes_of_specific_kind G STEP_NODE_KIND ∧
            ∃ step block, step_block G m n step block ∧
                          get_actual_outputs block step = [].
Proof.
  intros Hreg. unfold get_nodes_that_do_not_produce_outputs.
  set (step_nodes := get_nodes_of_specific_kind G STEP_NODE_KIND) in *.
  match goal with |- ∃ T, for_each ?body _ _ = _ ∧ _ =>
    assert (∀ result n, n ∈ elements step_nodes →
              ∃ step block, step_block G m n step block ∧
                body result n
                = Ok (if decide (get_actual_outputs block step = [])
                      then {[n]} ∪ result else result)) as Hbody;
    [|destruct (for_each_returns body (λ _, True) (elements step_nodes) ∅)
        as (T & HT & _); [|done|exists T; split; [done|]]]
  end.
  - intros result n Hn%elem_of_elements.
    destruct (Hreg n Hn) as (step & block & Hstep & Hblock).
    exists step, block. split; [done|].
    rewrite (manifest_of_node_step _ _ _ Hstep). simpl. rewrite Hblock.
    destruct (get_actual_outputs block step); by repeat case_decide.
  - intros result n Hn _. destruct (Hbody result n Hn) as (? & ? & _ & ->).
    eauto.
  - intros n.
    eapply (for_each_accumulates _ (λ (T : gset string) n, n ∈ T)
              (λ a n, n = a ∧ ∃ step block, step_block G m n step block ∧
                                get_actual_outputs block step = [])) in HT as ->.
    + rewrite elem_of_empty. setoid_rewrite elem_of_elements. naive_solver.
    + clear n. intros T1 a T2 n Ha.
      destruct (Hbody T1 a Ha) as (step & block & [Hstep Hblock] & ->).
      intros [= <-]. case_decide as Hout.
      * rewrite elem_of_union, elem_of_singleton. split; [|naive_solver].
        intros [->|?]; [|by left]. right. split; [done|].
        by exists step, block.
      * split; [by left|]. intros [?|[-> (step' & block' & [Hs Hb] & Hout')]];
          [done|]. congruence.
Qed.

(** The nodes that reach a pointed node. *)
Lemma get_nodes_that_are_reachable_spec G (pointed : gset string) :
  wf_graph G → (∀ t, t ∈ pointed → t ∈ nodes G) →
  ∃ R, get_nodes_that_are_reachable_from_pointed_ones_in_reversed_graph
         G pointed = Ok R ∧
       ∀ n, n ∈ R ↔ ∃ t, t ∈ pointed ∧ reachable G n t.
Proof.
  intros Hwf Hpointed.
  unfold get_nodes_that_are_reachable_from_pointed_ones_in_reversed_graph.
  assert (∀ a b, edge_rel G a b → a ∈ nodes G) as Hsrc.
  { intros a b Hab. by apply (wf_endpoints _ Hwf a b). }
  assert (∀ t, t ∈ pointed →
            ∃ l, dfs_postorder_nodes (reverse G) t = Ok l ∧
                 ∀ n, n ∈ l ↔ reachable G n t) as Hdfs.
  { intros t Ht.
    destruct (dfs_postorder_nodes_reachable (reverse G) t) as (l & Hl & Hreach).
    - intros u v Huv. apply (edge_rel_reverse G u v Hsrc) in Huv.
      by apply (wf_endpoints _ Hwf v u).
    - by apply Hpointed.
    - exists l. split; [done|]. intros n. by rewrite Hreach, reachable_reverse. }
  match goal with |- ∃ R, for_each ?body _ _ = _ ∧ _ =>
    destruct (for_each_returns body (λ _, True) (elements pointed) ∅)
      as (R & HR & _); [|done|exists R; split; [done|]]
  end.
  - intros R1 t Ht%elem_of_elements _. destruct (Hdfs t Ht) as (l & -> & _).
    eauto.
  - intros n.
    eapply (for_each_accumulates _ (λ (R : gset string) n, n ∈ R)
              (λ t n, reachable G n t)) in HR as ->.
    + rewrite elem_of_empty. setoid_rewrite elem_of_elements. naive_solver.
    + clear n. intros R1 t R2 n Ht%elem_of_elements.
      destruct (Hdfs t Ht) as (l & -> & Hl). intros [= <-].
      by rewrite elem_of_union, elem_of_list_to_set, Hl.
Qed.

(** The check of terminal reachability on a graph. *)
Lemma verify_each_node_reach_at_least_one_output_spec (G : DiGraph)
    (m : gmap string WorkflowBlock) :
  wf_graph G → steps_registered G m →
  ((∀ n, n ∈ nodes G → reaches_terminal G m n) →
   verify_each_node_reach_at_least_one_output G m = Ok ()) ∧
  ((∃ n, n ∈ nodes G ∧ ¬ reaches_terminal G m n) →
   ∃ offenders,
     verify_each_node_reach_at_least_one_output G m
     = Raise (DanglingExecutionBranchError offenders) ∧
     ∀ n, n ∈ offenders ↔ n ∈ nodes G ∧ ¬ reaches_terminal G m n).
Proof.
  intros Hwf Hreg. unfold verify_each_node_reach_at_least_one_output.
  destruct (get_nodes_that_do_not_produce_outputs_spec G m Hreg)
    as (T & -> & HT).
  simpl.
  destruct (get_nodes_that_are_reachable_spec G
              (get_nodes_of_specific_kind G OUTPUT_NODE_KIND ∪ T) Hwf)
    as (R & -> & HR).
  { intros t [Ht|Ht%HT]%elem_of_union;
      eapply get_nodes_of_specific_kind_nodes; [done|apply Ht]. }
  simpl.
  assert (∀ n, n ∈ R ↔ reaches_terminal G m n) as HR'.
  { intros n. rewrite HR. unfold reaches_terminal, terminal.
    setoid_rewrite elem_of_union. setoid_rewrite HT. done. }
  assert (∀ n, n ∈ (list_to_set (nodes G) : gset string) ∖ R ↔
               n ∈ nodes G ∧ ¬ reaches_terminal G m n) as Hoff.
  { intros n. by rewrite elem_of_difference, elem_of_list_to_set, HR'. }
  split.
  - intros Hall. rewrite decide_False; [done|].
    intros Hsize. apply size_pos_elem_of in Hsize as [n Hn].
    apply Hoff in Hn as [Hn Hnot]. auto.
  - intros (n & Hn & Hnot). rewrite decide_True.
    + eexists. split; [done|]. apply Hoff.
    + assert (size ((list_to_set (nodes G) : gset string) ∖ R) ≠ 0); [|lia].
      rewrite size_empty_iff. intros Hempty.
      apply (not_elem_of_empty (C:=gset string) n). rewrite <-Hempty.
      by apply Hoff.
Qed.

Lemma scenario_4_graph_constructed :
  construct_graph scenario_4 example_manifest_class2block_class
  = Ok scenario_4_graph.
Proof. vm_compute. reflexivity. Qed.

Lemma scenario_4_steps_registered :
  steps_registered scenario_4_graph example_manifest_class2block_class.
Proof.
  intros n Hn. apply elem_of_list_to_set in Hn. vm_compute in Hn.
  apply elem_of_cons in Hn as [->|Hn];
    [|apply list_elem_of_singleton in Hn as ->].
  - eexists _, transform_block. split; vm_compute; reflexivity.
  - eexists _, transform_block. split; vm_compute; reflexivity.
Qed.

Lemma scenario_4_aux_dangling :
  ¬ reaches_terminal scenario_4_graph example_manifest_class2block_class
      "$steps.aux".
Proof.
  intros (t & Hterminal & Hreach).
  apply rtc_inv in Hreach as [<-|(z & Hedge & _)].
  - destruct Hterminal as [Hout|(_ & step & block & [Hstep Hblock] & Houts)].
    + apply elem_of_list_to_set in Hout. vm_compute in Hout.
      by apply list_elem_of_singleton in Hout.
    + vm_compute in Hstep. injection Hstep as <-.
      vm_compute in Hblock. injection Hblock as <-. done.
  - unfold edge_rel in Hedge. vm_compute in Hedge.
    repeat (apply elem_of_cons in Hedge as [[=]|Hedge]).
    by apply elem_of_nil in Hedge.
Qed.


(** ** Branch isolation *)

Lemma recorded_on_path_nil G c s : ¬ recorded_on_path G [] c s.
Proof. intros (_ & l1 & l2 & Hl). by destruct l1. Qed.

Lemma recorded_on_path_singleton G a c s : ¬ recorded_on_path G [a] c s.
Proof. intros (_ & l1 & l2 & Hl). by destruct l1 as [|? [|??]]. Qed.

Lemma recorded_on_path_cons G a b l c s :
  recorded_on_path G (a :: b :: l) c s ↔
  (is_flow_control_step G c = true ∧ s = a ∧ c = b) ∨
  recorded_on_path G (b :: l) c s.
Proof.
  unfold recorded_on_path. split.
  - intros (Hc & [|x l1] & l2 & Hl); simplify_eq/=; [by left|].
    right. split; [done|]. by exists l1, l2.
  - intros [(Hc & -> & ->)|(Hc & l1 & l2 & Hl)]; (split; [done|]).
    + by exists [], l.
    + exists (a :: l1), l2. by rewrite Hl.
Qed.

Lemma nonempty_values_insert (m : gmap string (gset string)) c s :
  nonempty_values m →
  nonempty_values (<[c := {[s]} ∪ default ∅ (m !! c)]> m).
Proof.
  intros Hm c' X. destruct (decide (c = c')) as [->|Hne].
  - rewrite lookup_insert_eq. intros [= <-]. set_solver.
  - rewrite lookup_insert_ne by done. apply Hm.
Qed.

Lemma elem_of_inserted_successors (m : gmap string (gset string)) c s c' s' :
  s' ∈ default ∅ (<[c := {[s]} ∪ default ∅ (m !! c)]> m !! c') ↔
  s' ∈ default ∅ (m !! c') ∨ (c' = c ∧ s' = s).
Proof.
  destruct (decide (c = c')) as [->|Hne].
  - rewrite lookup_insert_eq. simpl. set_solver.
  - rewrite lookup_insert_ne by done. naive_solver.
Qed.

(** The walk over a reversed path records, for every flow-control step but
    the first node, the node right before it, and counts these steps. *)
Lemma denote_successors_loop_spec G prev path_tail cfss count :
  nonempty_values cfss →
  nonempty_values (denote_successors_loop G prev path_tail cfss count).1 ∧
  (denote_successors_loop G prev path_tail cfss count).2
  = count + length (filter (λ n, is_flow_control_step G n = true) path_tail) ∧
  ∀ c s,
    s ∈ default ∅ ((denote_successors_loop G prev path_tail cfss count).1 !! c) ↔
    s ∈ default ∅ (cfss !! c) ∨ recorded_on_path G (prev :: path_tail) c s.
Proof.
  revert prev cfss count.
  induction path_tail as [|node path_tail IH]; intros prev cfss count Hne; simpl.
  - split; [done|]. split; [lia|]. intros c s. split; [auto|].
    intros [?|[]%recorded_on_path_singleton]. done.
  - rewrite filter_cons.
    destruct (is_flow_control_step G node) eqn:Hnode.
    + rewrite decide_True by done.
      destruct (IH node _ (count + 1) (nonempty_values_insert _ node prev Hne))
        as (Hne' & -> & Hrec).
      split; [done|]. split; [simpl; lia|]. intros c s.
      rewrite Hrec, elem_of_inserted_successors, recorded_on_path_cons.
      split; [|naive_solver]. intros [[?|[-> ->]]|?]; auto.
    + rewrite decide_False by done.
      destruct (IH node cfss count Hne) as (Hne' & -> & Hrec).
      split; [done|]. split; [done|]. intros c s.
      rewrite Hrec, recorded_on_path_cons. split; [naive_solver|].
      intros [?|[(Hc & _ & ->)|?]]; auto. congruence.
Qed.

Lemma denote_flow_control_steps_successors_spec G path cfss :
  nonempty_values cfss →
  let r := denote_flow_control_steps_successors_in_normal_flow G path cfss in
  nonempty_values r.1 ∧
  r.2 = flow_control_steps_on_path G path ∧
  ∀ c s, s ∈ default ∅ (r.1 !! c) ↔
         s ∈ default ∅ (cfss !! c) ∨ recorded_on_path G path c s.
Proof.
  intros Hne. unfold denote_flow_control_steps_successors_in_normal_flow,
    flow_control_steps_on_path.
  destruct path as [|prev path_tail]; simpl.
  - split; [done|]. split; [done|]. intros c s. split; [auto|].
    intros [?|[]%recorded_on_path_nil]. done.
  - apply denote_successors_loop_spec. done.
Qed.

(** The path through a parent: the topological order restricted to the
    step and to what the parent reaches. *)
Lemma construct_path_spec G τ p m :
  wf_graph G → p ∈ nodes G →
  ∃ X : gset string,
    construct_path_to_step_through_selected_parent G τ p m
    = Ok (filter (λ n, n ∈ X) τ) ∧
    ∀ n, n ∈ X ↔ n = m ∨ reachable G p n.
Proof.
  intros Hwf Hp. unfold construct_path_to_step_through_selected_parent.
  destruct (descendants_reachable G p) as (D & -> & HD); [|done|].
  { intros u v Huv. by apply (wf_endpoints _ Hwf u v). }
  simpl. eexists. split; [done|]. intros n.
  rewrite !elem_of_union, !elem_of_singleton, HD. split.
  - intros [->|[->|[? _]]]; auto. right. apply rtc_refl.
  - intros [->|Hn]; [by left|]. right.
    destruct (decide (n = p)) as [->|?]; auto.
Qed.

Lemma reversed_flow_path_eq G τ p m :
  wf_graph G → p ∈ nodes G →
  construct_path_to_step_through_selected_parent G τ p m
  = Ok (reversed_flow_path G τ m p).
Proof.
  intros Hwf Hp. unfold reversed_flow_path.
  by destruct (construct_path_spec G τ p m Hwf Hp) as (X & -> & _).
Qed.

Lemma denote_parent_eq G τ m st p :
  wf_graph G → p ∈ nodes G →
  denote_parent G τ m st p
  = Ok ((denote_flow_control_steps_successors_in_normal_flow G
           (reversed_flow_path G τ m p) st.1).1,
        (denote_flow_control_steps_successors_in_normal_flow G
           (reversed_flow_path G τ m p) st.1).2 `max` st.2).
Proof.
  intros Hwf Hp. unfold denote_parent.
  by rewrite (reversed_flow_path_eq G τ p m Hwf Hp).
Qed.

(** The loop over the parents of the investigated step. *)
Lemma parents_loop_spec G τ m parents st :
  wf_graph G → (∀ p, p ∈ parents → p ∈ nodes G) →
  nonempty_values st.1 →
  ∃ st', for_each (denote_parent G τ m) parents st = Ok st' ∧
         nonempty_values st'.1 ∧
         st'.2 = max_list
                   ((λ p, flow_control_steps_on_path G (reversed_flow_path G τ m p))
                      <$> parents) `max` st.2 ∧
         ∀ c s, s ∈ default ∅ (st'.1 !! c) ↔
                s ∈ default ∅ (st.1 !! c) ∨
                ∃ p, p ∈ parents ∧
                     recorded_on_path G (reversed_flow_path G τ m p) c s.
Proof.
  intros Hwf. revert st.
  induction parents as [|p parents IH]; intros st Hparents Hne; simpl.
  - exists st. split; [done|]. split; [done|]. split; [done|].
    intros c s. split; [auto|]. intros [?|(p & []%elem_of_nil & _)]. done.
  - rewrite (denote_parent_eq G τ m st p Hwf) by (apply Hparents; left).
    simpl.
    destruct (denote_flow_control_steps_successors_spec G
                (reversed_flow_path G τ m p) st.1 Hne) as (Hne1 & Hcount & Hrec).
    match goal with |- ∃ st', for_each _ _ ?st1 = _ ∧ _ =>
      destruct (IH st1) as (st' & -> & Hne' & Hmax & Hrec')
    end.
    { intros q Hq. apply Hparents. by right. }
    { done. }
    exists st'. split; [done|]. split; [done|]. simpl in *. split.
    + rewrite Hmax, Hcount.
      change (list_fmap string nat ?f parents) with (f <$> parents). lia.
    + intros c s. rewrite Hrec', Hrec. setoid_rewrite elem_of_cons.
      naive_solver.
Qed.

Lemma branch_isolation_spec_holds G τ m :
  wf_graph G → m ∈ nodes G → branch_isolation_spec G τ m.
Proof.
  intros Hwf Hm.
  assert (∀ p, p ∈ successors G m → p ∈ nodes G) as Hparents.
  { intros p Hp%elem_of_successors. by apply (wf_endpoints _ Hwf m p). }
  split; [intros p Hp; by apply construct_path_spec, Hparents|].
  unfold verify_multi_parent_step_execution_paths.
  rewrite (proj2 (has_node_true _ _) Hm). simpl.
  destruct (parents_loop_spec G τ m (successors G m) (∅, 0) Hwf Hparents)
    as ([cfss mx] & -> & Hne & Hmax & Hrec); [by intros c X|].
  simpl in *. rewrite Nat.max_0_r in Hmax.
  assert (∀ c s, s ∈ default ∅ (cfss !! c) ↔ recorded G τ m c s) as Hrec'.
  { intros c s. rewrite Hrec, lookup_empty. simpl. rewrite elem_of_empty.
    unfold recorded. tauto. }
  clear Hrec.
  assert (∀ c, c ∈ dom cfss ↔ ∃ s, recorded G τ m c s) as Hdom.
  { intros c. rewrite elem_of_dom. setoid_rewrite <-Hrec'. split.
    - intros [X HX]. rewrite HX. simpl. apply set_choose_L. by eapply Hne.
    - intros [s Hs]. destruct (cfss !! c); [eauto|]. set_solver. }
  assert (hazard_2 G τ m ↔ mx < size cfss) as Hh2.
  { unfold hazard_2. rewrite <-Hmax, <-size_dom. split.
    - intros (D & HD & Hlt). replace (dom cfss) with D; [done|].
      apply set_eq. intros c. by rewrite HD, Hdom.
    - intros Hlt. by exists (dom cfss). }
  assert (hazard_1 G τ m ↔
          map_Exists (λ (_ : string) (X : gset string), 1 < size X) cfss)
    as Hh1.
  { unfold hazard_1. rewrite map_Exists_lookup.
    setoid_rewrite size_gt_1_distinct. setoid_rewrite <-Hrec'. split.
    - intros (c & s1 & s2 & H1 & H2 & Hne12).
      destruct (cfss !! c) as [X|] eqn:HX; [|set_solver].
      exists c, X. split; [done|]. by exists s1, s2.
    - intros (c & X & HX & s1 & s2 & H1 & H2 & Hne12).
      exists c, s1, s2. by rewrite HX. }
  case_decide as Hsize; [left; tauto|].
  case_decide as Hexists; [left; tauto|]. right. tauto.
Qed.

Lemma wf_graph_reverse G : wf_graph G → wf_graph (reverse G).
Proof.
  intros [Hnd Hends]. split; [done|]. intros u v Huv.
  apply (edge_rel_reverse G u v) in Huv.
  - destruct (Hends v u Huv). done.
  - intros a b Hab. by apply (Hends a b).
Qed.

Lemma nodes_remove_node G n n' :
  n' ∈ nodes (remove_node G n) ↔ n' ≠ n ∧ n' ∈ nodes G.
Proof.
  unfold nodes, remove_node. simpl. rewrite !list_elem_of_fmap. split.
  - intros ([k a] & -> & [Hk Hin]%list_elem_of_filter). split; [done|].
    by exists (k, a).
  - intros (Hne & [k a] & -> & Hin). exists (k, a). split; [done|].
    by apply list_elem_of_filter.
Qed.

Lemma wf_graph_remove_node G n : wf_graph G → wf_graph (remove_node G n).
Proof.
  intros [Hnd Hends]. split.
  - unfold nodes, remove_node. simpl.
    eapply sublist_NoDup; [exact Hnd|]. apply fmap_sublist, sublist_filter.
  - intros u v Huv. rewrite !nodes_remove_node.
    unfold remove_node in Huv. simpl in Huv.
    apply list_elem_of_fmap in Huv as ([[a b] d] & [= -> ->] & He).
    apply list_elem_of_filter in He as [[Ha Hb] He]. simpl in *.
    destruct (Hends a b); [|done]. apply list_elem_of_fmap. by exists (a, b, d).
Qed.

Lemma construct_reversed_graph_with_steps_only_wf G :
  wf_graph G → wf_graph (construct_reversed_graph_with_steps_only G).
Proof.
  intros Hwf. unfold construct_reversed_graph_with_steps_only.
  apply foldl_invariant; [|by apply wf_graph_reverse].
  intros G1 node _ HG1. case_decide; [by apply wf_graph_remove_node|done].
Qed.

Lemma assoc_NoDup_elem_of {A} (l : list (string * A)) n a :
  NoDup l.*1 → (n, a) ∈ l → assoc n l = Some a.
Proof.
  induction l as [|[k b] l IH]; csimpl; [by intros _ ?%elem_of_nil|].
  intros [Hk Hnd]%NoDup_cons [[= -> ->]|Hin]%elem_of_cons.
  - by rewrite decide_True.
  - rewrite decide_False; [by apply IH|]. intros ->. apply Hk.
    apply list_elem_of_fmap. by exists (n, a).
Qed.

(** The step nodes are kept in the reversed step-only graph. *)
Lemma step_node_in_reversed_steps_graph G n :
  wf_graph G → is_step_node G n →
  n ∈ nodes (construct_reversed_graph_with_steps_only G).
Proof.
  intros [Hnd _] Hn. unfold construct_reversed_graph_with_steps_only.
  apply (elem_of_get_nodes_of_specific_kind G STEP_NODE_KIND n Hnd) in Hn
    as (a & Ha & Hk).
  assert (∀ a', (n, a') ∈ _node (reverse G) → kind a' = Some STEP_NODE_KIND)
    as Hkind.
  { intros a' Ha'. apply (assoc_NoDup_elem_of _ _ _ Hnd) in Ha'.
    unfold node_attrs in Ha. simpl in *. congruence. }
  assert (n ∈ nodes (reverse G)) as Hin.
  { apply node_attrs_is_Some. by exists a. }
  revert Hkind Hin. generalize (reverse G) at 2 3. generalize (_node (reverse G)).
  intros l. induction l as [|[k b] l IH]; intros G1 Hkind Hin; simpl; [done|].
  apply IH.
  - intros a' Ha'. apply Hkind. by right.
  - case_decide as Hb; [|done]. apply nodes_remove_node. split; [|done].
    simpl. intros ->. apply Hb, Hkind. left.
Qed.

(** The loop of the pass over the steps to analyse. *)
Lemma verify_steps_loop G τ (steps_to_verify : list string) :
  wf_graph G → (∀ m, m ∈ steps_to_verify → m ∈ nodes G) →
  ((∃ m, m ∈ steps_to_verify ∧ (hazard_1 G τ m ∨ hazard_2 G τ m)) ∧
   for_each (λ _ step, verify_multi_parent_step_execution_paths G τ step)
     steps_to_verify () = Raise ConditionalBranchesClashError) ∨
  (¬ (∃ m, m ∈ steps_to_verify ∧ (hazard_1 G τ m ∨ hazard_2 G τ m)) ∧
   for_each (λ _ step, verify_multi_parent_step_execution_paths G τ step)
     steps_to_verify () = Ok ()).
Proof.
  intros Hwf. induction steps_to_verify as [|m l IH]; intros Hnodes; simpl.
  - right. split; [|done]. by intros (m & []%elem_of_nil & _).
  - destruct (branch_isolation_spec_holds G τ m Hwf) as [_ [[Hh ->]|[Hno ->]]];
      [apply Hnodes; left| |].
    + left. split; [|done]. exists m. split; [left|done].
    + simpl. destruct IH as [[(m' & Hm' & Hh) ->]|[Hnone ->]].
      * intros m' Hm'. apply Hnodes. by right.
      * left. split; [|done]. exists m'. split; [by right|done].
      * right. split; [|done]. intros (m' & [->|Hm']%elem_of_cons & Hh);
          [done|]. apply Hnone. by exists m'.
Qed.

Lemma scenario_5_hazard_1 :
  hazard_1 (construct_reversed_graph_with_steps_only scenario_5_graph)
    scenario_5_order "$steps.G".
Proof.
  exists "$steps.if", "$steps.B", "$steps.E". split; [|split; [|done]].
  - exists "$steps.C". split.
    + apply elem_of_successors. vm_compute. in_list.
    + split; [vm_compute; reflexivity|].
      exists ["$steps.G"; "$steps.C"], []. vm_compute. reflexivity.
  - exists "$steps.F". split.
    + apply elem_of_successors. vm_compute. in_list.
    + split; [vm_compute; reflexivity|].
      exists ["$steps.G"; "$steps.F"], []. vm_compute. reflexivity.
Qed.


(** ** Topological sort of a cyclic graph *)

Lemma in_from_bounds G P v : (0 ≤ in_from G P v ≤ in_degree G v)%Z.
Proof.
  unfold in_from, in_degree. split; [lia|]. apply inj_le.
  induction (_adj G) as [|e l IH]; [done|].
  rewrite !filter_cons. repeat case_decide; simpl; try lia. tauto.
Qed.

Lemma in_from_empty G v : in_from G ∅ v = 0%Z.
Proof.
  unfold in_from. induction (_adj G) as [|e l IH]; [done|].
  rewrite filter_cons. case_decide as He; [|done]. set_solver.
Qed.

Lemma in_from_mono G P Q v : P ⊆ Q → (in_from G P v ≤ in_from G Q v)%Z.
Proof.
  intros HPQ. unfold in_from. apply inj_le.
  induction (_adj G) as [|e l IH]; [done|].
  rewrite !filter_cons. repeat case_decide; simpl; try lia. set_solver.
Qed.

Lemma in_from_add G P u v :
  u ∉ P →
  in_from G ({[u]} ∪ P) v
  = (in_from G P v + occurrences v (successors G u))%Z.
Proof.
  intros Hu. unfold in_from, occurrences, successors, out_edges.
  induction (_adj G) as [|e l IH]; [done|].
  rewrite !filter_cons. destruct (decide (e.1.1 = u)) as [He|He].
  - rewrite fmap_cons, filter_cons.
    repeat case_decide; simpl in *; try lia; set_solver.
  - repeat case_decide; simpl in *; try lia; set_solver.
Qed.

(** An edge from outside [Q] is not counted by [in_from]. *)
Lemma in_from_lt G Q w c :
  edge_rel G w c → w ∉ Q → (in_from G Q c < in_degree G c)%Z.
Proof.
  unfold edge_rel, in_from, in_degree. intros Hedge Hw.
  apply list_elem_of_fmap in Hedge as (e & He & Hin).
  induction (_adj G) as [|e' l IH]; [by apply elem_of_nil in Hin|].
  rewrite !filter_cons.
  assert (length (filter (λ e : string * string * gmap string bool,
                            e.1.2 = c ∧ e.1.1 ∈ Q) l)
          ≤ length (filter (λ e : string * string * gmap string bool,
                              e.1.2 = c) l))%nat as Hle.
  { pose proof (in_from_bounds {| _node := []; _adj := l |} Q c) as Hb.
    unfold in_from, in_degree in Hb. simpl in Hb. lia. }
  apply elem_of_cons in Hin as [<-|Hin].
  - destruct e as [[a b] d]. simpl in *. injection He as -> ->.
    repeat case_decide; simpl; try lia; tauto.
  - specialize (IH Hin). repeat case_decide; simpl; try lia. tauto.
Qed.

Lemma occurrences_nonneg v l : (0 ≤ occurrences v l)%Z.
Proof. unfold occurrences. lia. Qed.

Lemma occurrences_cons v c l :
  occurrences v (c :: l)
  = ((if decide (c = v) then 1 else 0) + occurrences v l)%Z.
Proof.
  unfold occurrences. rewrite filter_cons. case_decide; simpl; lia.
Qed.

Lemma counts_ok_ext G k k' m :
  (∀ v, k v = k' v) → counts_ok G k m → counts_ok G k' m.
Proof. intros Hk Hm v. rewrite <-Hk. apply Hm. Qed.

(** One child of a node that is being processed. *)
Lemma visit_child_spec G k m z c :
  counts_ok G k m → (k c < in_degree G c)%Z →
  ∃ m',
    visit_child (m, z) c
    = Ok (m', if decide (k c + 1 = in_degree G c)%Z then z ++ [c] else z) ∧
    counts_ok G (λ v, k v + if decide (c = v) then 1 else 0)%Z m'.
Proof.
  intros Hm Hc. unfold visit_child. simpl. rewrite (Hm c).
  rewrite decide_True by lia.
  destruct (decide (in_degree G c - k c - 1 = 0)%Z) as [Hz|Hz].
  - eexists. split; [by rewrite decide_True by lia|].
    intros v. destruct (decide (c = v)) as [<-|Hne].
    + rewrite lookup_delete_eq. by rewrite decide_False by lia.
    + rewrite lookup_delete_ne, Z.add_0_r by done. apply Hm.
  - eexists. split; [by rewrite decide_False by lia|].
    intros v. destruct (decide (c = v)) as [<-|Hne].
    + rewrite lookup_insert_eq. rewrite decide_True by lia. f_equal. lia.
    + rewrite lookup_insert_ne, Z.add_0_r by done. apply Hm.
Qed.

(** The loop over the children of a node: every edge to a child is taken
    off its count; the children whose count reaches zero join the next
    generation, once. *)
Lemma visit_children_spec G cs :
  ∀ k m z,
    counts_ok G k m →
    (∀ v, k v + occurrences v cs ≤ in_degree G v)%Z →
    ∃ m' new,
      for_each visit_child cs (m, z) = Ok (m', z ++ new) ∧
      counts_ok G (λ v, k v + occurrences v cs)%Z m' ∧
      NoDup new ∧
      ∀ c, c ∈ new ↔
           (k c < in_degree G c)%Z ∧
           (k c + occurrences c cs = in_degree G c)%Z.
Proof.
  induction cs as [|c cs IH]; intros k m z Hm Hpre.
  - exists m, []. split; [by rewrite app_nil_r|]. split.
    + eapply counts_ok_ext; [|done]. intros v. unfold occurrences. simpl. lia.
    + split; [apply NoDup_nil_2|]. intros c. rewrite elem_of_nil.
      unfold occurrences. simpl. lia.
  - assert (k c < in_degree G c)%Z as Hc.
    { pose proof (Hpre c) as Hpc. rewrite occurrences_cons in Hpc.
      rewrite decide_True in Hpc by done.
      pose proof (occurrences_nonneg c cs). lia. }
    destruct (visit_child_spec G k m z c Hm Hc) as (m1 & Hvisit & Hm1).
    destruct (IH _ m1 (if decide (k c + 1 = in_degree G c)%Z
                       then z ++ [c] else z) Hm1)
      as (m' & new & Hloop & Hm' & Hnd & Hnew).
    { intros v. pose proof (Hpre v) as Hpv. rewrite occurrences_cons in Hpv.
      lia. }
    pose proof (Hpre c) as Hpc. pose proof (occurrences_nonneg c cs) as Hoc.
    rewrite occurrences_cons, decide_True in Hpc by done.
    simpl. rewrite Hvisit. simpl. rewrite Hloop.
    destruct (decide (k c + 1 = in_degree G c)%Z) as [Hzero|Hzero].
    + exists m', (c :: new). split; [by rewrite <-app_assoc|]. split.
      { eapply counts_ok_ext; [|done]. intros v. rewrite occurrences_cons. lia. }
      split.
      { apply NoDup_cons. split; [|done].
        intros [Hlt _]%Hnew. rewrite decide_True in Hlt by done. lia. }
      intros c'. rewrite elem_of_cons, Hnew, occurrences_cons.
      destruct (decide (c = c')) as [<-|Hne]; simpl.
      * split; [intros _; lia | by left].
      * split; [intros [?|?]; [done|lia] | intros ?; right; lia].
    + exists m', new. split; [done|]. split.
      { eapply counts_ok_ext; [|done]. intros v. rewrite occurrences_cons. lia. }
      split; [done|]. intros c'. rewrite Hnew, occurrences_cons.
      destruct (decide (c = c')) as [<-|Hne]; simpl; lia.
Qed.

(** The loop over the nodes of a generation. *)
Lemma process_nodes_spec G gen :
  ∀ (P : gset string) m z,
    counts_ok G (in_from G P) m → NoDup gen → (∀ u, u ∈ gen → u ∉ P) →
    ∃ m' new,
      for_each (λ st node, for_each visit_child (successors G node) st)
        gen (m, z) = Ok (m', z ++ new) ∧
      counts_ok G (in_from G (list_to_set gen ∪ P)) m' ∧
      NoDup new ∧
      ∀ c, c ∈ new ↔
           (in_from G P c < in_degree G c)%Z ∧
           in_from G (list_to_set gen ∪ P) c = in_degree G c.
Proof.
  induction gen as [|u gen IH]; intros P m z Hm Hnd Hfresh.
  - exists m, []. split; [by rewrite app_nil_r|]. simpl.
    rewrite (left_id_L ∅ (∪)). split; [done|].
    split; [apply NoDup_nil_2|]. intros c. rewrite elem_of_nil. lia.
  - apply NoDup_cons in Hnd as [Hu Hnd].
    assert (u ∉ P) as HuP by (apply Hfresh; left).
    destruct (visit_children_spec G (successors G u) (in_from G P) m z Hm)
      as (m1 & new1 & Hchildren & Hm1 & Hnd1 & Hnew1).
    { intros v. rewrite <-in_from_add by done. apply in_from_bounds. }
    destruct (IH ({[u]} ∪ P) m1 (z ++ new1)) as (m' & new2 & Hrest & Hm' & Hnd2 & Hnew2).
    { eapply counts_ok_ext; [|done]. intros v. by rewrite in_from_add. }
    { done. }
    { intros u' Hu'. apply not_elem_of_union. split.
      - intros ->%elem_of_singleton. done.
      - apply Hfresh. by right. }
    assert (list_to_set (u :: gen) ∪ P
            = (list_to_set gen ∪ ({[u]} ∪ P) : gset string)) as Hsets.
    { simpl. set_solver. }
    assert (∀ c, in_from G ({[u]} ∪ P) c ≤ in_from G (list_to_set gen ∪ ({[u]} ∪ P)) c
                 ≤ in_degree G c)%Z as Hbounds.
    { intros c. split; [apply in_from_mono; set_solver|apply in_from_bounds]. }
    exists m', (new1 ++ new2). split; [|split; [|split]].
    + simpl. rewrite Hchildren. simpl. rewrite Hrest. by rewrite <-app_assoc.
    + by rewrite Hsets.
    + apply NoDup_app. split; [done|]. split; [|done].
      intros c [_ Heq]%Hnew1 [Hlt _]%Hnew2.
      rewrite in_from_add in Hlt by done. lia.
    + intros c. rewrite elem_of_app, Hnew1, Hnew2, Hsets.
      rewrite <-in_from_add by done.
      assert (in_from G P c ≤ in_from G ({[u]} ∪ P) c)%Z
        by (apply in_from_mono; set_solver).
      pose proof (Hbounds c). lia.
Qed.

Lemma in_degree_pos_edge G c :
  (0 < in_degree G c)%Z → ∃ u, edge_rel G u c.
Proof.
  unfold in_degree, edge_rel. intros Hpos.
  destruct (filter _ (_adj G)) as [|[[a b] d] l] eqn:Hfilter; [simpl in *; lia|].
  assert ((a, b, d) ∈ filter (λ e : string * string * gmap string bool,
                               e.1.2 = c) (_adj G)) as Hin
    by (rewrite Hfilter; left).
  apply list_elem_of_filter in Hin as [Hb Hin]. simpl in Hb. subst b.
  exists a. apply list_elem_of_fmap. by exists (a, c, d).
Qed.

(** On a graph with a cycle the loop over the generations ends with
    [NetworkXUnfeasible]: the nodes of the cycle keep an unprocessed
    incoming edge and are never emitted. *)
Lemma generations_loop_cyclic G (S : string → Prop) :
  wf_graph G →
  (∃ n, S n) → (∀ v, S v → ∃ w, S w ∧ edge_rel G w v) →
  ∀ fuel (P : gset string) m zero,
    generations_invariant G P m zero →
    (∀ v, v ∈ P → ¬ S v) →
    (length (nodes G) ≤ size P + fuel)%nat →
    topological_generations_loop fuel G m zero = Raise NetworkXUnfeasible.
Proof.
  intros Hwf [n Hn] Hpred.
  assert (∀ (P : gset string) v, (∀ u, u ∈ P → ¬ S u) → S v →
            (in_from G P v < in_degree G v)%Z) as Hcycle.
  { intros P v HP Hv. destruct (Hpred v Hv) as (w & Hw & Hedge).
    eapply in_from_lt; [done|]. intros HwP. by apply (HP w). }
  induction fuel as [|fuel IH]; intros P m zero [Hm Hnd Hzero Hemitted] HPS Hfuel.
  - destruct zero as [|z zs]; simpl.
    + rewrite decide_False; [done|]. intros ->.
      pose proof (Hm n) as Hmn. rewrite lookup_empty in Hmn.
      pose proof (Hcycle P n HPS Hn). rewrite decide_True in Hmn by lia. done.
    + exfalso. destruct (Hzero z) as (HzP & Hznodes & _); [left|].
      assert (size P < size (list_to_set (nodes G) : gset string)) as Hlt.
      { apply subset_size. split.
        - intros v Hv. apply elem_of_list_to_set. by apply Hemitted.
        - intros Hsub. apply HzP, Hsub, elem_of_list_to_set. done. }
      rewrite size_list_to_set in Hlt by apply Hwf. lia.
  - destruct zero as [|z zs]; simpl.
    + rewrite decide_False; [done|]. intros ->.
      pose proof (Hm n) as Hmn. rewrite lookup_empty in Hmn.
      pose proof (Hcycle P n HPS Hn). rewrite decide_True in Hmn by lia. done.
    + unfold process_generation.
      destruct (process_nodes_spec G (z :: zs) P m [] Hm Hnd)
        as (m' & new & -> & Hm' & Hnd' & Hnew).
      { intros u Hu. by apply Hzero. }
      simpl.
      assert (∀ v, v ∈ (list_to_set (z :: zs) ∪ P : gset string) →
                   v ∈ nodes G ∧ in_from G P v = in_degree G v) as Hold.
      { intros v [Hv%elem_of_list_to_set|Hv]%elem_of_union.
        - by destruct (Hzero v Hv) as (_ & ? & ?).
        - by apply Hemitted. }
      rewrite (IH (list_to_set (z :: zs) ∪ P)); [done| | |].
      * split; [done|done| |].
        -- intros c Hc. destruct (proj1 (Hnew c) Hc) as [Hlt Heq].
           split; [|split; [|done]].
           ++ intros Hin. destruct (Hold c Hin). lia.
           ++ destruct (in_degree_pos_edge G c) as [u Hu].
              { pose proof (in_from_bounds G P c). lia. }
              by apply (wf_endpoints _ Hwf u c).
        -- intros v Hv. destruct (Hold v Hv) as [? Heq]. split; [done|].
           assert (P ⊆ (list_to_set (z :: zs) ∪ P : gset string)) as Hsub
             by set_solver.
           pose proof (in_from_mono G _ _ v Hsub).
           pose proof (in_from_bounds G (list_to_set (z :: zs) ∪ P) v).
           lia.
      * intros v [Hv%elem_of_list_to_set|Hv]%elem_of_union; [|by apply HPS].
        intros HSv. pose proof (Hcycle P v HPS HSv).
        destruct (Hzero v Hv) as (_ & _ & ?). lia.
      * destruct (Hzero z) as (HzP & _ & _); [left|].
        assert (size ({[z]} ∪ P)
                ≤ size (list_to_set (z :: zs) ∪ P : gset string))%nat
          as Hle by (apply subseteq_size; set_solver).
        rewrite size_union, size_singleton in Hle by set_solver. lia.
Qed.

Lemma initial_indegree_map G (l : list string) v :
  (list_to_map
     (omap (λ v, if decide (0 < in_degree G v)%Z
                 then Some (v, in_degree G v) else None) l) : gmap string Z)
    !! v
  = if decide (v ∈ l ∧ (0 < in_degree G v)%Z)
    then Some (in_degree G v) else None.
Proof.
  induction l as [|a l IH].
  - simpl. by rewrite lookup_empty.
  - csimpl. destruct (decide (0 < in_degree G a)%Z) as [Ha|Ha]; csimpl.
    + destruct (decide (a = v)) as [->|Hne].
      * rewrite lookup_insert_eq. rewrite decide_True; [done|].
        split; [left|done].
      * rewrite lookup_insert_ne, IH by done.
        apply decide_ext. rewrite elem_of_cons. naive_solver.
    + rewrite IH. apply decide_ext. rewrite elem_of_cons. split; [tauto|].
      intros [[->|?] ?]; [done|tauto].
Qed.

Lemma initial_generations_invariant G :
  wf_graph G →
  generations_invariant G ∅
    (list_to_map
       (omap (λ v, if decide (0 < in_degree G v)%Z
                   then Some (v, in_degree G v) else None) (nodes G)))
    (filter (λ v, in_degree G v = 0%Z) (nodes G)).
Proof.
  intros Hwf. split.
  - intros v. rewrite initial_indegree_map, in_from_empty, Z.sub_0_r.
    apply decide_ext. split; [tauto|]. intros Hpos. split; [|done].
    destruct (in_degree_pos_edge G v Hpos) as [u Hu].
    by apply (wf_endpoints _ Hwf u v).
  - apply NoDup_filter, Hwf.
  - intros v [Hv Hin]%list_elem_of_filter.
    split; [apply not_elem_of_empty|]. split; [done|].
    by rewrite in_from_empty.
  - by intros v []%elem_of_empty.
Qed.

Lemma tc_last {A} (R : relation A) x z :
  tc R x z → ∃ y, rtc R x y ∧ R y z.
Proof.
  revert z. apply tc_ind_r.
  - intros z Hxz. exists x. split; [apply rtc_refl|done].
  - intros y z Hxy Hyz _. exists y. split; [by apply tc_rtc|done].
Qed.

(** The topological sort of a graph with a cycle raises
    [NetworkXUnfeasible]. *)
Lemma topological_generations_cyclic G :
  wf_graph G → has_cycle G →
  topological_generations G = Raise NetworkXUnfeasible.
Proof.
  intros Hwf [n Hn]. unfold topological_generations.
  apply (generations_loop_cyclic G
           (λ v, tc (edge_rel G) n v ∧ rtc (edge_rel G) v n) Hwf) with (P := ∅).
  - exists n. split; [done|apply rtc_refl].
  - intros v [Hnv Hvn]. apply tc_last in Hnv as (w & Hnw & Hwv).
    exists w. split; [|done]. split.
    + apply rtc_tc in Hnw as [<-|?]; done.
    + by eapply rtc_l.
  - by apply initial_generations_invariant.
  - by intros v []%elem_of_empty.
  - rewrite size_empty. lia.
Qed.

Lemma is_directed_acyclic_graph_cyclic G :
  wf_graph G → has_cycle G → is_directed_acyclic_graph G = Ok false.
Proof.
  intros Hwf Hcycle. unfold is_directed_acyclic_graph, topological_sort.
  by rewrite topological_generations_cyclic.
Qed.

(** C5, as the source has it.  A definition whose constructed graph has a
    cycle fails with [ExecutionGraphStructureError]; this is the class that
    an impermissible flow-control reference raises too, with another
    message. *)
Theorem cyclic_graph_raises_structure_error
    (wd : ParsedWorkflowDefinition) (blocks : list BlockSpecification)
    (G : DiGraph) :
  construct_graph wd (manifest_classes_of blocks) = Ok G →
  has_cycle G →
  prepare_execution_graph wd blocks
  = Raise (ExecutionGraphStructureError DetectedCycle) ∧
  raises (prepare_execution_graph wd blocks) ExecutionGraphStructureErrorClass ∧
  ∀ s sd G' e,
    establish_flow_control_edge s sd G' = Raise e →
    e = ExecutionGraphStructureError (DetectedReferenceToOtherStep s) ∧
    error_class e = ExecutionGraphStructureErrorClass.
Proof.
  intros HG Hcycle.
  assert (prepare_execution_graph wd blocks
          = Raise (ExecutionGraphStructureError DetectedCycle)) as Hraise.
  { unfold prepare_execution_graph. rewrite HG. simpl.
    rewrite is_directed_acyclic_graph_cyclic;
      [done|by eapply construct_graph_wf|done]. }
  split; [done|]. split; [by eexists|].
  intros s sd G' e. unfold establish_flow_control_edge.
  destruct (step_definition_allows_flow_control_references sd); [done|].
  simpl. by intros [= <-].
Qed.

Lemma scenario_3_cycle : has_cycle scenario_3_graph.
Proof.
  exists "$steps.a". apply (tc_l _ _ "$steps.b"); [|apply tc_once];
    unfold edge_rel; vm_compute; in_list.
Qed.

Lemma cyclic_graph_raises_structure_error_witness :
  prepare_execution_graph scenario_3 example_blocks
  = Raise (ExecutionGraphStructureError DetectedCycle).
Proof.
  apply (cyclic_graph_raises_structure_error scenario_3 example_blocks
           scenario_3_graph).
  - vm_compute. reflexivity.
  - exact scenario_3_cycle.
Defined.

(** C5 fails as stated: the error of a cyclic graph and the error of a step
    reference on a property that does not permit it are of one class. *)
Lemma cycle_error_is_a_structure_error :
  ∃ e1 e2,
    prepare_execution_graph scenario_3 example_blocks = Raise e1 ∧
    prepare_execution_graph unexpected_step_reference example_blocks = Raise e2 ∧
    e1 = ExecutionGraphStructureError DetectedCycle ∧
    e2 = ExecutionGraphStructureError (DetectedReferenceToOtherStep "$steps.b") ∧
    error_class e1 = error_class e2.
Proof.
  eexists _, _. split; [vm_compute; reflexivity|].
  split; [vm_compute; reflexivity|]. done.
Qed.

(** ** Topological sort of an acyclic graph *)

Lemma in_from_lt_edge G (P : gset string) v :
  (in_from G P v < in_degree G v)%Z → ∃ w, edge_rel G w v ∧ w ∉ P.
Proof.
  unfold in_from, in_degree, edge_rel.
  induction (_adj G) as [|[[a b] d] l IH]; [simpl; lia|].
  rewrite !filter_cons. simpl.
  destruct (decide (b = v ∧ a ∉ P)) as [[-> Ha]|Hno].
  - intros _. exists a. split; [|done]. csimpl. left.
  - intros Hlt. destruct IH as (w & Hw & HwP).
    + repeat case_decide; simpl in *; try lia; tauto.
    + exists w. split; [|done]. csimpl. by right.
Qed.

(** In a finite set where every node has a predecessor in the set, some
    node lies on a cycle. *)
Lemma predecessor_closed_cycle (R : relation string) (X : gset string) :
  (∀ v, v ∈ X → ∃ w, w ∈ X ∧ R w v) →
  ∀ n l v,
    NoDup (v :: l) → (∀ a, a ∈ v :: l → a ∈ X) → (∀ a, a ∈ l → rtc R v a) →
    (size X ≤ length (v :: l) + n)%nat →
    ∃ y, tc R y y.
Proof.
  intros Hpred.
  induction n as [|n IH]; intros l v Hnd HX Hreach Hsize;
    (destruct (Hpred v) as (w & Hw & Hwv); [apply HX; left|]);
    (destruct (decide (w ∈ v :: l)) as [Hin|Hout];
     [exists w; eapply tc_rtc_r; [by apply tc_once|];
      apply elem_of_cons in Hin as [->|Hin]; [apply rtc_refl|by apply Hreach]|]).
  - exfalso.
    assert (length (w :: v :: l) ≤ size X)%nat as Hle.
    { rewrite <-(size_list_to_set (C:=gset string)) by by apply NoDup_cons.
      apply subseteq_size. intros a [->|Ha]%elem_of_list_to_set%elem_of_cons;
        [done|by apply HX]. }
    simpl in *. lia.
  - apply (IH (v :: l) w).
    + by apply NoDup_cons.
    + intros a [->|Ha]%elem_of_cons; [done|by apply HX].
    + intros a [->|Ha]%elem_of_cons; [by apply rtc_once|].
      eapply rtc_l; [done|by apply Hreach].
    + simpl in *. lia.
Qed.

(** The loop over the generations returns the nodes that were not emitted
    before, unless the graph has a cycle. *)
Lemma generations_loop_returns G :
  wf_graph G →
  ∀ fuel (P : gset string) m zero,
    generations_invariant G P m zero →
    (∀ v, v ∈ nodes G → in_from G P v = in_degree G v → v ∈ P ∨ v ∈ zero) →
    (length (nodes G) ≤ size P + fuel)%nat →
    (∃ generations,
       topological_generations_loop fuel G m zero = Ok generations ∧
       ∀ v, v ∈ mjoin generations ↔ v ∈ nodes G ∧ v ∉ P) ∨
    has_cycle G.
Proof.
  intros Hwf.
  assert (∀ (P : gset string) m,
            generations_invariant G P m [] →
            (∀ v, v ∈ nodes G → in_from G P v = in_degree G v → v ∈ P ∨ v ∈ []) →
            (m = ∅ ∧ ∀ v, v ∈ nodes G → v ∈ P) ∨ has_cycle G) as Hend.
  { intros P m [Hm _ _ Hemitted] Hcomplete.
    assert (∀ v, v ∈ nodes G → v ∉ P → (in_from G P v < in_degree G v)%Z)
      as Hleft.
    { intros v Hv HvP. pose proof (in_from_bounds G P v).
      destruct (decide (in_from G P v = in_degree G v)) as [Heq|?]; [|lia].
      destruct (Hcomplete v Hv Heq) as [?|[]%elem_of_nil]. done. }
    destruct (decide (m = ∅)) as [->|Hne].
    - left. split; [done|]. intros v Hv. apply dec_stable. intros HvP.
      pose proof (Hleft v Hv HvP). pose proof (Hm v) as Hmv.
      rewrite lookup_empty, decide_True in Hmv by lia. done.
    - right. apply map_choose in Hne as (v & x & Hvx).
      pose proof (Hm v) as Hmv. rewrite Hvx in Hmv.
      destruct (decide (0 < in_degree G v - in_from G P v)%Z) as [Hpos|?];
        [|done].
      assert (v ∈ nodes G) as Hv.
      { destruct (in_degree_pos_edge G v) as [u Hu].
        - pose proof (in_from_bounds G P v). lia.
        - by apply (wf_endpoints _ Hwf u v). }
      assert (v ∉ P) as HvP.
      { intros HvP. destruct (Hemitted v HvP). lia. }
      apply (predecessor_closed_cycle (edge_rel G)
               (list_to_set (nodes G) ∖ P))
        with (n := size ((list_to_set (nodes G) : gset string) ∖ P))
             (l := []) (v := v).
      + intros a [Ha%elem_of_list_to_set HaP]%elem_of_difference.
        destruct (in_from_lt_edge G P a (Hleft a Ha HaP)) as (w & Hwa & HwP).
        exists w. split; [|done]. apply elem_of_difference.
        rewrite elem_of_list_to_set. split; [|done].
        by apply (wf_endpoints _ Hwf w a).
      + apply NoDup_singleton.
      + intros a ->%list_elem_of_singleton. apply elem_of_difference.
        by rewrite elem_of_list_to_set.
      + by intros a []%elem_of_nil.
      + simpl. lia. }
  assert (∀ fuel (P : gset string) m,
            generations_invariant G P m [] →
            (∀ v, v ∈ nodes G → in_from G P v = in_degree G v → v ∈ P ∨ v ∈ []) →
            (∃ generations,
               topological_generations_loop fuel G m [] = Ok generations ∧
               ∀ v, v ∈ mjoin generations ↔ v ∈ nodes G ∧ v ∉ P) ∨
            has_cycle G) as Hlast.
  { intros fuel P m Hinv Hcomplete.
    destruct (Hend P m Hinv Hcomplete) as [[-> Hall]|?]; [left|by right].
    exists []. split; [destruct fuel; simpl; by rewrite decide_True|].
    intros v. simpl. rewrite elem_of_nil. naive_solver. }
  induction fuel as [|fuel IH]; intros P m zero Hinv Hcomplete Hfuel;
    (destruct zero as [|z zs]; [by apply Hlast|]).
  - exfalso. destruct Hinv as [_ _ Hzero Hemitted].
    destruct (Hzero z) as (HzP & Hznodes & _); [left|].
    assert (size P < size (list_to_set (nodes G) : gset string))%nat as Hlt.
    { apply subset_size. split.
      - intros v Hv. apply elem_of_list_to_set. by apply Hemitted.
      - intros Hsub. apply HzP, Hsub, elem_of_list_to_set. done. }
    rewrite size_list_to_set in Hlt by apply Hwf. lia.
  - destruct Hinv as [Hm Hnd Hzero Hemitted]. simpl.
    unfold process_generation.
    destruct (process_nodes_spec G (z :: zs) P m [] Hm Hnd)
      as (m' & new & -> & Hm' & Hnd' & Hnew).
    { intros u Hu. by apply Hzero. }
    simpl.
    assert (∀ v, v ∈ (list_to_set (z :: zs) ∪ P : gset string) →
                 v ∈ nodes G ∧ in_from G P v = in_degree G v) as Hold.
    { intros v [Hv%elem_of_list_to_set|Hv]%elem_of_union.
      - by destruct (Hzero v Hv) as (_ & ? & ?).
      - by apply Hemitted. }
    assert (∀ v, in_from G P v ≤ in_from G (list_to_set (z :: zs) ∪ P) v
                 ≤ in_degree G v)%Z as Hbounds.
    { intros v. split; [apply in_from_mono; set_solver|apply in_from_bounds]. }
    destruct (IH (list_to_set (z :: zs) ∪ P) m' new)
      as [(generations & -> & Hgenerations)|Hcycle]; [| | | |by right].
    + split; [done|done| |].
      * intros c [Hlt Heq]%Hnew. split; [|split; [|done]].
        -- intros Hin. destruct (Hold c Hin). lia.
        -- destruct (in_degree_pos_edge G c) as [u Hu].
           { pose proof (in_from_bounds G P c). lia. }
           by apply (wf_endpoints _ Hwf u c).
      * intros v Hv. destruct (Hold v Hv) as [? Heq]. split; [done|].
        pose proof (Hbounds v). lia.
    + intros v Hv Heq.
      destruct (decide (in_from G P v = in_degree G v)) as [Heq'|Hne].
      * left. destruct (Hcomplete v Hv Heq'); set_solver.
      * right. apply Hnew. pose proof (Hbounds v). split; [lia|done].
    + destruct (Hzero z) as (HzP & _ & _); [left|].
      assert (size ({[z]} ∪ P)
              ≤ size (list_to_set (z :: zs) ∪ P : gset string))%nat
        as Hle by (apply subseteq_size; set_solver).
      rewrite size_union, size_singleton in Hle by set_solver. lia.
    + left. simpl. eexists. split; [done|]. intros v.
      change (mjoin ((z :: zs) :: generations))
        with ((z :: zs) ++ mjoin generations).
      rewrite elem_of_app, Hgenerations, not_elem_of_union,
        elem_of_list_to_set.
      split.
      * intros [Hv|[? [? ?]]]; [|done].
        by destruct (Hzero v Hv) as (? & ? & _).
      * intros [Hv HvP].
        destruct (decide (v ∈ z :: zs)); [by left|by right].
Qed.

(** The topological sort returns an order of all the nodes, unless the
    graph has a cycle. *)
Lemma topological_sort_returns G :
  wf_graph G →
  (∃ order, topological_sort G = Ok order ∧ ∀ v, v ∈ order ↔ v ∈ nodes G) ∨
  has_cycle G.
Proof.
  intros Hwf. unfold topological_sort, topological_generations.
  destruct (generations_loop_returns G Hwf (length (nodes G)) ∅ _ _
              (initial_generations_invariant G Hwf))
    as [(generations & -> & Hgenerations)|?]; [| |left|by right].
  - intros v Hv Heq. right. apply list_elem_of_filter. split; [|done].
    by rewrite in_from_empty in Heq.
  - lia.
  - simpl. eexists. split; [done|]. intros v. rewrite Hgenerations.
    split; [tauto|]. intros Hv. split; [done|apply not_elem_of_empty].
Qed.

(** The topological sort of a graph without cycle returns an order of all
    the nodes. *)
Lemma topological_sort_acyclic G :
  wf_graph G → ¬ has_cycle G →
  ∃ order, topological_sort G = Ok order ∧ ∀ v, v ∈ order ↔ v ∈ nodes G.
Proof.
  intros Hwf Hacyclic. by destruct (topological_sort_returns G Hwf).
Qed.

(** The test of [prepare_execution_graph] answers whether the graph has a
    cycle. *)
Lemma is_directed_acyclic_graph_spec G :
  wf_graph G →
  (has_cycle G ∧ is_directed_acyclic_graph G = Ok false) ∨
  (¬ has_cycle G ∧ is_directed_acyclic_graph G = Ok true).
Proof.
  intros Hwf.
  destruct (topological_sort_returns G Hwf) as [(order & Horder & _)|Hcycle].
  - right. split.
    + intros Hcycle.
      pose proof (topological_generations_cyclic G Hwf Hcycle) as Hraise.
      unfold topological_sort in Horder. by rewrite Hraise in Horder.
    + unfold is_directed_acyclic_graph. by rewrite Horder.
  - left. split; [done|]. by apply is_directed_acyclic_graph_cyclic.
Qed.

(** ** The passes of the validator, one after the other *)

Lemma edge_rel_remove_node G n u v :
  edge_rel (remove_node G n) u v → edge_rel G u v.
Proof.
  unfold edge_rel, remove_node. simpl. rewrite !list_elem_of_fmap.
  intros (e & -> & [_ He]%list_elem_of_filter). by exists e.
Qed.

Lemma edge_rel_reversed_steps_graph G u v :
  wf_graph G →
  edge_rel (construct_reversed_graph_with_steps_only G) u v → edge_rel G v u.
Proof.
  intros Hwf Huv. apply (edge_rel_reverse G u v).
  { intros a b Hab. by apply (wf_endpoints _ Hwf a b). }
  revert u v Huv. unfold construct_reversed_graph_with_steps_only.
  apply (foldl_invariant _ (λ G1, ∀ u v, edge_rel G1 u v →
                                         edge_rel (reverse G) u v)); [|done].
  intros G1 node _ HG1 u v. case_decide; [|by apply HG1].
  intros Huv%edge_rel_remove_node. by apply HG1.
Qed.

Lemma tc_flip_mono {A} (R1 R2 : relation A) x y :
  (∀ u v, R1 u v → R2 v u) → tc R1 x y → tc R2 y x.
Proof.
  intros HR. induction 1 as [x y Hxy|x y z Hxy _ IH].
  - by apply tc_once, HR.
  - eapply tc_r; [done|by apply HR].
Qed.

(** The reversed step-only graph of a graph without cycle has no cycle. *)
Lemma reversed_steps_graph_acyclic G :
  wf_graph G → ¬ has_cycle G →
  ¬ has_cycle (construct_reversed_graph_with_steps_only G).
Proof.
  intros Hwf Hacyclic [n Hn]. apply Hacyclic. exists n.
  apply (tc_flip_mono _ _ _ _ (λ u v, edge_rel_reversed_steps_graph G u v Hwf) Hn).
Qed.

(** The branch-isolation pass on a graph without cycle: the topological sort
    of the reversed step-only graph returns, and the pass raises exactly
    when an analysed step shows a hazard. *)
Lemma verify_each_node_step_has_parent_in_the_same_branch_spec G :
  wf_graph G → ¬ has_cycle G →
  ∃ τ, topological_sort (construct_reversed_graph_with_steps_only G) = Ok τ ∧
    (((∃ m, m ∈ detect_steps_with_more_than_one_parent_step G ∧
            (hazard_1 (construct_reversed_graph_with_steps_only G) τ m ∨
             hazard_2 (construct_reversed_graph_with_steps_only G) τ m)) ∧
      verify_each_node_step_has_parent_in_the_same_branch G
      = Raise ConditionalBranchesClashError) ∨
     (¬ (∃ m, m ∈ detect_steps_with_more_than_one_parent_step G ∧
              (hazard_1 (construct_reversed_graph_with_steps_only G) τ m ∨
               hazard_2 (construct_reversed_graph_with_steps_only G) τ m)) ∧
      verify_each_node_step_has_parent_in_the_same_branch G = Ok ())).
Proof.
  intros Hwf Hacyclic.
  pose proof (construct_reversed_graph_with_steps_only_wf G Hwf) as Hwf'.
  destruct (topological_sort_acyclic _ Hwf'
              (reversed_steps_graph_acyclic G Hwf Hacyclic)) as (τ & Hτ & _).
  exists τ. split; [done|].
  unfold verify_each_node_step_has_parent_in_the_same_branch.
  case_decide as Hsize.
  - right. split; [|done]. intros (m & Hm & _).
    apply size_empty_iff in Hsize. set_solver.
  - rewrite Hτ. simpl.
    destruct (verify_steps_loop
                (construct_reversed_graph_with_steps_only G) τ
                (elements (detect_steps_with_more_than_one_parent_step G)))
      as [[(m & Hm & Hh) ->]|[Hnone ->]].
    + done.
    + intros m Hm%elem_of_elements.
      apply step_node_in_reversed_steps_graph; [done|].
      apply elem_of_detect_steps_with_more_than_one_parent_step in Hm.
      naive_solver.
    + left. split; [|done]. exists m. split; [|done].
      by apply elem_of_elements.
    + right. split; [|done]. intros (m & Hm & Hh). apply Hnone.
      exists m. split; [|done]. by apply elem_of_elements.
Qed.

Lemma example_manifest_classes :
  manifest_classes_of example_blocks = example_manifest_class2block_class.
Proof. vm_compute. reflexivity. Qed.

Lemma is_directed_acyclic_graph_acyclic G :
  wf_graph G → ¬ has_cycle G → is_directed_acyclic_graph G = Ok true.
Proof.
  intros Hwf Hacyclic.
  by destruct (is_directed_acyclic_graph_spec G Hwf) as [[? _]|[_ ?]].
Qed.

(** A graph on which the test of networkx answers [True] has no cycle. *)
Lemma acyclic_by_test G :
  wf_graph G → is_directed_acyclic_graph G = Ok true → ¬ has_cycle G.
Proof.
  intros Hwf Htest.
  destruct (is_directed_acyclic_graph_spec G Hwf) as [[_ Hfalse]|[? _]]; [|done].
  congruence.
Qed.

(** C1. Branch isolation.  For every graph and every step [m] with two or
    more step parents, the analysis of [m] on the reversed step-only graph
    raises [ConditionalBranchesClashError] exactly when a flow-control step
    recorded along the reversed paths into [m] has more than one branch
    successor (hazard 1) or more distinct flow-control steps are recorded
    than any single path counts (hazard 2), and returns otherwise.  For a
    definition whose graph passed the earlier checks, compilation raises
    that error exactly when some analysed step shows a hazard, and returns
    the graph otherwise.  In scenario 5 the only analysed step is [G],
    hazard 1 holds for it with the step [if], and compilation raises
    [ConditionalBranchesClashError]. *)
Theorem branch_isolation_raises_exactly_on_hazards :
  (∀ G τ m,
     wf_graph G → m ∈ detect_steps_with_more_than_one_parent_step G →
     branch_isolation_spec (construct_reversed_graph_with_steps_only G) τ m) ∧
  (∀ wd blocks G,
     construct_graph wd (manifest_classes_of blocks) = Ok G →
     ¬ has_cycle G →
     verify_each_node_reach_at_least_one_output G (manifest_classes_of blocks)
     = Ok () →
     ∃ τ,
       topological_sort (construct_reversed_graph_with_steps_only G) = Ok τ ∧
       let hazard m :=
         m ∈ detect_steps_with_more_than_one_parent_step G ∧
         (hazard_1 (construct_reversed_graph_with_steps_only G) τ m ∨
          hazard_2 (construct_reversed_graph_with_steps_only G) τ m) in
       ((∃ m, hazard m) ∧
        prepare_execution_graph wd blocks = Raise ConditionalBranchesClashError) ∨
       (¬ (∃ m, hazard m) ∧ prepare_execution_graph wd blocks = Ok G)) ∧
  (construct_graph scenario_5 (manifest_classes_of example_blocks)
   = Ok scenario_5_graph ∧
   elements (detect_steps_with_more_than_one_parent_step scenario_5_graph)
   = ["$steps.G"] ∧
   topological_sort (construct_reversed_graph_with_steps_only scenario_5_graph)
   = Ok scenario_5_order ∧
   hazard_1 (construct_reversed_graph_with_steps_only scenario_5_graph)
     scenario_5_order "$steps.G" ∧
   verify_multi_parent_step_execution_paths
     (construct_reversed_graph_with_steps_only scenario_5_graph)
     scenario_5_order "$steps.G"
   = Raise ConditionalBranchesClashError ∧
   prepare_execution_graph scenario_5 example_blocks
   = Raise ConditionalBranchesClashError).
Proof.
  split; [|split].
  - intros G τ m Hwf Hm. apply branch_isolation_spec_holds.
    + by apply construct_reversed_graph_with_steps_only_wf.
    + apply step_node_in_reversed_steps_graph; [done|].
      apply elem_of_detect_steps_with_more_than_one_parent_step in Hm.
      naive_solver.
  - intros wd blocks G HG Hacyclic Hreach.
    pose proof (construct_graph_wf _ _ _ HG) as Hwf.
    destruct (verify_each_node_step_has_parent_in_the_same_branch_spec
                G Hwf Hacyclic) as (τ & Hτ & Hpass).
    exists τ. split; [done|]. unfold prepare_execution_graph.
    rewrite HG. simpl.
    rewrite (is_directed_acyclic_graph_acyclic G Hwf Hacyclic). simpl.
    rewrite Hreach. simpl.
    destruct Hpass as [[Hh ->]|[Hno ->]]; [by left|by right].
  - split; [vm_compute; reflexivity|].
    split; [vm_compute; reflexivity|].
    split; [vm_compute; reflexivity|].
    split; [apply scenario_5_hazard_1|].
    split; vm_compute; reflexivity.
Qed.

Lemma branch_isolation_raises_exactly_on_hazards_witness :
  verify_multi_parent_step_execution_paths
    (construct_reversed_graph_with_steps_only scenario_5_graph)
    scenario_5_order "$steps.G"
  = Raise ConditionalBranchesClashError ∧
  prepare_execution_graph scenario_5 example_blocks
  = Raise ConditionalBranchesClashError.
Proof.
  destruct branch_isolation_raises_exactly_on_hazards as (Hspec & Hcompile & HG & _).
  pose proof (construct_graph_wf _ _ _ HG) as Hwf.
  assert ("$steps.G"
          ∈ detect_steps_with_more_than_one_parent_step scenario_5_graph) as HinG.
  { apply elem_of_elements. vm_compute. left. }
  split.
  - destruct (Hspec scenario_5_graph scenario_5_order "$steps.G" Hwf HinG)
      as [_ [[_ Hraise]|[Hno _]]]; [done|].
    destruct Hno. left. exact scenario_5_hazard_1.
  - destruct (Hcompile scenario_5 example_blocks scenario_5_graph HG)
      as (τ & Hτ & [[_ Hraise]|[Hno _]]).
    + apply acyclic_by_test; [done|]. vm_compute. reflexivity.
    + vm_compute. reflexivity.
    + done.
    + destruct Hno. exists "$steps.G". split; [done|]. left.
      assert (τ = scenario_5_order) as ->.
      { assert (topological_sort
                  (construct_reversed_graph_with_steps_only scenario_5_graph)
                = Ok scenario_5_order) as Hτ' by (vm_compute; reflexivity).
        congruence. }
      exact scenario_5_hazard_1.
Defined.

(** C3. Terminal reachability.  With [T] the output nodes and the step
    nodes whose block declares no output for the manifest of the step: when
    every node reaches a node of [T] the check returns; otherwise it raises
    [DanglingExecutionBranchError] with exactly the nodes that reach no
    node of [T], and so does the compilation of a definition whose graph
    has no cycle.  The nodes reaching [T] are collected by a depth-first
    search of the reversed graph from each node of [T]. *)
Theorem terminal_reachability_check :
  (∀ G m,
     wf_graph G → steps_registered G m →
     ((∀ n, n ∈ nodes G → reaches_terminal G m n) →
      verify_each_node_reach_at_least_one_output G m = Ok ()) ∧
     ((∃ n, n ∈ nodes G ∧ ¬ reaches_terminal G m n) →
      ∃ offenders,
        verify_each_node_reach_at_least_one_output G m
        = Raise (DanglingExecutionBranchError offenders) ∧
        ∀ n, n ∈ offenders ↔ n ∈ nodes G ∧ ¬ reaches_terminal G m n)) ∧
  (∀ wd blocks G,
     construct_graph wd (manifest_classes_of blocks) = Ok G →
     ¬ has_cycle G →
     steps_registered G (manifest_classes_of blocks) →
     (∃ n, n ∈ nodes G ∧ ¬ reaches_terminal G (manifest_classes_of blocks) n) →
     ∃ offenders,
       prepare_execution_graph wd blocks
       = Raise (DanglingExecutionBranchError offenders) ∧
       ∀ n, n ∈ offenders ↔
            n ∈ nodes G ∧ ¬ reaches_terminal G (manifest_classes_of blocks) n).
Proof.
  split; [apply verify_each_node_reach_at_least_one_output_spec|].
  intros wd blocks G HG Hacyclic Hreg Hdangling.
  pose proof (construct_graph_wf _ _ _ HG) as Hwf.
  destruct (verify_each_node_reach_at_least_one_output_spec G _ Hwf Hreg)
    as [_ Hraise].
  destruct (Hraise Hdangling) as (offenders & Hverify & Hoffenders).
  exists offenders. split; [|done]. unfold prepare_execution_graph.
  rewrite HG. simpl.
  rewrite (is_directed_acyclic_graph_acyclic G Hwf Hacyclic). simpl.
  by rewrite Hverify.
Qed.

Lemma terminal_reachability_check_witness :
  ∃ offenders,
    prepare_execution_graph scenario_4 example_blocks
    = Raise (DanglingExecutionBranchError offenders) ∧
    "$steps.aux" ∈ offenders.
Proof.
  destruct terminal_reachability_check as [_ Hcompile].
  assert (construct_graph scenario_4 (manifest_classes_of example_blocks)
          = Ok scenario_4_graph) as HG by (vm_compute; reflexivity).
  pose proof (construct_graph_wf _ _ _ HG) as Hwf.
  assert ("$steps.aux" ∈ nodes scenario_4_graph) as Haux.
  { apply has_node_true. vm_compute. reflexivity. }
  destruct (Hcompile scenario_4 example_blocks scenario_4_graph HG)
    as (offenders & Hraise & Hoffenders).
  - apply acyclic_by_test; [done|]. vm_compute. reflexivity.
  - rewrite example_manifest_classes. exact scenario_4_steps_registered.
  - exists "$steps.aux". split; [done|]. rewrite example_manifest_classes.
    exact scenario_4_aux_dangling.
  - exists offenders. split; [done|]. apply Hoffenders. split; [done|].
    rewrite example_manifest_classes. exact scenario_4_aux_dangling.
Defined.

(** ** The graph that [construct_graph] builds *)

Lemma add_edge_for_output_target G o G' :
  add_edge_for_output G o = Ok G' →
  output_target o ∈ nodes G ∧
  construct_output_name (output_name o) ∈ nodes G ∧
  G' = add_edge G (output_target o) (construct_output_name (output_name o)).
Proof.
  unfold add_edge_for_output. fold (output_target o).
  destruct (verify_edge_is_created_between_existing_nodes _ _ _) as [[]|] eqn:Hv;
    [|done].
  apply verify_edge_inv in Hv as [Hs Hr]. simpl. by intros [= <-].
Qed.

(** A property of graphs kept by every edge that a selector of the
    definition asks for is kept by the edge passes. *)
Section construct_graph_invariant.
Context (wd : ParsedWorkflowDefinition) (P : DiGraph → Prop).
Context (P_data : ∀ G step sd,
  step ∈ steps wd → sd ∈ get_step_selectors step →
  is_step_selector (selector sd) = false →
  construct_step_selector (step_name step) ∈ nodes G →
  get_step_selector_from_its_output (selector sd) ∈ nodes G →
  P G →
  P (add_edge G (get_step_selector_from_its_output (selector sd))
       (construct_step_selector (step_name step)))).
Context (P_flow : ∀ G step sd,
  step ∈ steps wd → sd ∈ get_step_selectors step →
  is_step_selector (selector sd) = true →
  construct_step_selector (step_name step) ∈ nodes G →
  get_step_selector_from_its_output (selector sd) ∈ nodes G →
  P G →
  P (set_flow_control_node
       (add_edge G (construct_step_selector (step_name step))
          (get_step_selector_from_its_output (selector sd)))
       (construct_step_selector (step_name step)))).
Context (P_output : ∀ G o,
  o ∈ outputs wd →
  output_target o ∈ nodes G →
  construct_output_name (output_name o) ∈ nodes G →
  P G →
  P (add_edge G (output_target o) (construct_output_name (output_name o)))).

Lemma add_steps_edges_invariant G m G' :
  P G → add_steps_edges wd G m = Ok G' → P G'.
Proof.
  intros HP. apply for_each_invariant; [|done].
  intros G1 step G2 Hstep HP1. apply for_each_invariant; [|done].
  intros G3 sd G4 Hsd HP3 (Hs & Ht & HG4)%add_edge_for_step_inv.
  destruct (is_step_selector (selector sd)) eqn:Hpure; subst G4.
  - by apply P_flow.
  - by apply P_data.
Qed.

Lemma add_edges_for_outputs_invariant G G' :
  P G → add_edges_for_outputs wd G = Ok G' → P G'.
Proof.
  intros HP. apply for_each_invariant; [|done].
  intros G1 o G2 Ho HP1 (Ht & Hn & ->)%add_edge_for_output_target.
  by apply P_output.
Qed.

Lemma construct_graph_invariant m G :
  P (construct_nodes wd) → construct_graph wd m = Ok G → P G.
Proof.
  intros HP. unfold construct_graph. fold (construct_nodes wd).
  destruct (add_steps_edges wd (construct_nodes wd) m) as [G1|] eqn:HG1;
    [|done].
  simpl. apply add_edges_for_outputs_invariant.
  by eapply add_steps_edges_invariant.
Qed.
End construct_graph_invariant.

(** *** Nodes *)

Lemma construct_nodes_declared wd n :
  n ∈ nodes (construct_nodes wd) ↔ declared_node wd n.
Proof.
  unfold construct_nodes, add_output_nodes_for_graph,
    add_steps_nodes_for_graph, add_input_nodes_for_graph, declared_node.
  rewrite !add_nodes_loop_nodes. unfold nodes at 1. simpl.
  rewrite elem_of_nil. naive_solver.
Qed.

Lemma node_of_definition_add_node wd G n k d :
  (∀ a, node_of_definition wd n
          {| kind := Some k; definition := Some d; flow_control_node := a |}) →
  (∀ n' a, node_attrs G n' = Some a → node_of_definition wd n' a) →
  ∀ n' a, node_attrs (add_node G n k d) n' = Some a → node_of_definition wd n' a.
Proof.
  intros Hnew HG n' a. destruct (decide (n = n')) as [<-|Hne].
  - rewrite node_attrs_add_node_eq. intros [= <-]. apply Hnew.
  - rewrite node_attrs_add_node_ne by done. apply HG.
Qed.

Lemma construct_nodes_of_definition wd n a :
  node_attrs (construct_nodes wd) n = Some a → node_of_definition wd n a.
Proof.
  revert n a.
  unfold construct_nodes, add_output_nodes_for_graph,
    add_steps_nodes_for_graph, add_input_nodes_for_graph.
  apply (foldl_invariant _
           (λ G, ∀ n a, node_attrs G n = Some a → node_of_definition wd n a)).
  { intros G o Ho HG. apply node_of_definition_add_node; [|done].
    intros f. right. right. by exists o. }
  apply (foldl_invariant _
           (λ G, ∀ n a, node_attrs G n = Some a → node_of_definition wd n a)).
  { intros G s Hs HG. apply node_of_definition_add_node; [|done].
    intros f. right. left. by exists s. }
  apply (foldl_invariant _
           (λ G, ∀ n a, node_attrs G n = Some a → node_of_definition wd n a)).
  { intros G i Hi HG. apply node_of_definition_add_node; [|done].
    intros f. left. by exists i. }
  done.
Qed.

Lemma node_attrs_add_edge_present G u v n :
  u ∈ nodes G → v ∈ nodes G →
  node_attrs (add_edge G u v) n = node_attrs G n.
Proof.
  intros Hu Hv. unfold node_attrs. by rewrite node_add_edge_present.
Qed.

Lemma nodes_add_edge_present G u v :
  u ∈ nodes G → v ∈ nodes G → nodes (add_edge G u v) = nodes G.
Proof. intros Hu Hv. unfold nodes. by rewrite node_add_edge_present. Qed.

Lemma node_attrs_set_flow_control_node G n n' :
  node_attrs (set_flow_control_node G n) n'
  = (λ a, if decide (n = n')
          then {| kind := kind a; definition := definition a;
                  flow_control_node := Some true |}
          else a) <$> node_attrs G n'.
Proof.
  unfold node_attrs. simpl. case_decide as Hn.
  - subst. by rewrite assoc_update_eq.
  - rewrite assoc_update_ne by done. by destruct (assoc n' (_node G)).
Qed.

Lemma node_of_definition_flag wd n a f :
  node_of_definition wd n a →
  node_of_definition wd n
    {| kind := kind a; definition := definition a; flow_control_node := f |}.
Proof. done. Qed.

(** The edge passes create no node and leave the kind and the definition
    of every node alone. *)
Lemma construct_graph_nodes wd m G :
  construct_graph wd m = Ok G →
  nodes G = nodes (construct_nodes wd) ∧
  ∀ n a, node_attrs G n = Some a → node_of_definition wd n a.
Proof.
  apply (construct_graph_invariant wd
           (λ G, nodes G = nodes (construct_nodes wd) ∧
                 ∀ n a, node_attrs G n = Some a → node_of_definition wd n a)).
  - intros G1 step sd _ _ _ Hs Ht [Hn Ha]. split.
    + by rewrite nodes_add_edge_present.
    + intros n a. by rewrite node_attrs_add_edge_present; auto.
  - intros G1 step sd _ _ _ Hs Ht [Hn Ha]. split.
    + by rewrite nodes_set_flow_control_node, nodes_add_edge_present.
    + intros n a. rewrite node_attrs_set_flow_control_node,
        node_attrs_add_edge_present by done.
      destruct (node_attrs G1 n) as [a1|] eqn:Ha1; [|done]. simpl.
      intros [= <-]. case_decide; [|by apply Ha].
      apply node_of_definition_flag. by apply Ha.
  - intros G1 o _ Ht Hn [Hnodes Ha]. split.
    + by rewrite nodes_add_edge_present.
    + intros n a. by rewrite node_attrs_add_edge_present; auto.
  - split; [done|]. apply construct_nodes_of_definition.
Qed.

(** X1. The nodes of a constructed graph are the declared inputs, steps and
    outputs, each once; every node carries the kind and the definition of a
    declared input, step or output of that id, so that the edge passes
    create no node. *)
Theorem constructed_graph_nodes_are_the_declared_ones
    (wd : ParsedWorkflowDefinition) (m : gmap string WorkflowBlock)
    (G : DiGraph) :
  construct_graph wd m = Ok G →
  NoDup (nodes G) ∧
  (∀ n, n ∈ nodes G ↔ declared_node wd n) ∧
  (∀ n, n ∈ nodes G →
        ∃ a, node_attrs G n = Some a ∧ node_of_definition wd n a).
Proof.
  intros HG. destruct (construct_graph_nodes _ _ _ HG) as [Hnodes Hattrs].
  split; [apply (construct_graph_wf _ _ _ HG)|]. split.
  - intros n. by rewrite Hnodes, construct_nodes_declared.
  - intros n [a Ha]%node_attrs_is_Some. eauto.
Qed.

Lemma constructed_graph_nodes_are_the_declared_ones_witness :
  nodes scenario_5_graph
  = ["$inputs.c"; "$steps.if"; "$steps.B"; "$steps.E"; "$steps.C"; "$steps.F";
     "$steps.G"; "out.result"] ∧
  ∀ n, n ∈ nodes scenario_5_graph ↔ declared_node scenario_5 n.
Proof.
  split; [vm_compute; reflexivity|].
  apply (constructed_graph_nodes_are_the_declared_ones scenario_5
           example_manifest_class2block_class scenario_5_graph).
  vm_compute. reflexivity.
Defined.

(** *** Edges *)

(** The edge of a workflow output, once made, stays. *)
Lemma output_reference_edge wd m G u v :
  construct_graph wd m = Ok G → output_reference wd u v →
  has_edge G u v = true.
Proof.
  intros HG (o & Ho & -> & ->).
  unfold construct_graph in HG. fold (construct_nodes wd) in HG.
  destruct (add_steps_edges wd (construct_nodes wd) m) as [G1|] eqn:HG1; [|done].
  simpl in HG. revert HG.
  apply (for_each_established _
           (λ G, has_edge G (output_target o)
                   (construct_output_name (output_name o)) = true) _ _ _ o);
    [done| |].
  - intros G2 G3 (_ & _ & ->)%add_edge_for_output_target.
    apply has_edge_add_edge.
  - intros G2 o' G3 Hedge (_ & _ & ->)%add_edge_for_output_target.
    by apply has_edge_add_edge_mono.
Qed.

(** Every edge was asked for by a selector of a step or by an output. *)
Lemma construct_graph_edges_requested wd m G u v :
  construct_graph wd m = Ok G → (u, v) ∈ (_adj G).*1 → requested_edge wd u v.
Proof.
  intros HG. revert u v. revert HG.
  apply (construct_graph_invariant wd
           (λ G, ∀ u v, (u, v) ∈ (_adj G).*1 → requested_edge wd u v)).
  - intros G1 step sd Hstep Hsd Hdata _ _ HG1 u v.
    rewrite edge_add_edge. intros [[= -> ->]|Huv]; [|by apply HG1].
    left. by exists step, sd.
  - intros G1 step sd Hstep Hsd Hpure _ _ HG1 u v. simpl.
    rewrite edge_add_edge. intros [[= -> ->]|Huv]; [|by apply HG1].
    right. left. by exists step, sd.
  - intros G1 o Ho _ _ HG1 u v.
    rewrite edge_add_edge. intros [[= -> ->]|Huv]; [|by apply HG1].
    right. right. by exists o.
  - intros u v. rewrite construct_nodes_adj. by intros ?%elem_of_nil.
Qed.

(** X2. The edges of a constructed graph are exactly the requested ones:
    from the target of a data selector to the step that holds it, from a
    step to the step that one of its pure step selectors names, and from the
    target of an output's selector to the output. *)
Theorem constructed_graph_edges_are_the_requested_ones
    (wd : ParsedWorkflowDefinition) (m : gmap string WorkflowBlock)
    (G : DiGraph) :
  construct_graph wd m = Ok G →
  ∀ u v, has_edge G u v = true ↔ requested_edge wd u v.
Proof.
  intros HG u v. split.
  - intros Huv%has_edge_true. by eapply construct_graph_edges_requested.
  - intros [Hdata|[Hflow|Hout]].
    + by eapply data_reference_edge.
    + by eapply flow_control_reference_marked.
    + by eapply output_reference_edge.
Qed.

Lemma constructed_graph_edges_are_the_requested_ones_witness :
  has_edge scenario_5_graph "$steps.C" "$steps.G" = true ∧
  requested_edge scenario_5 "$steps.C" "$steps.G" ∧
  ¬ requested_edge scenario_5 "$steps.B" "$steps.G".
Proof.
  assert (construct_graph scenario_5 example_manifest_class2block_class
          = Ok scenario_5_graph) as HG by (vm_compute; reflexivity).
  pose proof (constructed_graph_edges_are_the_requested_ones _ _ _ HG) as Hedges.
  split; [vm_compute; reflexivity|]. split.
  - apply Hedges. vm_compute. reflexivity.
  - intros Hreq%Hedges. vm_compute in Hreq. discriminate.
Defined.

(** *** Flow-control marks *)

Lemma is_flow_control_step_set_inv G n n' :
  is_flow_control_step (set_flow_control_node G n) n' = true →
  n' = n ∨ is_flow_control_step G n' = true.
Proof.
  unfold is_flow_control_step. rewrite node_attrs_set_flow_control_node.
  destruct (node_attrs G n') as [a|]; simpl; [|done].
  case_decide; auto.
Qed.

Lemma construct_nodes_no_flow_control wd n :
  is_flow_control_step (construct_nodes wd) n = false.
Proof.
  unfold is_flow_control_step.
  destruct (node_attrs (construct_nodes wd) n) as [a|] eqn:Ha; [|done].
  assert (node_attrs (construct_nodes wd) n ≫= flow_control_node = None) as Hf.
  { unfold construct_nodes, add_output_nodes_for_graph,
      add_steps_nodes_for_graph, add_input_nodes_for_graph.
    by rewrite !add_nodes_loop_flow. }
  rewrite Ha in Hf. simpl in Hf. by rewrite Hf.
Qed.

Lemma construct_graph_marks_requested wd m G n :
  construct_graph wd m = Ok G → is_flow_control_step G n = true →
  ∃ v, flow_control_reference wd n v.
Proof.
  intros HG. revert n. revert HG.
  apply (construct_graph_invariant wd
           (λ G, ∀ n, is_flow_control_step G n = true →
                      ∃ v, flow_control_reference wd n v)).
  - intros G1 step sd _ _ _ Hs Ht HG1 n. unfold is_flow_control_step.
    rewrite node_attrs_add_edge_present by done. apply HG1.
  - intros G1 step sd Hstep Hsd Hpure Hs Ht HG1 n
      [->|Hn]%is_flow_control_step_set_inv.
    + eexists. by exists step, sd.
    + apply HG1. revert Hn. unfold is_flow_control_step.
      by rewrite node_attrs_add_edge_present.
  - intros G1 o _ Ht Hn HG1 n. unfold is_flow_control_step.
    rewrite node_attrs_add_edge_present by done. apply HG1.
  - intros n. by rewrite construct_nodes_no_flow_control.
Qed.

(** X3. In a constructed graph the steps marked as flow-control steps are
    exactly the steps that hold a pure step selector; inputs, outputs and
    steps that only read data are never marked. *)
Theorem flow_control_steps_are_the_steps_with_step_selectors
    (wd : ParsedWorkflowDefinition) (m : gmap string WorkflowBlock)
    (G : DiGraph) :
  construct_graph wd m = Ok G →
  ∀ n, is_flow_control_step G n = true ↔ ∃ v, flow_control_reference wd n v.
Proof.
  intros HG n. split.
  - by eapply construct_graph_marks_requested.
  - intros [v Hv]. by eapply flow_control_reference_marked.
Qed.

Lemma flow_control_steps_are_the_steps_with_step_selectors_witness :
  is_flow_control_step scenario_5_graph "$steps.if" = true ∧
  (∃ v, flow_control_reference scenario_5 "$steps.if" v) ∧
  ¬ (∃ v, flow_control_reference scenario_5 "$steps.G" v).
Proof.
  assert (construct_graph scenario_5 example_manifest_class2block_class
          = Ok scenario_5_graph) as HG by (vm_compute; reflexivity).
  pose proof (flow_control_steps_are_the_steps_with_step_selectors _ _ _ HG)
    as Hmarks.
  split; [vm_compute; reflexivity|]. split.
  - apply Hmarks. vm_compute. reflexivity.
  - intros Hreq%Hmarks. vm_compute in Hreq. discriminate.
Defined.

(** *** One edge between two nodes *)

Lemma NoDup_adj_add_edge G u v :
  NoDup (_adj G).*1 → NoDup (_adj (add_edge G u v)).*1.
Proof.
  intros Hnd. rewrite adj_add_edge. destruct (has_edge G u v) eqn:He; [done|].
  rewrite fmap_app. apply NoDup_app. split; [done|]. split.
  - intros x Hx ->%list_elem_of_singleton.
    apply has_edge_true in Hx. congruence.
  - apply NoDup_singleton.
Qed.

Lemma NoDup_successors G u : NoDup (_adj G).*1 → NoDup (successors G u).
Proof.
  unfold successors, out_edges.
  induction (_adj G) as [|[[a b] d] l IH]; csimpl; [intros; apply NoDup_nil_2|].
  intros [Hab Hl]%NoDup_cons. rewrite filter_cons. simpl.
  case_decide as Ha; [|by apply IH]. subst a. csimpl. apply NoDup_cons.
  split; [|by apply IH].
  intros ([[a' b'] d'] & -> & [Ha' Hin]%list_elem_of_filter)%list_elem_of_fmap.
  simpl in *. subst a'. apply Hab, list_elem_of_fmap. by exists (u, b', d').
Qed.

Lemma NoDup_edges G :
  NoDup (nodes G) → NoDup (_adj G).*1 → NoDup (edges G).
Proof.
  intros Hnodes Hadj. unfold edges.
  induction Hnodes as [|n l Hn Hl IH]; csimpl; [apply NoDup_nil_2|].
  apply NoDup_app. split; [|split; [|done]].
  - apply NoDup_fmap_2; [by intros ?? [=]|]. by apply NoDup_successors.
  - intros [a b] (w & [= -> ->] & _)%list_elem_of_fmap
      (l' & Hin & (n' & -> & Hn')%list_elem_of_fmap)%list_elem_of_join.
    apply list_elem_of_fmap in Hin as (w' & [= -> ->] & _). done.
Qed.

(** X4. A constructed graph holds at most one edge between two nodes,
    however many selectors ask for it: [G.edges()] has no repetition, and
    the in-degree of a node is the number of its distinct parents. *)
Theorem constructed_graph_has_no_parallel_edges
    (wd : ParsedWorkflowDefinition) (m : gmap string WorkflowBlock)
    (G : DiGraph) :
  construct_graph wd m = Ok G →
  NoDup (edges G) ∧
  ∀ v, in_degree G v
       = Z.of_nat (size (list_to_set (C := gset string)
                           (filter (λ u, has_edge G u v = true) (nodes G)))).
Proof.
  intros HG.
  assert (NoDup (_adj G).*1) as Hadj.
  { revert HG. apply (construct_graph_keeps (λ G, NoDup (_adj G).*1)).
    - intros. by apply NoDup_adj_add_edge.
    - done.
    - rewrite construct_nodes_adj. apply NoDup_nil_2. }
  pose proof (construct_graph_wf _ _ _ HG) as [Hnodes Hends].
  split; [by apply NoDup_edges|]. intros v. unfold in_degree. f_equal.
  rewrite size_list_to_set by by apply NoDup_filter.
  rewrite <-(length_fmap fst
               (filter (λ e : string * string * gmap string bool, e.1.2 = v)
                  (_adj G))).
  rewrite <-(length_fmap (λ u : string, (u, v))
               (filter (λ u, has_edge G u v = true) (nodes G))).
  apply Permutation_length, NoDup_Permutation.
  - clear Hends. induction (_adj G) as [|[[a b] d] l IH]; csimpl;
      [apply NoDup_nil_2|].
    apply NoDup_cons in Hadj as [Hab Hl]. rewrite filter_cons. simpl.
    case_decide; [|by apply IH]. csimpl. apply NoDup_cons. split; [|by apply IH].
    intros (e & He & [_ Hin]%list_elem_of_filter)%list_elem_of_fmap.
    apply Hab, list_elem_of_fmap. by exists e.
  - apply NoDup_fmap_2; [by intros ?? [=]|]. by apply NoDup_filter.
  - intros [a b]. rewrite !list_elem_of_fmap. split.
    + intros ([[a' b'] d] & [= <- <-] & [Hb Hin]%list_elem_of_filter).
      simpl in Hb. subst b. exists a. split; [done|].
      assert ((a, v) ∈ (_adj G).*1) as Hedge
        by (apply list_elem_of_fmap; by exists (a, v, d)).
      apply list_elem_of_filter. split; [by apply has_edge_true|].
      by apply (Hends a v).
    + intros (u & [= -> ->] & [Hedge _]%list_elem_of_filter).
      apply has_edge_true, list_elem_of_fmap in Hedge
        as ([[a' b'] d] & [= <- <-] & Hin).
      exists (u, v, d). split; [done|]. by apply list_elem_of_filter.
Qed.

Lemma constructed_graph_has_no_parallel_edges_witness :
  NoDup (edges scenario_5_graph) ∧ in_degree scenario_5_graph "$steps.G" = 2%Z.
Proof.
  assert (construct_graph scenario_5 example_manifest_class2block_class
          = Ok scenario_5_graph) as HG by (vm_compute; reflexivity).
  destruct (constructed_graph_has_no_parallel_edges _ _ _ HG) as [Hnd Hdeg].
  split; [done|]. rewrite Hdeg. vm_compute. reflexivity.
Defined.

(** ** Loops that raise *)

(** The loop raises when the body can only return or raise an error of [Q]
    and raises on one of the elements. *)
Lemma for_each_raises {A S : Type} (body : S → A → Result S)
    (Q : WorkflowError → Prop) l s :
  (∀ s a, a ∈ l → (∃ s', body s a = Ok s') ∨ (∃ e, body s a = Raise e ∧ Q e)) →
  (∃ a, a ∈ l ∧ ∀ s, ∃ e, body s a = Raise e) →
  ∃ e, for_each body l s = Raise e ∧ Q e.
Proof.
  revert s. induction l as [|a l IH]; intros s Hbody (b & Hb & Hraise).
  - by apply elem_of_nil in Hb.
  - simpl. destruct (Hbody s a) as [[s' Hs']|(e & He & HQ)]; [left| |].
    + rewrite Hs'. simpl. apply IH.
      * intros s1 c Hc. apply Hbody. by right.
      * apply elem_of_cons in Hb as [->|Hb]; [|by eauto].
        destruct (Hraise s) as [e He]. congruence.
    + rewrite He. simpl. eauto.
Qed.

(** ** Steps whose block is not registered *)

Lemma steps_defined_registered G m :
  steps_defined G →
  (∀ n step, n ∈ get_nodes_of_specific_kind G STEP_NODE_KIND →
             node_attrs G n ≫= definition = Some (StepDefinition step) →
             is_Some (m !! manifest_class step)) →
  steps_registered G m.
Proof.
  intros Hdef Hreg n Hn. destruct (Hdef n Hn) as [step Hstep].
  destruct (Hreg n step Hn Hstep) as [block Hblock]. by exists step, block.
Qed.

(** The step nodes of a constructed graph carry the manifests of steps. *)
Lemma construct_graph_steps_defined wd m G :
  construct_graph wd m = Ok G → steps_defined G.
Proof.
  intros HG n Hn.
  apply elem_of_get_nodes_of_specific_kind in Hn as (a & Ha & Hk);
    [|apply (construct_graph_wf _ _ _ HG)].
  destruct (construct_graph_nodes _ _ _ HG) as [_ Hattrs].
  destruct (Hattrs n a Ha)
    as [(i & _ & _ & Hk' & _)|[(s & _ & _ & _ & Hd)|(o & _ & _ & Hk' & _)]].
  - rewrite Hk in Hk'. discriminate.
  - exists s. by rewrite Ha.
  - rewrite Hk in Hk'. discriminate.
Qed.

Lemma get_nodes_that_do_not_produce_outputs_unregistered G m n step :
  steps_defined G →
  n ∈ get_nodes_of_specific_kind G STEP_NODE_KIND →
  node_attrs G n ≫= definition = Some (StepDefinition step) →
  m !! manifest_class step = None →
  ∃ n' step',
    n' ∈ get_nodes_of_specific_kind G STEP_NODE_KIND ∧
    node_attrs G n' ≫= definition = Some (StepDefinition step') ∧
    m !! manifest_class step' = None ∧
    get_nodes_that_do_not_produce_outputs G m
    = Raise (KeyError (manifest_class step')).
Proof.
  intros Hdef Hn Hstep Hnone. unfold get_nodes_that_do_not_produce_outputs.
  match goal with |- context [for_each ?body _ _] =>
    destruct (for_each_raises body
                (λ e, ∃ n' step',
                   n' ∈ get_nodes_of_specific_kind G STEP_NODE_KIND ∧
                   node_attrs G n' ≫= definition = Some (StepDefinition step') ∧
                   m !! manifest_class step' = None ∧
                   e = KeyError (manifest_class step'))
                (elements (get_nodes_of_specific_kind G STEP_NODE_KIND)) ∅)
      as (e & He & n' & step' & Hn' & Hstep' & Hnone' & ->)
  end.
  - intros result a Ha%elem_of_elements. destruct (Hdef a Ha) as [sa Hsa].
    rewrite (manifest_of_node_step _ _ _ Hsa). simpl.
    destruct (m !! manifest_class sa) as [block|] eqn:Hblock.
    + left. case_decide; eauto.
    + right. eexists. split; [done|]. by exists a, sa.
  - exists n. split; [by apply elem_of_elements|]. intros result.
    rewrite (manifest_of_node_step _ _ _ Hstep). simpl. rewrite Hnone. eauto.
  - by exists n', step'.
Qed.

(** X5. The step nodes without outputs are looked up in the registered
    blocks: when the manifest class of every step node is registered the
    function returns the step nodes whose block declares no output, and when
    the class of some step node is not registered it raises [KeyError] with
    such a class; the compilation of a definition whose graph is built and
    has no cycle then ends with that [KeyError]. *)
Theorem unregistered_block_class_raises_key_error :
  (∀ G m,
     steps_defined G →
     (steps_registered G m →
      ∃ T, get_nodes_that_do_not_produce_outputs G m = Ok T ∧
           ∀ n, n ∈ T ↔
                n ∈ get_nodes_of_specific_kind G STEP_NODE_KIND ∧
                ∃ step block, step_block G m n step block ∧
                              get_actual_outputs block step = []) ∧
     (∀ n step,
        n ∈ get_nodes_of_specific_kind G STEP_NODE_KIND →
        node_attrs G n ≫= definition = Some (StepDefinition step) →
        m !! manifest_class step = None →
        ∃ n' step',
          n' ∈ get_nodes_of_specific_kind G STEP_NODE_KIND ∧
          node_attrs G n' ≫= definition = Some (StepDefinition step') ∧
          m !! manifest_class step' = None ∧
          get_nodes_that_do_not_produce_outputs G m
          = Raise (KeyError (manifest_class step')))) ∧
  (∀ wd blocks G n step,
     construct_graph wd (manifest_classes_of blocks) = Ok G →
     ¬ has_cycle G →
     n ∈ get_nodes_of_specific_kind G STEP_NODE_KIND →
     node_attrs G n ≫= definition = Some (StepDefinition step) →
     manifest_classes_of blocks !! manifest_class step = None →
     ∃ step',
       step' ∈ steps wd ∧
       manifest_classes_of blocks !! manifest_class step' = None ∧
       prepare_execution_graph wd blocks
       = Raise (KeyError (manifest_class step'))).
Proof.
  split.
  - intros G m Hdef. split.
    + apply get_nodes_that_do_not_produce_outputs_spec.
    + intros n step. by apply get_nodes_that_do_not_produce_outputs_unregistered.
  - intros wd blocks G n step HG Hacyclic Hn Hstep Hnone.
    pose proof (construct_graph_wf _ _ _ HG) as Hwf.
    pose proof (construct_graph_steps_defined _ _ _ HG) as Hdef.
    destruct (get_nodes_that_do_not_produce_outputs_unregistered
                G _ n step Hdef Hn Hstep Hnone)
      as (n' & step' & Hn' & Hstep' & Hnone' & Hraise).
    exists step'. split; [|split; [done|]].
    + destruct (construct_graph_nodes _ _ _ HG) as [_ Hattrs].
      destruct (node_attrs G n') as [a|] eqn:Ha; [|done]. simpl in Hstep'.
      destruct (Hattrs n' a Ha)
        as [(i & _ & _ & _ & Hd)|[(s & Hs & _ & _ & Hd)|(o & _ & _ & _ & Hd)]];
        congruence.
    + unfold prepare_execution_graph. rewrite HG. simpl.
      destruct (is_directed_acyclic_graph_spec G Hwf) as [[? _]|[_ ->]]; [done|].
      simpl. unfold verify_each_node_reach_at_least_one_output.
      by rewrite Hraise.
Qed.

Lemma unregistered_block_class_raises_key_error_witness :
  prepare_execution_graph unregistered_step_workflow example_blocks
  = Raise (KeyError "Unknown").
Proof.
  destruct unregistered_block_class_raises_key_error as [_ Hcompile].
  assert (construct_graph unregistered_step_workflow
            (manifest_classes_of example_blocks) = Ok unregistered_step_graph)
    as HG by (vm_compute; reflexivity).
  destruct (Hcompile unregistered_step_workflow example_blocks
              unregistered_step_graph "$steps.a"
              {| step_name := "a"; manifest_class := "Unknown";
                 manifest_selectors := [] |} HG)
    as (step' & Hstep' & _ & Hraise).
  - apply acyclic_by_test; [by apply (construct_graph_wf _ _ _ HG)|].
    vm_compute. reflexivity.
  - apply elem_of_get_nodes_of_specific_kind;
      [apply (construct_graph_wf _ _ _ HG)|].
    eexists. split; vm_compute; reflexivity.
  - vm_compute. reflexivity.
  - vm_compute. reflexivity.
  - apply list_elem_of_singleton in Hstep'. by subst step'.
Defined.

(** ** The nodes that reach a pointed node *)



(** ** The steps analysed by the branch-isolation pass *)

(** X7. [detect_steps_with_more_than_one_parent_step] returns exactly the
    step nodes that have edges from two different step nodes; edges from
    inputs are not counted and no input or output is ever returned. *)
Theorem steps_with_more_than_one_parent_step (G : DiGraph) (m : string) :
  m ∈ detect_steps_with_more_than_one_parent_step G ↔
  is_step_node G m ∧
  ∃ a b, a ≠ b ∧ is_step_node G a ∧ is_step_node G b ∧
         (a, m) ∈ edges G ∧ (b, m) ∈ edges G.
Proof.
  rewrite elem_of_detect_steps_with_more_than_one_parent_step. naive_solver.
Qed.

(** ** The reversed graph of the steps *)

Lemma edge_remove_node G n u v :
  (u, v) ∈ (_adj (remove_node G n)).*1 ↔
  (u, v) ∈ (_adj G).*1 ∧ u ≠ n ∧ v ≠ n.
Proof.
  unfold remove_node. simpl. rewrite !list_elem_of_fmap. split.
  - intros ([[a b] d] & [= -> ->] & [[Ha Hb] He]%list_elem_of_filter).
    split; [by exists (a, b, d)|done].
  - intros (([[a b] d] & [= -> ->] & He) & Ha & Hb). exists (a, b, d).
    split; [done|]. by apply list_elem_of_filter.
Qed.

Lemma node_attrs_remove_node G n n' :
  n' ≠ n → node_attrs (remove_node G n) n' = node_attrs G n'.
Proof.
  intros Hne. unfold node_attrs, remove_node. simpl.
  induction (_node G) as [|[k a] l IH]; [done|].
  rewrite filter_cons. simpl. case_decide as Hk.
  - simpl. case_decide; [done|apply IH].
  - subst k. rewrite decide_False by done. apply IH.
Qed.

(** The loop of [construct_reversed_graph_with_steps_only] removes the nodes
    of the list that are not steps, with their edges, and nothing else. *)
Lemma remove_non_steps_loop (l : list (string * NodeAttrs)) :
  ∀ G1,
    let G2 := foldl (λ (G : DiGraph) (node : string * NodeAttrs),
                       if decide (kind node.2 ≠ Some STEP_NODE_KIND)
                       then remove_node G node.1 else G) G1 l in
    let dropped n := ∃ a, (n, a) ∈ l ∧ kind a ≠ Some STEP_NODE_KIND in
    (∀ n, n ∈ nodes G2 ↔ n ∈ nodes G1 ∧ ¬ dropped n) ∧
    (∀ u v, (u, v) ∈ (_adj G2).*1 ↔
            (u, v) ∈ (_adj G1).*1 ∧ ¬ dropped u ∧ ¬ dropped v) ∧
    (∀ n, ¬ dropped n → node_attrs G2 n = node_attrs G1 n).
Proof.
  induction l as [|[k a] l IH]; intros G1; simpl.
  - split; [|split]; [| |done].
    + intros n. split; [|tauto]. intros Hn. split; [done|].
      by intros (? & ?%elem_of_nil & _).
    + intros u v. split; [|tauto]. intros Huv.
      split; [done|]. split; by intros (? & ?%elem_of_nil & _).
  - destruct (IH (if decide (kind a ≠ Some STEP_NODE_KIND)
                  then remove_node G1 k else G1)) as (Hn & He & Ha).
    simpl in *. setoid_rewrite elem_of_cons.
    split; [|split].
    + intros n. rewrite Hn. case_decide as Hk.
      * rewrite nodes_remove_node. split.
        -- intros [[Hne HG1] Hnot]. split; [done|].
           intros (a' & [[= -> ->]|Hin] & Hk'); [done|]. apply Hnot. eauto.
        -- intros [HG1 Hnot]. split; [split; [|done]|].
           ++ intros ->. apply Hnot. eauto.
           ++ intros (a' & Hin & Hk'). apply Hnot. eauto.
      * split.
        -- intros [HG1 Hnot]. split; [done|].
           intros (a' & [[= -> ->]|Hin] & Hk'); [done|]. apply Hnot. eauto.
        -- intros [HG1 Hnot]. split; [done|].
           intros (a' & Hin & Hk'). apply Hnot. eauto.
    + intros u v. rewrite He. case_decide as Hk.
      * rewrite edge_remove_node. split.
        -- intros [(Huv & Hu & Hv) [Hnu Hnv]]. split; [done|].
           split; intros (a' & [[= -> ->]|Hin] & Hk'); eauto.
        -- intros (Huv & Hnu & Hnv). split; [split; [done|]|].
           ++ split; intros ->; eauto.
           ++ split; intros (a' & Hin & Hk'); eauto.
      * split.
        -- intros (Huv & Hnu & Hnv). split; [done|].
           split; intros (a' & [[= -> ->]|Hin] & Hk'); eauto.
        -- intros (Huv & Hnu & Hnv). split; [done|].
           split; intros (a' & Hin & Hk'); eauto.
    + intros n Hnot. rewrite Ha by (intros (a' & Hin & Hk'); eauto).
      case_decide as Hk; [|done]. apply node_attrs_remove_node.
      intros ->. eauto.
Qed.

Lemma not_dropped_step_node G n :
  wf_graph G → n ∈ nodes G →
  (¬ ∃ a, (n, a) ∈ _node G ∧ kind a ≠ Some STEP_NODE_KIND) ↔ is_step_node G n.
Proof.
  intros [Hnd _] Hn. unfold is_step_node.
  rewrite (elem_of_get_nodes_of_specific_kind G STEP_NODE_KIND n Hnd). split.
  - intros Hnot. apply node_attrs_is_Some in Hn as [a Ha]. exists a.
    split; [done|]. apply dec_stable. intros Hk. apply Hnot. exists a.
    split; [|done]. by apply assoc_elem_of.
  - intros (a & Ha & Hk) (a' & Hin & Hk').
    apply (assoc_NoDup_elem_of _ _ _ Hnd) in Hin. unfold node_attrs in Ha.
    congruence.
Qed.

(** X8. The graph made by [construct_reversed_graph_with_steps_only] holds
    exactly the step nodes, with their attributes, and exactly the edges
    between step nodes, reversed. *)
Theorem reversed_graph_of_the_steps (G : DiGraph) :
  wf_graph G →
  (∀ n, n ∈ nodes (construct_reversed_graph_with_steps_only G) ↔
        is_step_node G n) ∧
  (∀ u v, has_edge (construct_reversed_graph_with_steps_only G) u v = true ↔
          has_edge G v u = true ∧ is_step_node G u ∧ is_step_node G v) ∧
  (∀ n, is_step_node G n →
        node_attrs (construct_reversed_graph_with_steps_only G) n
        = node_attrs G n).
Proof.
  intros Hwf.
  assert (∀ a b, edge_rel G a b → a ∈ nodes G) as Hsrc.
  { intros a b Hab. by apply (wf_endpoints _ Hwf a b). }
  assert (∀ n, is_step_node G n → n ∈ nodes G) as Hstep.
  { intros n Hn. by eapply get_nodes_of_specific_kind_nodes. }
  destruct (remove_non_steps_loop (_node (reverse G)) (reverse G))
    as (Hn & He & Ha).
  fold (construct_reversed_graph_with_steps_only G) in Hn, He, Ha.
  simpl in Hn, He, Ha. split; [|split].
  - intros n. rewrite Hn. change (nodes (reverse G)) with (nodes G). split.
    + intros [HG Hnot]. by apply not_dropped_step_node.
    + intros Hs. split; [by apply Hstep|].
      apply not_dropped_step_node; [done|by apply Hstep|done].
  - intros u v. rewrite !has_edge_true, He.
    change ((u, v) ∈ (_adj (reverse G)).*1) with (edge_rel (reverse G) u v).
    rewrite (edge_rel_reverse G u v Hsrc). unfold edge_rel. split.
    + intros (Hvu & Hu & Hv). destruct (wf_endpoints _ Hwf v u Hvu).
      split; [done|]. split; by apply not_dropped_step_node.
    + intros (Hvu & Hu & Hv). split; [done|].
      split; apply not_dropped_step_node; auto.
  - intros n Hs. rewrite Ha; [done|].
    apply not_dropped_step_node; [done|by apply Hstep|done].
Qed.

Lemma reversed_graph_of_the_steps_witness :
  nodes (construct_reversed_graph_with_steps_only scenario_5_graph)
  = ["$steps.if"; "$steps.B"; "$steps.E"; "$steps.C"; "$steps.F"; "$steps.G"] ∧
  has_edge (construct_reversed_graph_with_steps_only scenario_5_graph)
    "$steps.G" "$steps.C" = true ∧
  is_step_node scenario_5_graph "$steps.G".
Proof.
  assert (construct_graph scenario_5 example_manifest_class2block_class
          = Ok scenario_5_graph) as HG by (vm_compute; reflexivity).
  destruct (reversed_graph_of_the_steps scenario_5_graph
              (construct_graph_wf _ _ _ HG)) as (Hnodes & Hedges & _).
  split; [vm_compute; reflexivity|].
  assert (has_edge (construct_reversed_graph_with_steps_only scenario_5_graph)
            "$steps.G" "$steps.C" = true) as Hedge by (vm_compute; reflexivity).
  split; [done|]. by apply Hedges in Hedge as (_ & Hs & _).
Defined.

(** ** The branch-isolation pass on graphs that it does not analyse *)

(** X9. When no step has two step parents the branch-isolation pass returns
    at once, whatever the graph, a cycle included; when it has steps to
    analyse and the steps of the graph form a cycle, the topological sort of
    the reversed graph of the steps raises [NetworkXUnfeasible]. *)
Theorem branch_isolation_without_steps_to_analyse (G : DiGraph) :
  (detect_steps_with_more_than_one_parent_step G = ∅ →
   verify_each_node_step_has_parent_in_the_same_branch G = Ok ()) ∧
  (wf_graph G →
   detect_steps_with_more_than_one_parent_step G ≠ ∅ →
   has_cycle (construct_reversed_graph_with_steps_only G) →
   verify_each_node_step_has_parent_in_the_same_branch G
   = Raise NetworkXUnfeasible).
Proof.
  unfold verify_each_node_step_has_parent_in_the_same_branch. split.
  - intros ->. by rewrite size_empty.
  - intros Hwf Hne Hcycle.
    rewrite decide_False
      by (intros Hs%size_empty_iff; apply Hne; by apply leibniz_equiv).
    unfold topological_sort.
    rewrite topological_generations_cyclic;
      [done|by apply construct_reversed_graph_with_steps_only_wf|done].
Qed.

Lemma branch_isolation_without_steps_to_analyse_witness :
  has_cycle scenario_3_graph ∧
  verify_each_node_step_has_parent_in_the_same_branch scenario_3_graph = Ok () ∧
  verify_each_node_step_has_parent_in_the_same_branch cyclic_merge_graph
  = Raise NetworkXUnfeasible.
Proof.
  split; [apply scenario_3_cycle|]. split.
  - apply (branch_isolation_without_steps_to_analyse scenario_3_graph).
    apply set_eq. intros m. rewrite elem_of_empty. split; [|done].
    intros (a & b & Hne & Ha & Hb & _)%elem_of_detect_steps_with_more_than_one_parent_step.
    let l := eval vm_compute in (edges scenario_3_graph) in
    change (edges scenario_3_graph) with l in Ha, Hb.
    rewrite !elem_of_cons, elem_of_nil in Ha, Hb.
    naive_solver.
  - assert (construct_graph cyclic_merge_workflow
              example_manifest_class2block_class = Ok cyclic_merge_graph)
      as HG by (vm_compute; reflexivity).
    apply (branch_isolation_without_steps_to_analyse cyclic_merge_graph).
    + apply (construct_graph_wf _ _ _ HG).
    + intros Hempty.
      assert ("$steps.a" ∈ detect_steps_with_more_than_one_parent_step
                              cyclic_merge_graph) as Hin;
        [|rewrite Hempty in Hin; by apply elem_of_empty in Hin].
      apply elem_of_detect_steps_with_more_than_one_parent_step.
      exists "$steps.b", "$steps.c". split; [simpl; discriminate|].
      split; [vm_compute; in_list|]. split; [vm_compute; in_list|].
      unfold is_step_node.
      rewrite !elem_of_get_nodes_of_specific_kind
        by apply (construct_graph_wf _ _ _ HG).
      repeat split; eexists; split; vm_compute; reflexivity.
    + exists "$steps.a". apply (tc_l _ _ "$steps.b"); [|apply tc_once];
        unfold edge_rel; vm_compute; in_list.
Defined.

(** ** What compilation accepts *)

(** The check of terminal reachability either returns, and then every node
    reaches a terminal, or raises its error. *)
Lemma verify_each_node_reach_at_least_one_output_decided G m :
  wf_graph G → steps_registered G m →
  (verify_each_node_reach_at_least_one_output G m = Ok () ∧
   ∀ n, n ∈ nodes G → reaches_terminal G m n) ∨
  (∃ offenders,
     verify_each_node_reach_at_least_one_output G m
     = Raise (DanglingExecutionBranchError offenders) ∧
     ∃ n, n ∈ nodes G ∧ ¬ reaches_terminal G m n).
Proof.
  intros Hwf Hreg.
  destruct (verify_each_node_reach_at_least_one_output_spec G m Hwf Hreg)
    as [Hok Hraise].
  destruct (get_nodes_that_do_not_produce_outputs_spec G m Hreg)
    as (T & _ & HT).
  destruct (get_nodes_that_are_reachable_spec G
              (get_nodes_of_specific_kind G OUTPUT_NODE_KIND ∪ T) Hwf)
    as (R & _ & HR).
  { intros t [Ht|Ht%HT]%elem_of_union;
      eapply get_nodes_of_specific_kind_nodes; [done|apply Ht]. }
  assert (∀ n, n ∈ R ↔ reaches_terminal G m n) as HR'.
  { intros n. rewrite HR. unfold reaches_terminal, terminal.
    setoid_rewrite elem_of_union. setoid_rewrite HT. done. }
  destruct (decide (Forall (λ n, n ∈ R) (nodes G))) as [Hall|Hsome].
  - left. rewrite Forall_forall in Hall.
    assert (∀ n, n ∈ nodes G → reaches_terminal G m n) as Hall'.
    { intros n Hn. by apply HR', Hall. }
    split; [by apply Hok|done].
  - right. apply not_Forall_Exists in Hsome; [|apply _].
    apply Exists_exists in Hsome as (n & Hn & HnR).
    assert (∃ n, n ∈ nodes G ∧ ¬ reaches_terminal G m n) as Hex.
    { exists n. split; [done|]. by rewrite <-HR'. }
    destruct (Hraise Hex) as (offenders & Hoff & _). eauto.
Qed.

(** What holds of a graph that compilation returned. *)
Lemma prepare_execution_graph_inv
    (wd : ParsedWorkflowDefinition) (blocks : list BlockSpecification)
    (G : DiGraph) :
  prepare_execution_graph wd blocks = Ok G →
  construct_graph wd (manifest_classes_of blocks) = Ok G ∧
  ¬ has_cycle G ∧
  steps_registered G (manifest_classes_of blocks) ∧
  (∀ n, n ∈ nodes G → reaches_terminal G (manifest_classes_of blocks) n) ∧
  (∀ τ m,
     topological_sort (construct_reversed_graph_with_steps_only G) = Ok τ →
     m ∈ detect_steps_with_more_than_one_parent_step G →
     ¬ hazard_1 (construct_reversed_graph_with_steps_only G) τ m ∧
     ¬ hazard_2 (construct_reversed_graph_with_steps_only G) τ m).
Proof.
  unfold prepare_execution_graph.
  destruct (construct_graph wd (manifest_classes_of blocks)) as [G0|] eqn:HG;
    [|done].
  simpl. pose proof (construct_graph_wf _ _ _ HG) as Hwf.
  destruct (is_directed_acyclic_graph_spec G0 Hwf) as [[_ ->]|[Hacyclic ->]];
    [done|].
  simpl. intros Hrest.
  assert (steps_registered G0 (manifest_classes_of blocks)) as Hreg.
  { apply steps_defined_registered;
      [by apply (construct_graph_steps_defined _ _ _ HG)|].
    intros n step Hn Hstep.
    destruct (manifest_classes_of blocks !! manifest_class step) eqn:Hblock;
      [done|].
    destruct (get_nodes_that_do_not_produce_outputs_unregistered
                G0 _ n step (construct_graph_steps_defined _ _ _ HG)
                Hn Hstep Hblock) as (? & ? & _ & _ & _ & Hraise).
    unfold verify_each_node_reach_at_least_one_output in Hrest.
    by rewrite Hraise in Hrest. }
  destruct (verify_each_node_reach_at_least_one_output_decided G0 _ Hwf Hreg)
    as [[Hok Hall]|(offenders & Hraise & _)]; [|by rewrite Hraise in Hrest].
  rewrite Hok in Hrest. simpl in Hrest.
  destruct (verify_each_node_step_has_parent_in_the_same_branch_spec
              G0 Hwf Hacyclic) as (τ0 & Hτ0 & [[_ Hraise]|[Hnone Hpass]]);
    [by rewrite Hraise in Hrest|].
  rewrite Hpass in Hrest. simpl in Hrest. injection Hrest as <-.
  split; [done|]. split; [done|]. split; [done|]. split; [done|].
  intros τ m Hτ Hm. assert (τ = τ0) as -> by congruence.
  split; intros Hh; apply Hnone; exists m; auto.
Qed.

(** X10. Compilation returns a graph exactly when that graph is built from
    the definition, has no cycle, every step node has a registered block,
    every node reaches a terminal and no analysed step shows one of the two
    hazards; the graph returned is the one that was built. *)
Theorem compilation_returns_exactly_the_valid_graphs
    (wd : ParsedWorkflowDefinition) (blocks : list BlockSpecification)
    (G : DiGraph) :
  prepare_execution_graph wd blocks = Ok G ↔
  construct_graph wd (manifest_classes_of blocks) = Ok G ∧
  ¬ has_cycle G ∧
  steps_registered G (manifest_classes_of blocks) ∧
  (∀ n, n ∈ nodes G → reaches_terminal G (manifest_classes_of blocks) n) ∧
  (∀ τ m,
     topological_sort (construct_reversed_graph_with_steps_only G) = Ok τ →
     m ∈ detect_steps_with_more_than_one_parent_step G →
     ¬ hazard_1 (construct_reversed_graph_with_steps_only G) τ m ∧
     ¬ hazard_2 (construct_reversed_graph_with_steps_only G) τ m).
Proof.
  split; [apply prepare_execution_graph_inv|].
  unfold prepare_execution_graph.
  intros (HG & Hacyclic & Hreg & Hall & Hnone). rewrite HG. simpl.
  pose proof (construct_graph_wf _ _ _ HG) as Hwf.
  rewrite (is_directed_acyclic_graph_acyclic G Hwf Hacyclic). simpl.
  destruct (verify_each_node_reach_at_least_one_output_spec G _ Hwf Hreg)
    as [Hok _].
  rewrite (Hok Hall). simpl.
  destruct (verify_each_node_step_has_parent_in_the_same_branch_spec
              G Hwf Hacyclic) as (τ0 & Hτ0 & [[(m & Hm & Hh) _]|[_ ->]]);
    [|done].
  destruct (Hnone τ0 m Hτ0 Hm). tauto.
Qed.

Lemma compilation_returns_exactly_the_valid_graphs_witness :
  prepare_execution_graph branching_workflow example_blocks = Ok branching_graph ∧
  ¬ has_cycle branching_graph ∧
  ∀ n, n ∈ nodes branching_graph →
       reaches_terminal branching_graph (manifest_classes_of example_blocks) n.
Proof.
  assert (prepare_execution_graph branching_workflow example_blocks
          = Ok branching_graph) as Hcompiled by (vm_compute; reflexivity).
  split; [done|].
  apply (compilation_returns_exactly_the_valid_graphs branching_workflow
           example_blocks branching_graph) in Hcompiled
    as (_ & Hacyclic & _ & Hall & _).
  done.
Defined.

(** ** The registered blocks *)

(** X11. The dictionary of the registered blocks maps a manifest class to
    the block of the last specification of that class in the list of the
    available blocks, and holds no other class. *)
Theorem last_block_of_a_manifest_class_is_registered
    (available_blocks : list BlockSpecification) (c : string) :
  manifest_classes_of available_blocks !! c = last_block_of available_blocks c.
Proof.
  unfold manifest_classes_of, last_block_of.
  induction available_blocks as [|b l IH] using rev_ind; [done|].
  rewrite foldl_app, filter_app. simpl. rewrite filter_cons, filter_nil.
  destruct (decide (spec_manifest_class b = c)) as [<-|Hne].
  - by rewrite lookup_insert_eq, last_snoc.
  - rewrite lookup_insert_ne by done. by rewrite app_nil_r.
Qed.

(** ** The flow-control steps of one reversed path *)

Lemma NoDup_predecessor_unique (path l1 l1' l2 l2' : list string) s s' c :
  NoDup path → path = l1 ++ s :: c :: l2 → path = l1' ++ s' :: c :: l2' →
  s = s'.
Proof.
  intros Hnd. revert l1'. revert path Hnd.
  induction l1 as [|a l1 IH]; intros path Hnd l1' -> Heq.
  - destruct l1' as [|a' [|b' l1']]; simplify_eq/=; [done| |].
    + apply NoDup_cons in Hnd as [_ Hnd]. apply NoDup_cons in Hnd as [Hc _].
      destruct Hc. left.
    + apply NoDup_cons in Hnd as [_ Hnd]. apply NoDup_cons in Hnd as [Hc _].
      destruct Hc. rewrite elem_of_app. right. right. left.
  - destruct l1' as [|a' l1']; simplify_eq/=.
    + destruct l1 as [|b l1]; simplify_eq/=.
      * apply NoDup_cons in Hnd as [_ Hnd]. apply NoDup_cons in Hnd as [Hc _].
        destruct Hc. left.
      * apply NoDup_cons in Hnd as [_ Hnd]. apply NoDup_cons in Hnd as [Hc _].
        destruct Hc. rewrite elem_of_app. right. right. left.
    + apply NoDup_cons in Hnd as [_ Hnd]. by eapply (IH _ Hnd l1').
Qed.

(** X12. On one reversed path without repetition, walked with an empty
    dictionary, [denote_flow_control_steps_successors_in_normal_flow]
    records every flow-control step of the path but its first node, each
    with the one node that comes right before it, and counts exactly the
    recorded steps. *)
Theorem flow_control_steps_of_a_single_path (G : DiGraph) (path : list string) :
  NoDup path →
  let r := denote_flow_control_steps_successors_in_normal_flow G path ∅ in
  (∀ c X, r.1 !! c = Some X ↔
          is_flow_control_step G c = true ∧
          ∃ l1 s l2, path = l1 ++ s :: c :: l2 ∧ X = {[s]}) ∧
  r.2 = size (dom r.1).
Proof.
  intros Hnd r.
  destruct (denote_flow_control_steps_successors_spec G path ∅)
    as (Hne & Hcount & Hrec); [by intros c X; rewrite lookup_empty|].
  fold r in Hne, Hcount, Hrec.
  assert (∀ c s, s ∈ default ∅ (r.1 !! c) ↔ recorded_on_path G path c s)
    as Hrec'.
  { intros c s. rewrite Hrec, lookup_empty. simpl. set_solver. }
  assert (∀ c X, r.1 !! c = Some X ↔
                 is_flow_control_step G c = true ∧
                 ∃ l1 s l2, path = l1 ++ s :: c :: l2 ∧ X = {[s]}) as Hkeys.
  { intros c X. split.
    - intros HX. pose proof (Hne c X HX) as HXne.
      apply set_choose_L in HXne as [s Hs].
      pose proof (Hrec' c s) as Hcs. rewrite HX in Hcs. simpl in Hcs.
      destruct (proj1 Hcs Hs) as (Hc & l1 & l2 & Hpath).
      split; [done|]. exists l1, s, l2. split; [done|].
      apply set_eq. intros s'. rewrite elem_of_singleton. split.
      + intros Hs'. pose proof (Hrec' c s') as Hcs'. rewrite HX in Hcs'.
        destruct (proj1 Hcs' Hs') as (_ & l1' & l2' & Hpath').
        symmetry. by eapply (NoDup_predecessor_unique path).
      + by intros ->.
    - intros (Hc & l1 & s & l2 & Hpath & ->).
      assert (s ∈ default ∅ (r.1 !! c)) as Hs.
      { apply Hrec'. split; [done|]. by exists l1, l2. }
      destruct (r.1 !! c) as [X|] eqn:HX; simpl in Hs; [|set_solver].
      f_equal. apply set_eq. intros s'. rewrite elem_of_singleton.
      split; [|by intros ->].
      intros Hs'. pose proof (Hrec' c s') as Hcs'. rewrite HX in Hcs'.
      destruct (proj1 Hcs' Hs') as (_ & l1' & l2' & Hpath').
      symmetry. by eapply (NoDup_predecessor_unique path). }
  split; [done|]. rewrite Hcount. unfold flow_control_steps_on_path.
  assert (dom r.1 = list_to_set
                      (filter (λ n, is_flow_control_step G n = true) (tail path)))
    as ->.
  { apply set_eq. intros c. rewrite elem_of_dom, elem_of_list_to_set,
      list_elem_of_filter. unfold is_Some. setoid_rewrite Hkeys. split.
    - intros (X & Hc & l1 & s & l2 & -> & _). split; [done|].
      destruct l1; simpl; rewrite ?elem_of_app; [left|].
      right. right. left.
    - intros [Hc Hin]. destruct path as [|a path]; simpl in Hin;
        [by apply elem_of_nil in Hin|].
      apply list_elem_of_split in Hin as (l1 & l2 & ->).
      destruct l1 as [|b l1 _] using rev_ind.
      + exists {[a]}. split; [done|]. by exists [], a, l2.
      + exists {[b]}. split; [done|]. exists (a :: l1), b, l2.
        by rewrite <-app_assoc. }
  rewrite size_list_to_set; [done|].
  apply NoDup_filter. destruct path; [done|]. by apply NoDup_cons in Hnd as [_ ?].
Qed.

Lemma flow_control_steps_of_a_single_path_witness :
  (denote_flow_control_steps_successors_in_normal_flow
     (construct_reversed_graph_with_steps_only scenario_5_graph)
     ["$steps.G"; "$steps.C"; "$steps.B"; "$steps.if"] ∅).1
    !! "$steps.if"
  = Some {["$steps.B"]}.
Proof.
  apply (flow_control_steps_of_a_single_path
           (construct_reversed_graph_with_steps_only scenario_5_graph)
           ["$steps.G"; "$steps.C"; "$steps.B"; "$steps.if"]).
  - repeat (apply NoDup_cons; split;
            [rewrite ?elem_of_cons, elem_of_nil; naive_solver|]).
    apply NoDup_nil_2.
  - split; [vm_compute; reflexivity|].
    by exists ["$steps.G"; "$steps.C"], "$steps.B", [].
Defined.

(** ** Edges from a set of input selectors *)

(** [for_each_raises] for a body that is looked at under an invariant of
    the state. *)
Lemma for_each_raises_invariant {A S : Type} (body : S → A → Result S)
    (P : S → Prop) (Q : WorkflowError → Prop) l s :
  (∀ s a, a ∈ l → P s →
          (∃ s', body s a = Ok s' ∧ P s') ∨ (∃ e, body s a = Raise e ∧ Q e)) →
  (∃ a, a ∈ l ∧ ∀ s, P s → ∃ e, body s a = Raise e) →
  P s →
  ∃ e, for_each body l s = Raise e ∧ Q e.
Proof.
  revert s. induction l as [|a l IH]; intros s Hbody (b & Hb & Hraise) Hs.
  - by apply elem_of_nil in Hb.
  - simpl. destruct (Hbody s a) as [(s' & Hs' & HP)|(e & He & HQ)]; [left|done| |].
    + rewrite Hs'. simpl. apply IH; [| |done].
      * intros s1 c Hc. apply Hbody. by right.
      * apply elem_of_cons in Hb as [->|Hb]; [|by eauto].
        destruct (Hraise s Hs) as [e He]. congruence.
    + rewrite He. simpl. eauto.
Qed.

(** X13. [add_edges_for_step_inputs] joins existing nodes only: when the
    step and the target of every selector are nodes of the graph it adds
    the edges from the targets to the step and no node; when the step (the
    set of selectors not being empty) or a target is missing it raises
    [InvalidReferenceTargetError] with a missing node. *)
Theorem step_input_edges_join_existing_nodes
    (G : DiGraph) (input_selectors : gset string) (step_selector : string) :
  (step_selector ∈ nodes G →
   (∀ r, r ∈ input_selectors → input_selector_target r ∈ nodes G) →
   ∃ G', add_edges_for_step_inputs G input_selectors step_selector = Ok G' ∧
         nodes G' = nodes G ∧
         ∀ u v, has_edge G' u v = true ↔
                has_edge G u v = true ∨
                (v = step_selector ∧
                 ∃ r, r ∈ input_selectors ∧ u = input_selector_target r)) ∧
  ((input_selectors ≠ ∅ ∧ step_selector ∉ nodes G) ∨
   (∃ r, r ∈ input_selectors ∧ input_selector_target r ∉ nodes G) →
   ∃ t, (t ∉ nodes G) ∧
        (t = step_selector ∨
         ∃ r, r ∈ input_selectors ∧ t = input_selector_target r) ∧
        add_edges_for_step_inputs G input_selectors step_selector
        = Raise (InvalidReferenceTargetError t)).
Proof.
  unfold add_edges_for_step_inputs.
  match goal with |- context [for_each ?f _ _] => set (body := f) end.
  assert (∀ G1 r, body G1 r =
            _ ← verify_edge_is_created_between_existing_nodes G1
                  (input_selector_target r) step_selector;
            Ok (add_edge G1 (input_selector_target r) step_selector))
    as Hbody by done.
  clearbody body. split.
  - intros Hs Htargets.
    destruct (for_each_returns body (λ G1, nodes G1 = nodes G)
                (elements input_selectors) G) as (G' & HG' & Hnodes); [|done|].
    { intros G1 r Hr%elem_of_elements HG1. rewrite Hbody.
      rewrite verify_edge_ok by (apply has_node_true; rewrite HG1; auto).
      simpl. eexists. split; [done|].
      rewrite nodes_add_edge_present by (rewrite HG1; auto). done. }
    exists G'. split; [done|]. split; [done|]. intros u v.
    rewrite !has_edge_true.
    rewrite (for_each_accumulates body
               (λ (G1 : DiGraph) (e : string * string), e ∈ (_adj G1).*1)
               (λ r (e : string * string),
                  e = (input_selector_target r, step_selector))
               (elements input_selectors) G G'); [| |done].
    + setoid_rewrite elem_of_elements. naive_solver.
    + intros G1 r G2 [a b] _. rewrite Hbody.
      destruct (verify_edge_is_created_between_existing_nodes _ _ _); [|done].
      simpl. intros [= <-]. rewrite edge_add_edge. naive_solver.
  - intros Hmissing.
    destruct (for_each_raises_invariant body (λ G1, nodes G1 = nodes G)
                (λ e, ∃ t, (t ∉ nodes G) ∧
                           (t = step_selector ∨
                            ∃ r, r ∈ input_selectors ∧
                                 t = input_selector_target r) ∧
                           e = InvalidReferenceTargetError t)
                (elements input_selectors) G)
      as (e & He & t & Ht & Hwhich & ->); [| |done|by exists t].
    + intros G1 r Hr%elem_of_elements HG1. rewrite Hbody.
      unfold verify_edge_is_created_between_existing_nodes.
      destruct (has_node G1 (input_selector_target r)) eqn:Htarget; simpl.
      * destruct (has_node G1 step_selector) eqn:Hstep; simpl.
        -- left. eexists. split; [done|]. apply has_node_true in Htarget, Hstep.
           by rewrite nodes_add_edge_present.
        -- right. eexists. split; [done|]. exists step_selector.
           apply has_node_false in Hstep. rewrite HG1 in Hstep. auto.
      * right. eexists. split; [done|]. exists (input_selector_target r).
        apply has_node_false in Htarget. rewrite HG1 in Htarget.
        split; [done|]. split; [|done]. right. by exists r.
    + destruct Hmissing as [[Hne Hs]|(r & Hr & Ht)].
      * apply set_choose_L in Hne as [r Hr]. exists r.
        split; [by apply elem_of_elements|]. intros G1 HG1. rewrite Hbody.
        unfold verify_edge_is_created_between_existing_nodes.
        destruct (has_node G1 (input_selector_target r)); simpl; [|eauto].
        assert (has_node G1 step_selector = false) as ->
          by (apply has_node_false; by rewrite HG1).
        simpl. eauto.
      * exists r. split; [by apply elem_of_elements|]. intros G1 HG1.
        rewrite Hbody. unfold verify_edge_is_created_between_existing_nodes.
        assert (has_node G1 (input_selector_target r) = false) as ->
          by (apply has_node_false; by rewrite HG1).
        simpl. eauto.
Qed.

Lemma step_input_edges_join_existing_nodes_witness :
  (∃ G', add_edges_for_step_inputs (construct_nodes scenario_4)
           {["$inputs.img"; "$steps.aux.y"]} "$steps.main" = Ok G' ∧
         has_edge G' "$steps.aux" "$steps.main" = true) ∧
  add_edges_for_step_inputs (construct_nodes scenario_4)
    {["$steps.nope.y"]} "$steps.main"
  = Raise (InvalidReferenceTargetError "$steps.nope").
Proof.
  split.
  - destruct (step_input_edges_join_existing_nodes (construct_nodes scenario_4)
                {["$inputs.img"; "$steps.aux.y"]} "$steps.main")
      as [Hreturns _].
    destruct Hreturns as (G' & HG' & _ & Hedges).
    + apply has_node_true. vm_compute. reflexivity.
    + intros r Hr.
      assert (r = "$inputs.img" ∨ r = "$steps.aux.y") as [->| ->]
        by set_solver;
        apply has_node_true; vm_compute; reflexivity.
    + exists G'. split; [done|]. apply Hedges. right. split; [done|].
      exists "$steps.aux.y". split; [set_solver|]. vm_compute. reflexivity.
  - destruct (step_input_edges_join_existing_nodes (construct_nodes scenario_4)
                {["$steps.nope.y"]} "$steps.main") as [_ Hraises].
    destruct Hraises as (t & Ht & [->|(r & Hr & ->)] & Hraise).
    + right. exists "$steps.nope.y". split; [by apply elem_of_singleton|].
      apply has_node_false. vm_compute. reflexivity.
    + destruct Ht. apply has_node_true. vm_compute. reflexivity.
    + apply elem_of_singleton in Hr as ->. exact Hraise.
Defined.

(** ** Indexes by kind *)

Lemma foldl_accumulates2 {A S D1 D2 : Type} (f : S → A → S)
    (view : S → D1 → D2 → Prop) (contributes : A → D1 → D2 → Prop) l s :
  (∀ s1 a d1 d2, a ∈ l →
                 view (f s1 a) d1 d2 ↔ view s1 d1 d2 ∨ contributes a d1 d2) →
  ∀ d1 d2, view (foldl f s l) d1 d2 ↔
           view s d1 d2 ∨ ∃ a, a ∈ l ∧ contributes a d1 d2.
Proof.
  intros Hf d1 d2.
  apply (foldl_accumulates f (λ s d, view s d.1 d.2)
           (λ a d, contributes a d.1 d.2) l s
           (λ s1 a d Ha, Hf s1 a d.1 d.2 Ha) (d1, d2)).
Qed.

Lemma for_each_accumulates2 {A S D1 D2 : Type} (body : S → A → Result S)
    (view : S → D1 → D2 → Prop) (contributes : A → D1 → D2 → Prop) l s s' :
  (∀ s1 a s2 d1 d2, a ∈ l → body s1 a = Ok s2 →
                    view s2 d1 d2 ↔ view s1 d1 d2 ∨ contributes a d1 d2) →
  for_each body l s = Ok s' →
  ∀ d1 d2, view s' d1 d2 ↔ view s d1 d2 ∨ ∃ a, a ∈ l ∧ contributes a d1 d2.
Proof.
  intros Hbody Hs' d1 d2.
  apply (for_each_accumulates body (λ s d, view s d.1 d.2)
           (λ a d, contributes a d.1 d.2) l s s'
           (λ s1 a s2 d Ha, Hbody s1 a s2 d.1 d.2 Ha) Hs' (d1, d2)).
Qed.

Lemma elem_of_defaultdict_add `{Countable A} (d : gmap string (gset A))
    (k : string) (x : A) (k' : string) (x' : A) :
  x' ∈ default ∅ (defaultdict_add d k x !! k') ↔
  x' ∈ default ∅ (d !! k') ∨ (k' = k ∧ x' = x).
Proof.
  unfold defaultdict_add. destruct (decide (k = k')) as [->|Hne].
  - rewrite lookup_insert_eq. simpl. set_solver.
  - rewrite lookup_insert_ne by done. naive_solver.
Qed.

Lemma defaultdict_add_nonempty `{Countable A} (d : gmap string (gset A))
    (k : string) (x : A) :
  (∀ k' X, d !! k' = Some X → X ≠ ∅) →
  ∀ k' X, defaultdict_add d k x !! k' = Some X → X ≠ ∅.
Proof.
  intros Hd k' X. unfold defaultdict_add.
  destruct (decide (k = k')) as [->|Hne].
  - rewrite lookup_insert_eq. intros [= <-]. set_solver.
  - rewrite lookup_insert_ne by done. apply Hd.
Qed.

Lemma elem_of_get_all_outputs_kind_major (blocks : list BlockDescription) k b :
  b ∈ default ∅ (get_all_outputs_kind_major blocks !! k) ↔
  ∃ block, block ∈ blocks ∧ description_block_class block = b ∧
           (k = kind_name WILDCARD_KIND ∨ produces_kind block k).
Proof.
  unfold get_all_outputs_kind_major.
  rewrite (foldl_accumulates2 _
             (λ (m : gmap string (gset string)) k b, b ∈ default ∅ (m !! k))
             (λ block k b, description_block_class block = b ∧
                           (k = kind_name WILDCARD_KIND ∨ produces_kind block k))).
  + rewrite lookup_empty. simpl. rewrite elem_of_empty. naive_solver.
  + clear k b. intros m block k b _.
    rewrite (foldl_accumulates2 _
               (λ (m : gmap string (gset string)) k b, b ∈ default ∅ (m !! k))
               (λ output k b,
                  description_block_class block = b ∧
                  ∃ single_kind, single_kind ∈ output_definition_kind output ∧
                                 kind_name single_kind = k)).
    * rewrite elem_of_defaultdict_add. unfold produces_kind. naive_solver.
    * clear k b. intros m1 output k b _.
      rewrite (foldl_accumulates2 _
                 (λ (m : gmap string (gset string)) k b,
                    b ∈ default ∅ (m !! k))
                 (λ single_kind k b,
                    description_block_class block = b ∧
                    kind_name single_kind = k)).
      -- naive_solver.
      -- clear k b. intros m2 single_kind k b _.
         rewrite elem_of_defaultdict_add. naive_solver.
Qed.

(** X14. The producers-by-kind index maps the name of the wildcard kind to
    every described block and the name of any other kind to the blocks that
    declare an output of a kind of that name; no entry is empty. *)
Theorem producers_by_kind (blocks : list BlockDescription) :
  (∀ k b,
     b ∈ default ∅ (get_all_outputs_kind_major blocks !! k) ↔
     ∃ block, block ∈ blocks ∧ description_block_class block = b ∧
              (k = kind_name WILDCARD_KIND ∨ produces_kind block k)) ∧
  (∀ k X, get_all_outputs_kind_major blocks !! k = Some X → X ≠ ∅).
Proof.
  split; [apply elem_of_get_all_outputs_kind_major|].
  unfold get_all_outputs_kind_major.
  - apply (foldl_invariant _
             (λ m : gmap string (gset string), ∀ k X, m !! k = Some X → X ≠ ∅)).
    + intros m block _ Hm.
      apply (foldl_invariant _
               (λ m : gmap string (gset string),
                  ∀ k X, m !! k = Some X → X ≠ ∅)).
      * intros m1 output _ Hm1.
        apply (foldl_invariant _
                 (λ m : gmap string (gset string),
                    ∀ k X, m !! k = Some X → X ≠ ∅)); [|done].
        intros m2 single_kind _ Hm2. by apply defaultdict_add_nonempty.
      * by apply defaultdict_add_nonempty.
    + intros k X. by rewrite lookup_empty.
Qed.

Lemma elem_of_get_all_inputs_kind_major blocks all_schemas m k d :
  get_all_inputs_kind_major blocks all_schemas = Ok m →
  d ∈ default ∅ (m !! k) ↔
  ∃ b metadata name sel ref,
    b ∈ blocks ∧
    all_schemas !! description_block_class b = Some metadata ∧
    selectors metadata !! name = Some sel ∧
    ref ∈ allowed_references sel ∧
    selected_element ref ≠ STEP_AS_SELECTED_ELEMENT ∧
    (k = kind_name WILDCARD_KIND ∨
     ∃ single_kind, single_kind ∈ reference_kind ref ∧
                    kind_name single_kind = k) ∧
    d = property_definition_of b sel ref.
Proof.
  unfold get_all_inputs_kind_major. intros Hm.
  eapply (for_each_accumulates2 _
            (λ (m : gmap string (gset BlockPropertyDefinition)) k d,
               d ∈ default ∅ (m !! k))
            (λ b k d,
               ∃ metadata name sel ref,
                 all_schemas !! description_block_class b = Some metadata ∧
                 selectors metadata !! name = Some sel ∧
                 ref ∈ allowed_references sel ∧
                 selected_element ref ≠ STEP_AS_SELECTED_ELEMENT ∧
                 (k = kind_name WILDCARD_KIND ∨
                  ∃ single_kind, single_kind ∈ reference_kind ref ∧
                                 kind_name single_kind = k) ∧
                 d = property_definition_of b sel ref)) in Hm.
  + rewrite Hm, lookup_empty. simpl. rewrite elem_of_empty. naive_solver.
  + clear k d. intros m1 b m2 k d Hb.
    destruct (all_schemas !! description_block_class b) as [metadata|] eqn:Hmd;
      [|done].
    intros [= <-].
    rewrite (foldl_accumulates2 _
               (λ (m : gmap string (gset BlockPropertyDefinition)) k d,
                  d ∈ default ∅ (m !! k))
               (λ sel k d,
                  ∃ ref, ref ∈ allowed_references sel ∧
                    selected_element ref ≠ STEP_AS_SELECTED_ELEMENT ∧
                    (k = kind_name WILDCARD_KIND ∨
                     ∃ single_kind, single_kind ∈ reference_kind ref ∧
                                    kind_name single_kind = k) ∧
                    d = property_definition_of b sel ref)).
    * apply or_iff_compat_l. split.
      -- intros (sel & Hsel & ref & Href & Hne & Hk & ->).
         apply list_elem_of_fmap in Hsel as ([name sel'] & -> & Hsel).
         apply elem_of_map_to_list in Hsel.
         by exists metadata, name, sel', ref.
      -- intros (metadata' & name & sel & ref & [= <-] & Hsel & Href & Hne
                 & Hk & ->).
         exists sel. split; [|by exists ref].
         apply list_elem_of_fmap. exists (name, sel). split; [done|].
         by apply elem_of_map_to_list.
    * clear k d. intros m3 sel k d _.
      rewrite (foldl_accumulates2 _
                 (λ (m : gmap string (gset BlockPropertyDefinition)) k d,
                    d ∈ default ∅ (m !! k))
                 (λ ref k d,
                    selected_element ref ≠ STEP_AS_SELECTED_ELEMENT ∧
                    (k = kind_name WILDCARD_KIND ∨
                     ∃ single_kind, single_kind ∈ reference_kind ref ∧
                                    kind_name single_kind = k) ∧
                    d = property_definition_of b sel ref)).
      -- naive_solver.
      -- clear k d. intros m4 ref k d _. unfold add_allowed_reference.
         case_decide as Hstep; [naive_solver|].
         fold (property_definition_of b sel ref).
         fold (defaultdict_add
                 (foldl (λ m single_kind,
                           <[kind_name single_kind :=
                               {[property_definition_of b sel ref]}
                               ∪ default ∅ (m !! kind_name single_kind)]> m)
                    m4 (reference_kind ref))
                 (kind_name WILDCARD_KIND)
                 (property_definition_of b sel ref)).
         rewrite elem_of_defaultdict_add.
         rewrite (foldl_accumulates2 _
                    (λ (m : gmap string (gset BlockPropertyDefinition)) k d,
                       d ∈ default ∅ (m !! k))
                    (λ single_kind k d,
                       kind_name single_kind = k ∧
                       d = property_definition_of b sel ref)).
         ++ naive_solver.
         ++ clear k d. intros m5 single_kind k d _.
            etrans;
              [apply (elem_of_defaultdict_add m5 (kind_name single_kind)
                        (property_definition_of b sel ref) k d)|].
            naive_solver.
Qed.

(** X15. The consumers-by-kind index holds, under the name of a kind, one
    definition for every allowed reference of every selector property of
    every described block that is not a reference to a step and that lists
    a kind of that name, and under the name of the wildcard kind one for
    every such reference whatever its kinds; a described block without a
    parsed schema raises [KeyError]. *)
Theorem consumers_by_kind
    (blocks : list BlockDescription)
    (all_schemas : gmap string BlockManifestMetadata) :
  ((∀ b, b ∈ blocks → is_Some (all_schemas !! description_block_class b)) →
   ∃ m, get_all_inputs_kind_major blocks all_schemas = Ok m ∧
        ∀ k d, d ∈ default ∅ (m !! k) ↔
               ∃ b metadata name sel ref,
                 b ∈ blocks ∧
                 all_schemas !! description_block_class b = Some metadata ∧
                 selectors metadata !! name = Some sel ∧
                 ref ∈ allowed_references sel ∧
                 selected_element ref ≠ STEP_AS_SELECTED_ELEMENT ∧
                 (k = kind_name WILDCARD_KIND ∨
                  ∃ single_kind, single_kind ∈ reference_kind ref ∧
                                 kind_name single_kind = k) ∧
                 d = property_definition_of b sel ref) ∧
  (∀ l1 b l2,
     blocks = l1 ++ b :: l2 →
     (∀ b', b' ∈ l1 → is_Some (all_schemas !! description_block_class b')) →
     all_schemas !! description_block_class b = None →
     get_all_inputs_kind_major blocks all_schemas
     = Raise (KeyError (description_block_class b))).
Proof.
  split.
  - intros Hschemas.
    destruct (get_all_inputs_kind_major_returns _ _ Hschemas) as [m Hm].
    exists m. split; [done|]. intros k d.
    by apply elem_of_get_all_inputs_kind_major.
  - intros l1 b l2 -> Hl1 Hnone. unfold get_all_inputs_kind_major.
    rewrite for_each_app.
    match goal with |- context [for_each ?body l1 ∅] =>
      destruct (for_each_returns body (λ _, True) l1 ∅) as (m1 & -> & _);
        [|done|]
    end.
    + intros m b' Hb' _. destruct (Hl1 b' Hb') as [metadata ->]. eauto.
    + simpl. by rewrite Hnone.
Qed.

Lemma consumers_by_kind_witness :
  (∃ m, get_all_inputs_kind_major [condition_block_description] example_schemas
        = Ok m ∧
        {| block_type := "ConditionBlock";
           manifest_type_identifier := "Condition";
           block_property_name := "cond";
           compatible_element := "step_output" |}
        ∈ default ∅ (m !! "boolean")) ∧
  get_all_inputs_kind_major [condition_block_description] ∅
  = Raise (KeyError "ConditionBlock").
Proof.
  split.
  - destruct (consumers_by_kind [condition_block_description] example_schemas)
      as [Hreturns _].
    destruct Hreturns as (m & Hm & Hin).
    + intros b ->%list_elem_of_singleton. eexists. vm_compute. reflexivity.
    + exists m. split; [done|]. apply Hin.
      exists condition_block_description, condition_block_schema, "cond",
        (data_reference "cond" "" boolean_kind),
        {| selected_element := STEP_OUTPUT_AS_SELECTED_ELEMENT;
           reference_kind := [boolean_kind] |}.
      split; [left|]. split; [vm_compute; reflexivity|].
      split; [vm_compute; reflexivity|]. split; [right; left|].
      split; [simpl; discriminate|]. split; [|reflexivity].
      right. exists boolean_kind. split; [left|reflexivity].
  - destruct (consumers_by_kind [condition_block_description] ∅) as [_ Hraises].
    apply (Hraises [] condition_block_description []); [done| |done].
    intros b' Hb'. by apply elem_of_nil in Hb'.
Defined.

Lemma producers_by_kind_witness :
  "TransformBlock"
  ∈ default ∅ (get_all_outputs_kind_major example_block_descriptions !! "value") ∧
  "ConditionBlock"
  ∈ default ∅ (get_all_outputs_kind_major example_block_descriptions !! "*") ∧
  "ConditionBlock"
  ∉ default ∅ (get_all_outputs_kind_major example_block_descriptions !! "value").
Proof.
  destruct (producers_by_kind example_block_descriptions) as [Hin _].
  split; [|split].
  - apply Hin. exists transform_block_description. split; [right; left|].
    split; [done|]. right. eexists _, value_kind. split; [left|].
    split; [left|done].
  - apply Hin. exists condition_block_description. split; [left|].
    split; [done|]. by left.
  - intros (block & Hblock & Hclass & [Hk|(o & sk & Ho & _)])%Hin.
    + discriminate Hk.
    + apply elem_of_cons in Hblock as [->|Hblock].
      * by apply elem_of_nil in Ho.
      * apply list_elem_of_singleton in Hblock as ->. discriminate Hclass.
Defined.

(** ** Connections of one block *)

Lemma elem_of_blocks_matching_property sd
    (output_kind2schemas : gmap string (gset string)) b :
  b ∈ blocks_matching_property sd output_kind2schemas ↔
  ∃ k, accepts_step_output_of_kind sd k ∧
       b ∈ default ∅ (output_kind2schemas !! k).
Proof.
  unfold blocks_matching_property.
  rewrite (foldl_accumulates _ (λ (X : gset string) b, b ∈ X)
             (λ ref b,
                selected_element ref = STEP_OUTPUT_AS_SELECTED_ELEMENT ∧
                ∃ single_kind,
                  single_kind ∈ reference_kind ref ∧
                  b ∈ default ∅ (output_kind2schemas !! kind_name single_kind))).
  - rewrite elem_of_empty. unfold accepts_step_output_of_kind. naive_solver.
  - clear b. intros X ref b _. case_decide as Hne; [naive_solver|].
    rewrite (foldl_accumulates _ (λ (X : gset string) b, b ∈ X)
               (λ single_kind b,
                  b ∈ default ∅ (output_kind2schemas !! kind_name single_kind))).
    + naive_solver.
    + clear b. intros X1 single_kind b _. by rewrite elem_of_union.
Qed.

(** A loop that stores one value per key. *)
Lemma foldl_insert_lookup {A V : Type} (key : A → string) (value : A → V)
    (l : list A) (m : gmap string V) (k : string) :
  foldl (λ m a, <[key a := value a]> m) m l !! k
  = match last (filter (λ a, key a = k) l) with
    | Some a => Some (value a)
    | None => m !! k
    end.
Proof.
  revert m. induction l as [|a l IH] using rev_ind; intros m; [done|].
  rewrite foldl_app, filter_app. simpl. rewrite filter_cons, filter_nil.
  destruct (decide (key a = k)) as [<-|Hne].
  - by rewrite lookup_insert_eq, last_snoc.
  - rewrite lookup_insert_ne by done. rewrite app_nil_r. apply IH.
Qed.

Lemma last_filter_Some {A} (P : A → Prop) `{∀ x, Decision (P x)} (l : list A) a :
  last (filter P l) = Some a → a ∈ l ∧ P a.
Proof.
  intros Hlast. apply last_Some in Hlast as [l' Hl'].
  assert (a ∈ filter P l) as [HP Ha]%list_elem_of_filter; [|done].
  rewrite Hl', elem_of_app. right. left.
Qed.

Lemma last_filter_None {A} (P : A → Prop) `{∀ x, Decision (P x)} (l : list A) :
  last (filter P l) = None ↔ ∀ a, a ∈ l → ¬ P a.
Proof.
  rewrite last_None. split.
  - intros Hnil a Ha HP.
    assert (a ∈ filter P l) as Hin by by apply list_elem_of_filter.
    rewrite Hnil in Hin. by apply elem_of_nil in Hin.
  - intros Hall. destruct (filter P l) as [|a l'] eqn:Hl; [done|].
    assert (a ∈ filter P l) as [HP Ha]%list_elem_of_filter by (rewrite Hl; left).
    by destruct (Hall a Ha).
Qed.

Lemma discover_block_input_connections_spec
    (starting_block : string)
    (all_schemas : gmap string BlockManifestMetadata)
    (output_kind2schemas : gmap string (gset string))
    (metadata : BlockManifestMetadata) :
  all_schemas !! starting_block = Some metadata →
  ∃ result,
    discover_block_input_connections starting_block all_schemas
      output_kind2schemas = Ok result ∧
    (∀ p, is_Some (result !! p) ↔
          ∃ name sd, selectors metadata !! name = Some sd ∧
                     property_name sd = p) ∧
    (∀ p X, result !! p = Some X →
            ∃ name sd,
              selectors metadata !! name = Some sd ∧
              property_name sd = p ∧
              ∀ b, b ∈ X ↔
                   ∃ k, accepts_step_output_of_kind sd k ∧
                        b ∈ default ∅ (output_kind2schemas !! k)).
Proof.
  unfold discover_block_input_connections.
  intros ->. eexists. split; [done|].
  assert (∀ sd, sd ∈ (map_to_list (selectors metadata)).*2 ↔
                ∃ name, selectors metadata !! name = Some sd) as Hvalues.
  { intros sd. rewrite list_elem_of_fmap. split.
    - intros ([name sd'] & -> & Hin%elem_of_map_to_list). by exists name.
    - intros [name Hname]. exists (name, sd). split; [done|].
      by apply elem_of_map_to_list. }
  split.
  - intros p.
    rewrite (foldl_insert_lookup property_name
               (λ sd, blocks_matching_property sd output_kind2schemas)).
    destruct (last _) as [sd|] eqn:Hlast.
    + apply last_filter_Some in Hlast as [[name Hname]%Hvalues Hp].
      split; [|by eauto]. intros _. by exists name, sd.
    + rewrite lookup_empty. split; [by intros []|].
      intros (name & sd & Hname & Hp).
      rewrite last_filter_None in Hlast. destruct (Hlast sd); [|done].
      apply Hvalues. by exists name.
  - intros p X.
    rewrite (foldl_insert_lookup property_name
               (λ sd, blocks_matching_property sd output_kind2schemas)).
    destruct (last _) as [sd|] eqn:Hlast; [|by rewrite lookup_empty].
    intros [= <-].
    apply last_filter_Some in Hlast as [[name Hname]%Hvalues Hp].
    exists name, sd. split; [done|]. split; [done|].
    apply elem_of_blocks_matching_property.
Qed.

(** X16. [discover_block_input_connections] raises [KeyError] for a block
    without parsed schema; otherwise it returns one entry for every name of
    a selector property of the block, holding the blocks registered in the
    producers-by-kind index under a kind that the property accepts from a
    step output; references to inputs and to steps contribute nothing. *)
Theorem input_connections_of_a_block
    (starting_block : string)
    (all_schemas : gmap string BlockManifestMetadata)
    (output_kind2schemas : gmap string (gset string)) :
  (all_schemas !! starting_block = None →
   discover_block_input_connections starting_block all_schemas
     output_kind2schemas
   = Raise (KeyError starting_block)) ∧
  (∀ metadata,
     all_schemas !! starting_block = Some metadata →
     ∃ result,
       discover_block_input_connections starting_block all_schemas
         output_kind2schemas = Ok result ∧
       (∀ p, is_Some (result !! p) ↔
             ∃ name sd, selectors metadata !! name = Some sd ∧
                        property_name sd = p) ∧
       (∀ p X, result !! p = Some X →
               ∃ name sd,
                 selectors metadata !! name = Some sd ∧
                 property_name sd = p ∧
                 ∀ b, b ∈ X ↔
                      ∃ k, accepts_step_output_of_kind sd k ∧
                           b ∈ default ∅ (output_kind2schemas !! k))).
Proof.
  split.
  - unfold discover_block_input_connections. by intros ->.
  - apply discover_block_input_connections_spec.
Qed.

Lemma Ok_inj {A : Type} (x y : A) : Ok x = Ok y → x = y.
Proof. by intros [=]. Qed.

Lemma input_connections_of_a_block_witness :
  ∃ result,
    discover_block_input_connections "ConditionBlock" example_schemas
      (get_all_outputs_kind_major example_block_descriptions) = Ok result ∧
    result !! "step_if_true" = Some ∅ ∧
    discover_block_input_connections "TransformBlock" example_schemas
      (get_all_outputs_kind_major example_block_descriptions)
    = Raise (KeyError "TransformBlock").
Proof.
  destruct (input_connections_of_a_block "ConditionBlock" example_schemas
              (get_all_outputs_kind_major example_block_descriptions))
    as [_ Hreturns].
  destruct (Hreturns condition_block_schema) as (result & Hresult & _ & _);
    [vm_compute; reflexivity|].
  exists result. split; [done|]. split.
  - unfold discover_block_input_connections in Hresult.
    assert (example_schemas !! "ConditionBlock" = Some condition_block_schema)
      as Hschema by (vm_compute; reflexivity).
    rewrite Hschema in Hresult. apply Ok_inj in Hresult. subst result.
    vm_compute. reflexivity.
  - apply (input_connections_of_a_block "TransformBlock" example_schemas
             (get_all_outputs_kind_major example_block_descriptions)).
    vm_compute. reflexivity.
Defined.

(** The loop over the kinds of one output: the shared index gains empty
    entries only. *)
Lemma compatible_blocks_loop (kinds : list Kind)
    (acc : gset string * gmap string (gset string)) :
  let r := foldl (λ (acc : gset string * gmap string (gset string)) single_kind,
                    let r := defaultdict_getitem acc.2 (kind_name single_kind) in
                    (acc.1 ∪ r.1, r.2))
             acc kinds in
  (∀ k, default ∅ (r.2 !! k) = default ∅ (acc.2 !! k)) ∧
  (∀ k X, acc.2 !! k = Some X → r.2 !! k = Some X) ∧
  (∀ b, b ∈ r.1 ↔
        b ∈ acc.1 ∨
        ∃ single_kind, single_kind ∈ kinds ∧
                       b ∈ default ∅ (acc.2 !! kind_name single_kind)).
Proof.
  revert acc. induction kinds as [|single_kind kinds IH]; intros acc; simpl.
  - split; [done|]. split; [done|]. intros b. split; [auto|].
    intros [?|(? & ?%elem_of_nil & _)]; done.
  - destruct (IH (acc.1 ∪ (defaultdict_getitem acc.2 (kind_name single_kind)).1,
                  (defaultdict_getitem acc.2 (kind_name single_kind)).2))
      as (Hsame & Hkept & Hin).
    simpl in *.
    assert (∀ k, default ∅
                   ((defaultdict_getitem acc.2 (kind_name single_kind)).2 !! k)
                 = default ∅ (acc.2 !! k)) as Hget.
    { intros k. unfold defaultdict_getitem.
      destruct (acc.2 !! kind_name single_kind) eqn:Hk; [done|]. simpl.
      destruct (decide (kind_name single_kind = k)) as [<-|Hne].
      - by rewrite lookup_insert_eq, Hk.
      - by rewrite lookup_insert_ne. }
    assert ((defaultdict_getitem acc.2 (kind_name single_kind)).1
            = default ∅ (acc.2 !! kind_name single_kind)) as Hvalue.
    { unfold defaultdict_getitem.
      by destruct (acc.2 !! kind_name single_kind). }
    split; [|split].
    + intros k. by rewrite Hsame, Hget.
    + intros k X HX. apply Hkept. unfold defaultdict_getitem.
      destruct (acc.2 !! kind_name single_kind) eqn:Hk; [done|]. simpl.
      rewrite lookup_insert_ne; [done|]. intros <-. congruence.
    + intros b. rewrite Hin, elem_of_union, Hvalue.
      setoid_rewrite Hget. setoid_rewrite elem_of_cons. naive_solver.
Qed.

(** The loop over the outputs of a block. *)
Lemma discover_block_output_connections_loop (outputs : list OutputDefinition)
    (input_kind2schemas : gmap string (gset string)) :
  let r := foldl (λ (st : gmap string (gset string) * gmap string (gset string))
                    output,
                    let inner :=
                      foldl (λ (acc : gset string * gmap string (gset string))
                               single_kind,
                               let r := defaultdict_getitem acc.2
                                          (kind_name single_kind) in
                               (acc.1 ∪ r.1, r.2))
                        (∅, st.2) (output_definition_kind output) in
                    (<[output_definition_name output := inner.1]> st.1, inner.2))
             (∅, input_kind2schemas) outputs in
  (∀ k, default ∅ (r.2 !! k) = default ∅ (input_kind2schemas !! k)) ∧
  (∀ k X, input_kind2schemas !! k = Some X → r.2 !! k = Some X) ∧
  (∀ o, is_Some (r.1 !! o) ↔
        ∃ output, output ∈ outputs ∧ output_definition_name output = o) ∧
  (∀ o X, r.1 !! o = Some X →
          ∃ output,
            output ∈ outputs ∧ output_definition_name output = o ∧
            ∀ b, b ∈ X ↔
                 ∃ single_kind,
                   single_kind ∈ output_definition_kind output ∧
                   b ∈ default ∅ (input_kind2schemas !! kind_name single_kind)).
Proof.
  induction outputs as [|output outputs IH] using rev_ind; simpl.
  - split; [done|]. split; [done|]. split.
    + intros o. rewrite lookup_empty. split; [by intros []|].
      by intros (? & ?%elem_of_nil & _).
    + intros o X. by rewrite lookup_empty.
  - rewrite foldl_app. simpl.
    destruct IH as (Hsame & Hkept & Hkeys & Hvalues).
    match goal with |- context [foldl ?f (∅, ?idx) (output_definition_kind output)] =>
      destruct (compatible_blocks_loop (output_definition_kind output) (∅, idx))
        as (Hsame' & Hkept' & Hin')
    end.
    simpl in *. split; [|split; [|split]].
    + intros k. by rewrite Hsame', Hsame.
    + intros k X HX. by apply Hkept', Hkept.
    + intros o. setoid_rewrite elem_of_app.
      setoid_rewrite list_elem_of_singleton.
      destruct (decide (output_definition_name output = o)) as [<-|Hne].
      * rewrite lookup_insert_eq. split; [|by eauto]. intros _. eauto.
      * rewrite lookup_insert_ne by done. rewrite Hkeys. naive_solver.
    + intros o X. setoid_rewrite elem_of_app.
      setoid_rewrite list_elem_of_singleton.
      destruct (decide (output_definition_name output = o)) as [<-|Hne].
      * rewrite lookup_insert_eq. intros [= <-]. exists output.
        split; [by right|]. split; [done|]. intros b. rewrite Hin'.
        rewrite elem_of_empty. setoid_rewrite Hsame. naive_solver.
      * rewrite lookup_insert_ne by done. intros HX.
        destruct (Hvalues o X HX) as (output' & Hin & Hname & HX').
        exists output'. split; [by left|]. done.
Qed.

(** X17. [discover_block_output_connections] returns one entry for every
    name of an output of the block, holding the blocks registered in the
    consumers index under a kind of that output.  The lookups of missing
    kinds add entries to the shared index, all of them empty: the index
    keeps its entries and answers every later lookup as before. *)
Theorem output_connections_of_a_block
    (describe_outputs : string → list OutputDefinition)
    (starting_block : string)
    (input_kind2schemas : gmap string (gset string)) :
  let r := discover_block_output_connections describe_outputs starting_block
             input_kind2schemas in
  (∀ k, default ∅ (r.2 !! k) = default ∅ (input_kind2schemas !! k)) ∧
  (∀ k X, input_kind2schemas !! k = Some X → r.2 !! k = Some X) ∧
  (∀ o, is_Some (r.1 !! o) ↔
        ∃ output, output ∈ describe_outputs starting_block ∧
                  output_definition_name output = o) ∧
  (∀ o X, r.1 !! o = Some X →
          ∃ output,
            output ∈ describe_outputs starting_block ∧
            output_definition_name output = o ∧
            ∀ b, b ∈ X ↔
                 ∃ single_kind,
                   single_kind ∈ output_definition_kind output ∧
                   b ∈ default ∅ (input_kind2schemas !! kind_name single_kind)).
Proof.
  apply (discover_block_output_connections_loop
           (describe_outputs starting_block) input_kind2schemas).
Qed.

Lemma output_connections_of_a_block_witness :
  (discover_block_output_connections example_describe_outputs
     "TransformBlock" ∅).2 !! "value" = Some ∅ ∧
  default ∅
    ((discover_block_output_connections example_describe_outputs
        "TransformBlock" ∅).2 !! "value") = ∅ ∧
  is_Some ((discover_block_output_connections example_describe_outputs
              "TransformBlock" ∅).1 !! "y").
Proof.
  destruct (output_connections_of_a_block example_describe_outputs
              "TransformBlock" ∅) as (Hsame & _ & Hkeys & _).
  split; [vm_compute; reflexivity|]. split.
  - by rewrite Hsame, lookup_empty.
  - apply Hkeys. eexists. split; [left|done].
Defined.

(** ** Block-wise formats *)

Lemma elem_of_convert_kinds_mapping_to_block_wise_format
    (detailed_input_kind2schemas : gmap string (gset BlockPropertyDefinition))
    (compatible_elements : gset string) k b :
  b ∈ default ∅ (convert_kinds_mapping_to_block_wise_format
                   detailed_input_kind2schemas compatible_elements !! k) ↔
  ∃ d, d ∈ default ∅ (detailed_input_kind2schemas !! k) ∧
       compatible_element d ∈ compatible_elements ∧
       block_type d = b.
Proof.
  unfold convert_kinds_mapping_to_block_wise_format.
  rewrite (foldl_accumulates2 _
             (λ (m : gmap string (gset string)) k b, b ∈ default ∅ (m !! k))
             (λ (item : string * gset BlockPropertyDefinition) k b,
                item.1 = k ∧
                ∃ d, d ∈ item.2 ∧
                     compatible_element d ∈ compatible_elements ∧
                     block_type d = b)).
  - rewrite lookup_empty. simpl. rewrite elem_of_empty. split.
    + intros [[]|([k' X] & Hin%elem_of_map_to_list & <- & d & Hd & Hc & Hb)].
      exists d. simpl in *. by rewrite Hin.
    + intros (d & Hd & Hc & Hb). right.
      destruct (detailed_input_kind2schemas !! k) as [X|] eqn:HX;
        simpl in Hd; [|set_solver].
      exists (k, X). split; [by apply elem_of_map_to_list|]. simpl. eauto.
  - clear k b. intros m [k' X] k b _. simpl.
    rewrite (foldl_accumulates2 _
               (λ (m : gmap string (gset string)) k b, b ∈ default ∅ (m !! k))
               (λ d k b,
                  k' = k ∧ compatible_element d ∈ compatible_elements ∧
                  block_type d = b)).
    + setoid_rewrite elem_of_elements. naive_solver.
    + clear k b. intros m1 d k b _. case_decide as Hc; [naive_solver|].
      rewrite elem_of_defaultdict_add. naive_solver.
Qed.

(** X18. [convert_kinds_mapping_to_block_wise_format] keeps, under every
    kind, the block types of the definitions whose compatible element is
    one of the given ones; a kind without such a definition gets no entry,
    so that no entry is empty. *)
Theorem block_wise_consumers_by_kind
    (detailed_input_kind2schemas : gmap string (gset BlockPropertyDefinition))
    (compatible_elements : gset string) :
  (∀ k b,
     b ∈ default ∅ (convert_kinds_mapping_to_block_wise_format
                      detailed_input_kind2schemas compatible_elements !! k) ↔
     ∃ d, d ∈ default ∅ (detailed_input_kind2schemas !! k) ∧
          compatible_element d ∈ compatible_elements ∧
          block_type d = b) ∧
  (∀ k X,
     convert_kinds_mapping_to_block_wise_format
       detailed_input_kind2schemas compatible_elements !! k = Some X →
     X ≠ ∅).
Proof.
  split; [apply elem_of_convert_kinds_mapping_to_block_wise_format|].
  unfold convert_kinds_mapping_to_block_wise_format.
  apply (foldl_invariant _
           (λ m : gmap string (gset string), ∀ k X, m !! k = Some X → X ≠ ∅)).
  - intros m item _ Hm.
    apply (foldl_invariant _
             (λ m : gmap string (gset string),
                ∀ k X, m !! k = Some X → X ≠ ∅)); [|done].
    intros m1 d _ Hm1. case_decide; [done|].
    by apply defaultdict_add_nonempty.
  - intros k X. by rewrite lookup_empty.
Qed.

Lemma foldl_insert_map_to_list {V W : Type} (g : V → W) (m : gmap string V) :
  foldl (λ (result : gmap string W) (item : string * V),
           <[item.1 := g item.2]> result) ∅ (map_to_list m)
  = g <$> m.
Proof.
  apply map_eq. intros k.
  rewrite (foldl_insert_lookup fst (λ item : string * V, g item.2)).
  rewrite lookup_fmap, lookup_empty.
  destruct (last _) as [[k' v]|] eqn:Hlast.
  - apply last_filter_Some in Hlast as [Hin%elem_of_map_to_list Hk].
    simpl in *. subst k'. by rewrite Hin.
  - rewrite last_filter_None in Hlast.
    destruct (m !! k) as [v|] eqn:Hv; [|done].
    destruct (Hlast (k, v)); [by apply elem_of_map_to_list|done].
Qed.

(** X19. [convert_property_connections_to_block_wise_connections] keeps the
    blocks it is given and maps each of them to the union of the
    connections of its properties. *)
Theorem block_wise_connections_are_the_unions
    (property_wise_connections : gmap string (gmap string (gset string)))
    (t : string) :
  (is_Some (convert_property_connections_to_block_wise_connections
              property_wise_connections !! t) ↔
   is_Some (property_wise_connections !! t)) ∧
  (∀ b,
     b ∈ default ∅ (convert_property_connections_to_block_wise_connections
                      property_wise_connections !! t) ↔
     ∃ properties p X,
       property_wise_connections !! t = Some properties ∧
       properties !! p = Some X ∧ b ∈ X).
Proof.
  unfold convert_property_connections_to_block_wise_connections.
  rewrite (foldl_insert_map_to_list
             (λ properties : gmap string (gset string),
                foldl (λ (block_connections : gset string) property_connections,
                         block_connections ∪ property_connections)
                  ∅ (map_to_list properties).*2)).
  rewrite lookup_fmap. split.
  - by rewrite fmap_is_Some.
  - intros b.
    destruct (property_wise_connections !! t) as [properties|]; simpl;
      [|set_solver].
    rewrite (foldl_accumulates _ (λ (X : gset string) b, b ∈ X)
               (λ (X : gset string) b, b ∈ X)).
    + rewrite elem_of_empty. split.
      * intros [[]|(X & Hin & Hb)].
        apply list_elem_of_fmap in Hin as ([p X'] & -> & Hin%elem_of_map_to_list).
        by exists properties, p, X'.
      * intros (properties' & p & X & [= <-] & HX & Hb). right. exists X.
        split; [|done]. apply list_elem_of_fmap. exists (p, X).
        split; [done|]. by apply elem_of_map_to_list.
    + intros X1 X2 b' _. by rewrite elem_of_union.
Qed.

(** ** The discovery of all connections *)

Lemma parse_all_schemas_lookup
    (block_manifest_metadata : BlockDescription → BlockManifestMetadata)
    (blocks : list BlockDescription) (c : string) :
  parse_all_schemas block_manifest_metadata blocks !! c
  = block_manifest_metadata <$>
      last (filter (λ block, description_block_class block = c) blocks).
Proof.
  unfold parse_all_schemas.
  rewrite (foldl_insert_lookup description_block_class block_manifest_metadata).
  rewrite lookup_empty. by destruct (last _).
Qed.

Lemma parse_all_schemas_is_Some
    (block_manifest_metadata : BlockDescription → BlockManifestMetadata)
    (blocks : list BlockDescription) (c : string) :
  is_Some (parse_all_schemas block_manifest_metadata blocks !! c) ↔
  ∃ block, block ∈ blocks ∧ description_block_class block = c.
Proof.
  rewrite parse_all_schemas_lookup, fmap_is_Some.
  destruct (last _) as [block|] eqn:Hlast.
  - apply last_filter_Some in Hlast as [Hin Hc]. split; [|by eauto].
    intros _. by exists block.
  - rewrite last_filter_None in Hlast. split; [by intros []|].
    intros (block & Hin & Hc). by destruct (Hlast block).
Qed.

(** The connections of the outputs of a block depend on the answers of the
    index only. *)
Lemma discover_block_output_connections_ext
    (describe_outputs : string → list OutputDefinition) (c : string)
    (idx idx' : gmap string (gset string)) :
  (∀ k, default ∅ (idx !! k) = default ∅ (idx' !! k)) →
  (discover_block_output_connections describe_outputs c idx).1
  = (discover_block_output_connections describe_outputs c idx').1.
Proof.
  intros Hsame. unfold discover_block_output_connections.
  induction (describe_outputs c) as [|output outputs IH] using rev_ind; [done|].
  rewrite !foldl_app. simpl. rewrite IH. f_equal.
  destruct (discover_block_output_connections_loop outputs idx)
    as (Hidx & _ & _ & _).
  destruct (discover_block_output_connections_loop outputs idx')
    as (Hidx' & _ & _ & _).
  simpl in Hidx, Hidx'.
  match goal with |- (foldl ?f (∅, ?j) _).1 = (foldl ?f (∅, ?j') _).1 =>
    destruct (compatible_blocks_loop (output_definition_kind output) (∅, j))
      as (_ & _ & Hin);
    destruct (compatible_blocks_loop (output_definition_kind output) (∅, j'))
      as (_ & _ & Hin')
  end.
  simpl in Hin, Hin'. apply set_eq. intros b. rewrite Hin, Hin'.
  setoid_rewrite Hidx. setoid_rewrite Hidx'. by setoid_rewrite Hsame.
Qed.

(** The loop of [discover_blocks_connections] over the parsed schemas. *)
Lemma discover_connections_loop_spec
    (describe_outputs : string → list OutputDefinition)
    (all_schemas : gmap string BlockManifestMetadata)
    (output_kind2schemas coarse : gmap string (gset string)) :
  ∃ st,
    for_each (discover_connections_of_block describe_outputs all_schemas
                output_kind2schemas)
      (map_to_list all_schemas).*1
      {| input_property_wise_connections := ∅;
         output_property_wise_connections := ∅;
         coarse_input_kind2schemas := coarse |}
    = Ok st ∧
    (∀ c, is_Some (input_property_wise_connections st !! c) ↔
          is_Some (all_schemas !! c)) ∧
    (∀ c, is_Some (output_property_wise_connections st !! c) ↔
          is_Some (all_schemas !! c)) ∧
    (∀ c ins, input_property_wise_connections st !! c = Some ins →
              discover_block_input_connections c all_schemas
                output_kind2schemas = Ok ins) ∧
    (∀ c outs, output_property_wise_connections st !! c = Some outs →
               outs = (discover_block_output_connections describe_outputs
                         c coarse).1).
Proof.
  set (body := discover_connections_of_block describe_outputs all_schemas
                 output_kind2schemas).
  set (keys := (map_to_list all_schemas).*1).
  assert (∀ c, c ∈ keys ↔ is_Some (all_schemas !! c)) as Hkeys.
  { intros c. unfold keys. rewrite list_elem_of_fmap. split.
    - intros ([c' md] & -> & Hin%elem_of_map_to_list). by exists md.
    - intros [md Hmd]. exists (c, md). split; [done|].
      by apply elem_of_map_to_list. }
  set (P := λ st : ConnectionsLoopState,
         (∀ k, default ∅ (coarse_input_kind2schemas st !! k)
               = default ∅ (coarse !! k)) ∧
         (∀ c ins, input_property_wise_connections st !! c = Some ins →
                   discover_block_input_connections c all_schemas
                     output_kind2schemas = Ok ins) ∧
         (∀ c outs, output_property_wise_connections st !! c = Some outs →
                    outs = (discover_block_output_connections describe_outputs
                              c coarse).1)).
  assert (∀ st c, c ∈ keys → P st → ∃ st', body st c = Ok st' ∧ P st') as Hbody.
  { intros st c [md Hmd]%Hkeys (Hidx & Hins & Houts).
    unfold body, discover_connections_of_block.
    destruct (discover_block_input_connections_spec c all_schemas
                output_kind2schemas md Hmd) as (ins & Hin & _).
    rewrite Hin. simpl.
    eexists. split; [done|]. split; [|split]; simpl.
    - intros k.
      destruct (discover_block_output_connections_loop (describe_outputs c)
                  (coarse_input_kind2schemas st)) as (Hsame & _).
      unfold discover_block_output_connections. by rewrite Hsame.
    - intros c' ins'. destruct (decide (c = c')) as [<-|Hne].
      + rewrite lookup_insert_eq. by intros [= <-].
      + rewrite lookup_insert_ne by done. apply Hins.
    - intros c' outs'. destruct (decide (c = c')) as [<-|Hne].
      + rewrite lookup_insert_eq. intros [= <-].
        by apply discover_block_output_connections_ext.
      + rewrite lookup_insert_ne by done. apply Houts. }
  destruct (for_each_returns body P keys
              {| input_property_wise_connections := ∅;
                 output_property_wise_connections := ∅;
                 coarse_input_kind2schemas := coarse |})
    as (st & Hst & (_ & Hins & Houts)); [by auto| |].
  { split; [done|]. split; intros c x; simpl; by rewrite lookup_empty. }
  exists st. split; [done|].
  assert (∀ st1 a st2, body st1 a = Ok st2 →
            input_property_wise_connections st2
            = <[a := default ∅ (input_property_wise_connections st2 !! a)]>
                (input_property_wise_connections st1) ∧
            output_property_wise_connections st2
            = <[a := default ∅ (output_property_wise_connections st2 !! a)]>
                (output_property_wise_connections st1)) as Hstep.
  { intros st1 a st2. unfold body, discover_connections_of_block.
    destruct (discover_block_input_connections _ _ _); [|done]. simpl.
    intros [= <-]. simpl. by rewrite !lookup_insert_eq. }
  split; [|split; [|done]].
  - intros c. rewrite <-Hkeys. pose proof Hst as Hacc.
    eapply (for_each_accumulates body
              (λ st c, is_Some (input_property_wise_connections st !! c))
              (λ a c, a = c)) in Hacc.
    + etrans; [apply Hacc|]. simpl. rewrite lookup_empty.
      split; [|naive_solver].
      intros [[]%is_Some_None|(a & Ha & <-)]. done.
    + intros st1 a st2 c' _ [-> _]%Hstep.
      destruct (decide (a = c')) as [<-|Hne].
      * rewrite lookup_insert_eq. split; [by right|by eauto].
      * rewrite lookup_insert_ne by done. naive_solver.
  - intros c. rewrite <-Hkeys. pose proof Hst as Hacc.
    eapply (for_each_accumulates body
              (λ st c, is_Some (output_property_wise_connections st !! c))
              (λ a c, a = c)) in Hacc.
    + etrans; [apply Hacc|]. simpl. rewrite lookup_empty.
      split; [|naive_solver].
      intros [[]%is_Some_None|(a & Ha & <-)]. done.
    + intros st1 a st2 c' _ [_ ->]%Hstep.
      destruct (decide (a = c')) as [<-|Hne].
      * rewrite lookup_insert_eq. split; [by right|by eauto].
      * rewrite lookup_insert_ne by done. naive_solver.
Qed.

Lemma discover_blocks_connections_returns
    (block_manifest_metadata : BlockDescription → BlockManifestMetadata)
    (describe_outputs : string → list OutputDefinition)
    (blocks : list BlockDescription) :
  returns (discover_blocks_connections block_manifest_metadata
             describe_outputs blocks).
Proof.
  unfold discover_blocks_connections.
  destruct (get_all_inputs_kind_major_returns blocks
              (parse_all_schemas block_manifest_metadata blocks))
    as [detailed ->].
  { intros b Hb. apply parse_all_schemas_is_Some. by exists b. }
  simpl.
  destruct (discover_connections_loop_spec describe_outputs
              (parse_all_schemas block_manifest_metadata blocks)
              (get_all_outputs_kind_major blocks)
              (convert_kinds_mapping_to_block_wise_format detailed
                 {[STEP_OUTPUT_AS_SELECTED_ELEMENT]})) as (st & -> & _).
  simpl. by eexists.
Qed.

(** What the discovery returned. *)
Lemma discover_blocks_connections_inv
    (block_manifest_metadata : BlockDescription → BlockManifestMetadata)
    (describe_outputs : string → list OutputDefinition)
    (blocks : list BlockDescription) (r : DiscoveredConnections) :
  discover_blocks_connections block_manifest_metadata describe_outputs blocks
  = Ok r →
  ∃ detailed,
    get_all_inputs_kind_major blocks
      (parse_all_schemas block_manifest_metadata blocks) = Ok detailed ∧
    kinds_connections r = detailed ∧
    (∀ c, is_Some (property_wise (input_connections r) !! c) ↔
          ∃ block, block ∈ blocks ∧ description_block_class block = c) ∧
    (∀ c, is_Some (property_wise (output_connections r) !! c) ↔
          ∃ block, block ∈ blocks ∧ description_block_class block = c) ∧
    (∀ c ins,
       property_wise (input_connections r) !! c = Some ins →
       discover_block_input_connections c
         (parse_all_schemas block_manifest_metadata blocks)
         (get_all_outputs_kind_major blocks) = Ok ins) ∧
    (∀ c outs,
       property_wise (output_connections r) !! c = Some outs →
       outs = (discover_block_output_connections describe_outputs c
                 (convert_kinds_mapping_to_block_wise_format detailed
                    {[STEP_OUTPUT_AS_SELECTED_ELEMENT]})).1) ∧
    block_wise (input_connections r)
    = convert_property_connections_to_block_wise_connections
        (property_wise (input_connections r)) ∧
    block_wise (output_connections r)
    = convert_property_connections_to_block_wise_connections
        (property_wise (output_connections r)).
Proof.
  unfold discover_blocks_connections.
  destruct (get_all_inputs_kind_major blocks
              (parse_all_schemas block_manifest_metadata blocks))
    as [detailed|] eqn:Hdetailed; [|done].
  simpl.
  destruct (discover_connections_loop_spec describe_outputs
              (parse_all_schemas block_manifest_metadata blocks)
              (get_all_outputs_kind_major blocks)
              (convert_kinds_mapping_to_block_wise_format detailed
                 {[STEP_OUTPUT_AS_SELECTED_ELEMENT]}))
    as (st & Hst & Hkeys_in & Hkeys_out & Hins & Houts).
  rewrite Hst. simpl. intros <-%Ok_inj. simpl.
  exists detailed. split; [done|]. split; [done|]. split.
  { intros c. rewrite Hkeys_in. apply parse_all_schemas_is_Some. }
  split.
  { intros c. rewrite Hkeys_out. apply parse_all_schemas_is_Some. }
  split; [done|]. split; [done|]. done.
Qed.

(** X20. [discover_blocks_connections] always returns: the schema of every
    described block is parsed before it is looked up.  Both property-wise
    dictionaries hold exactly the described block classes; a block is
    mapped to its input connections against the producers-by-kind index and
    to its output connections against the consumers of step outputs, the
    entries that earlier lookups added to that shared index changing
    nothing; the block-wise dictionaries are the unions of the
    property-wise ones and the kinds connections are the consumers-by-kind
    index. *)
Theorem discovered_connections_of_the_described_blocks
    (block_manifest_metadata : BlockDescription → BlockManifestMetadata)
    (describe_outputs : string → list OutputDefinition)
    (blocks : list BlockDescription) :
  ∃ r detailed,
    discover_blocks_connections block_manifest_metadata describe_outputs blocks
    = Ok r ∧
    get_all_inputs_kind_major blocks
      (parse_all_schemas block_manifest_metadata blocks) = Ok detailed ∧
    kinds_connections r = detailed ∧
    (∀ c, is_Some (property_wise (input_connections r) !! c) ↔
          ∃ block, block ∈ blocks ∧ description_block_class block = c) ∧
    (∀ c, is_Some (property_wise (output_connections r) !! c) ↔
          ∃ block, block ∈ blocks ∧ description_block_class block = c) ∧
    (∀ c ins,
       property_wise (input_connections r) !! c = Some ins →
       discover_block_input_connections c
         (parse_all_schemas block_manifest_metadata blocks)
         (get_all_outputs_kind_major blocks) = Ok ins) ∧
    (∀ c outs,
       property_wise (output_connections r) !! c = Some outs →
       outs = (discover_block_output_connections describe_outputs c
                 (convert_kinds_mapping_to_block_wise_format detailed
                    {[STEP_OUTPUT_AS_SELECTED_ELEMENT]})).1) ∧
    block_wise (input_connections r)
    = convert_property_connections_to_block_wise_connections
        (property_wise (input_connections r)) ∧
    block_wise (output_connections r)
    = convert_property_connections_to_block_wise_connections
        (property_wise (output_connections r)).
Proof.
  destruct (discover_blocks_connections_returns block_manifest_metadata
              describe_outputs blocks) as [r Hr].
  destruct (discover_blocks_connections_inv _ _ _ _ Hr)
    as (detailed & Hdetailed & Hkinds & Hrest).
  by exists r, detailed.
Qed.

Lemma discovered_connections_of_the_described_blocks_witness :
  ∃ r, discover_blocks_connections example_block_manifest_metadata
         example_describe_outputs example_block_descriptions = Ok r ∧
       is_Some (property_wise (input_connections r) !! "TransformBlock") ∧
       ¬ is_Some (property_wise (input_connections r) !! "OtherBlock").
Proof.
  destruct (discovered_connections_of_the_described_blocks
              example_block_manifest_metadata example_describe_outputs
              example_block_descriptions)
    as (r & detailed & Hr & _ & _ & Hin & _).
  exists r. split; [done|]. split.
  - apply Hin. exists transform_block_description. split; [right; left|done].
  - intros (block & Hblock & Hclass)%Hin.
    apply elem_of_cons in Hblock as [->|Hblock]; [discriminate Hclass|].
    apply list_elem_of_singleton in Hblock as ->. discriminate Hclass.
Defined.

(** ** Connections between blocks *)

(** X21. The discovered connections in terms of the declared kinds.  A
    block [B] is an input connection of the property [p] of the block [A]
    exactly when [p] accepts a step output under a kind that is the
    wildcard or that [B] produces.  A block [A] is an output connection of
    the output [o] of the block [B] exactly when a property of [A] accepts
    a step output under a kind of the name of a kind of [o], or accepts any
    step output while [o] has the wildcard kind. *)
Theorem connections_between_blocks
    (block_manifest_metadata : BlockDescription → BlockManifestMetadata)
    (describe_outputs : string → list OutputDefinition)
    (blocks : list BlockDescription) (r : DiscoveredConnections) :
  discover_blocks_connections block_manifest_metadata describe_outputs blocks
  = Ok r →
  (∀ A ins p X,
     property_wise (input_connections r) !! A = Some ins →
     ins !! p = Some X →
     ∃ md name sd,
       parse_all_schemas block_manifest_metadata blocks !! A = Some md ∧
       selectors md !! name = Some sd ∧ property_name sd = p ∧
       ∀ B, B ∈ X ↔
            ∃ k block,
              accepts_step_output_of_kind sd k ∧
              block ∈ blocks ∧ description_block_class block = B ∧
              (k = kind_name WILDCARD_KIND ∨ produces_kind block k)) ∧
  (∀ B outs o X,
     property_wise (output_connections r) !! B = Some outs →
     outs !! o = Some X →
     ∃ output,
       output ∈ describe_outputs B ∧ output_definition_name output = o ∧
       ∀ A, A ∈ X ↔
            ∃ single_kind block md name sd,
              single_kind ∈ output_definition_kind output ∧
              block ∈ blocks ∧ description_block_class block = A ∧
              parse_all_schemas block_manifest_metadata blocks !! A = Some md ∧
              selectors md !! name = Some sd ∧
              ((kind_name single_kind = kind_name WILDCARD_KIND ∧
                accepts_step_output sd) ∨
               accepts_step_output_of_kind sd (kind_name single_kind))).
Proof.
  intros Hr.
  destruct (discover_blocks_connections_inv _ _ _ _ Hr)
    as (detailed & Hdetailed & _ & Hin_keys & _ & Hins & Houts & _).
  split.
  - intros A ins p X HA Hp.
    assert (is_Some (parse_all_schemas block_manifest_metadata blocks !! A))
      as [md Hmd].
    { apply parse_all_schemas_is_Some, Hin_keys. by eexists. }
    destruct (discover_block_input_connections_spec A _
                (get_all_outputs_kind_major blocks) md Hmd)
      as (ins' & Hins' & _ & Hvalues).
    rewrite (Hins A ins HA) in Hins'. apply Ok_inj in Hins'. subst ins'.
    destruct (Hvalues p X Hp) as (name & sd & Hname & Hsd & HX).
    exists md, name, sd. split; [done|]. split; [done|]. split; [done|].
    intros B. rewrite HX.
    setoid_rewrite elem_of_get_all_outputs_kind_major. naive_solver.
  - intros B outs o X HB Ho. rewrite (Houts B outs HB) in Ho.
    destruct (discover_block_output_connections_loop (describe_outputs B)
                (convert_kinds_mapping_to_block_wise_format detailed
                   {[STEP_OUTPUT_AS_SELECTED_ELEMENT]}))
      as (_ & _ & _ & Hvalues).
    destruct (Hvalues o X Ho) as (output & Hin & Hname & HX).
    exists output. split; [done|]. split; [done|]. intros A. rewrite HX.
    setoid_rewrite elem_of_convert_kinds_mapping_to_block_wise_format.
    setoid_rewrite (elem_of_get_all_inputs_kind_major _ _ _ _ _ Hdetailed).
    split.
    + intros (single_kind & Hkind & d & (b & md & name & sel & ref & Hb & Hmd
                & Hsel & Href & Hne & Hk & ->) & Hce%elem_of_singleton & <-).
      simpl in *. exists single_kind, b, md, name, sel.
      split; [done|]. split; [done|]. split; [done|]. split; [done|].
      split; [done|]. destruct Hk as [Hk|(sk & Hsk & Hk)].
      * left. split; [done|]. by exists ref.
      * right. by exists ref, sk.
    + intros (single_kind & b & md & name & sel & Hkind & Hb & <- & Hmd & Hsel
              & Hacc).
      exists single_kind. split; [done|].
      assert (∃ ref, ref ∈ allowed_references sel ∧
                     selected_element ref = STEP_OUTPUT_AS_SELECTED_ELEMENT ∧
                     (kind_name single_kind = kind_name WILDCARD_KIND ∨
                      ∃ sk, sk ∈ reference_kind ref ∧
                            kind_name sk = kind_name single_kind))
        as (ref & Href & Hse & Hk).
      { destruct Hacc as [[Hw (ref & Href & Hse)]|(ref & sk & Href & Hse & Hsk & Hk)].
        - exists ref. auto.
        - exists ref. split; [done|]. split; [done|]. right. by exists sk. }
      exists (property_definition_of b sel ref). split.
      * exists b, md, name, sel, ref. split; [done|]. split; [done|].
        split; [done|]. split; [done|]. split; [|done].
        rewrite Hse. simpl. discriminate.
      * simpl. split; [|done]. by apply elem_of_singleton.
Qed.

Lemma connections_between_blocks_witness :
  ∃ r ins X,
    discover_blocks_connections example_block_manifest_metadata
      example_describe_outputs example_block_descriptions = Ok r ∧
    property_wise (input_connections r) !! "TransformBlock" = Some ins ∧
    ins !! "x" = Some X ∧
    "TransformBlock" ∈ X ∧ "ConditionBlock" ∉ X.
Proof.
  destruct (discover_blocks_connections_returns example_block_manifest_metadata
              example_describe_outputs example_block_descriptions) as [r Hr].
  destruct (discover_blocks_connections_inv _ _ _ _ Hr)
    as (detailed & _ & _ & Hin_keys & _ & Hins & _).
  destruct (proj2 (Hin_keys "TransformBlock")) as [ins Hpw].
  { exists transform_block_description. split; [right; left|done]. }
  assert (parse_all_schemas example_block_manifest_metadata
            example_block_descriptions !! "TransformBlock"
          = Some transform_block_schema) as Hmd by (vm_compute; reflexivity).
  destruct (discover_block_input_connections_spec "TransformBlock" _
              (get_all_outputs_kind_major example_block_descriptions)
              transform_block_schema Hmd) as (ins' & Hins' & Hkeys & _).
  rewrite (Hins _ _ Hpw) in Hins'. apply Ok_inj in Hins'. subst ins'.
  destruct (proj2 (Hkeys "x")) as [X HX].
  { exists "x", (data_reference "x" "" value_kind).
    split; [vm_compute; reflexivity|done]. }
  destruct (connections_between_blocks _ _ _ r Hr) as [Hinputs _].
  destruct (Hinputs "TransformBlock" ins "x" X Hpw HX)
    as (md & name & sd & Hmd' & Hname & Hsd & Hchar).
  assert (md = transform_block_schema) as -> by congruence.
  assert (sd = data_reference "x" "" value_kind) as ->.
  { unfold transform_block_schema in Hname. simpl in Hname.
    apply lookup_insert_Some in Hname as [[_ <-]|[_ Hname]]; [done|].
    by rewrite lookup_empty in Hname. }
  exists r, ins, X. split; [done|]. split; [done|]. split; [done|]. split.
  - apply Hchar. exists "value", transform_block_description.
    split; [|split; [right; left|split; [done|]]].
    + eexists _, value_kind. split; [right; left|]. split; [done|].
      split; [left|done].
    + right. eexists _, value_kind. split; [left|]. split; [left|done].
  - intros (k & block & (ref & sk & Href & _ & Hsk & Hk) & Hblock & Hclass
            & Hproduces)%Hchar.
    assert (k = "value") as ->.
    { apply elem_of_cons in Href as [->|Href].
      - apply list_elem_of_singleton in Hsk as ->. done.
      - apply list_elem_of_singleton in Href as ->.
        apply list_elem_of_singleton in Hsk as ->. done. }
    apply elem_of_cons in Hblock as [->|Hblock].
    + destruct Hproduces as [Hw|(o & _ & Ho & _)]; [discriminate Hw|].
      by apply elem_of_nil in Ho.
    + apply list_elem_of_singleton in Hblock as ->. discriminate Hclass.
Defined.

(** ** Graphs without flow-control steps *)




(** ** Nothing is left unused *)



(** ** The errors of compilation *)

Lemma for_each_raise_inv {A S : Type} (body : S → A → Result S) l s e :
  for_each body l s = Raise e → ∃ s1 a, a ∈ l ∧ body s1 a = Raise e.
Proof.
  revert s. induction l as [|a l IH]; intros s; simpl; [done|].
  destruct (body s a) as [s'|e'] eqn:Ha; simpl.
  - intros (s1 & b & Hb & Hraise)%IH. exists s1, b. split; [by right|done].
  - intros [= <-]. exists s, a. split; [left|done].
Qed.

Lemma for_each_return_inv {A S : Type} (body : S → A → Result S) l s s' a :
  for_each body l s = Ok s' → a ∈ l → ∃ s1 s2, body s1 a = Ok s2.
Proof.
  revert s. induction l as [|b l IH]; intros s; simpl;
    [by intros _ ?%elem_of_nil|].
  destruct (body s b) as [s1|] eqn:Hb; simpl; [|done].
  intros Hrest [->|Ha]%elem_of_cons; [by eauto|]. by eapply IH.
Qed.

Lemma add_edge_for_step_raises G s sd m e :
  add_edge_for_step G s sd m = Raise e →
  error_class e ∈ construction_error_classes.
Proof.
  unfold add_edge_for_step, verify_edge_is_created_between_existing_nodes.
  destruct (has_node G s); simpl; [|intros [= <-]; simpl; in_list].
  destruct (has_node G _); simpl; [|intros [= <-]; simpl; in_list].
  destruct (is_step_selector (selector sd)).
  { unfold establish_flow_control_edge.
    destruct (step_definition_allows_flow_control_references sd); simpl; [done|].
    intros [= <-]. simpl. in_list. }
  unfold actual_input_kind.
  destruct (is_input_selector (selector sd)).
  - unfold input_kind_of_node.
    destruct (node_attrs G (selector sd)) as [a|]; simpl;
      [|intros [= <-]; simpl; in_list].
    destruct (definition a) as [[]|]; simpl;
      try (intros [= <-]; simpl; in_list).
    unfold validate_reference_types. repeat case_bool_decide; simpl; try done.
    intros [= <-]. simpl. in_list.
  - unfold manifest_of_node.
    destruct (node_attrs G _) as [a|]; simpl; [|intros [= <-]; simpl; in_list].
    destruct (definition a) as [[]|]; simpl;
      try (intros [= <-]; simpl; in_list).
    unfold get_kind_of_value_provided_in_step_output.
    destruct (m !! _); simpl; [|intros [= <-]; simpl; in_list].
    unfold validate_reference_types. repeat case_bool_decide; simpl; try done.
    intros [= <-]. simpl. in_list.
Qed.

Lemma construct_graph_raises wd m e :
  construct_graph wd m = Raise e →
  error_class e ∈ construction_error_classes.
Proof.
  unfold construct_graph. fold (construct_nodes wd).
  destruct (add_steps_edges wd (construct_nodes wd) m) as [G1|e1] eqn:HG1; simpl.
  - intros (G2 & o & _ & Hraise)%for_each_raise_inv. revert Hraise.
    unfold add_edge_for_output, verify_edge_is_created_between_existing_nodes.
    destruct (has_node G2 _); simpl; [|intros [= <-]; simpl; in_list].
    destruct (has_node G2 _); simpl; [done|]. intros [= <-]. simpl. in_list.
  - intros [= <-]. apply for_each_raise_inv in HG1 as (G2 & step & _ & Hraise).
    apply for_each_raise_inv in Hraise as (G3 & sd & _ & Hraise).
    by eapply add_edge_for_step_raises.
Qed.

(** X24. Compilation fails with an error of the workflow package or with
    the [KeyError] or [AttributeError] of a failed lookup only: the
    topological sorts and the depth-first searches of networkx never raise
    on a graph that was built, and no loop of the model runs out of its
    iteration bound. *)
Theorem compilation_errors_are_workflow_errors
    (wd : ParsedWorkflowDefinition) (blocks : list BlockSpecification)
    (e : WorkflowError) :
  prepare_execution_graph wd blocks = Raise e →
  error_class e ∈ compilation_error_classes.
Proof.
  assert (∀ c, c ∈ construction_error_classes → c ∈ compilation_error_classes)
    as Hconstruction.
  { intros c Hc. apply elem_of_app. by left. }
  unfold prepare_execution_graph.
  destruct (construct_graph wd (manifest_classes_of blocks)) as [G|e0] eqn:HG;
    simpl.
  2: { intros [= <-]. by eapply Hconstruction, construct_graph_raises. }
  clear Hconstruction. unfold compilation_error_classes. simpl.
  pose proof (construct_graph_wf _ _ _ HG) as Hwf.
  destruct (is_directed_acyclic_graph_spec G Hwf) as [[_ ->]|[Hacyclic ->]];
    simpl.
  { intros [= <-]. simpl. in_list. }
  destruct (verify_each_node_reach_at_least_one_output G _) as [[]|e1] eqn:Hreach;
    simpl.
  - destruct (verify_each_node_step_has_parent_in_the_same_branch_spec
                G Hwf Hacyclic) as (τ & _ & [[_ ->]|[_ ->]]); simpl; [|done].
    intros [= <-]. simpl. in_list.
  - intros [= <-]. revert Hreach.
    unfold verify_each_node_reach_at_least_one_output.
    destruct (get_nodes_that_do_not_produce_outputs G _) as [T|e2] eqn:HT; simpl.
    + assert (steps_registered G (manifest_classes_of blocks)) as Hreg.
      { apply steps_defined_registered;
          [by apply (construct_graph_steps_defined _ _ _ HG)|].
        intros n step Hn Hstep. unfold get_nodes_that_do_not_produce_outputs in HT.
        eapply (for_each_return_inv _ _ _ _ n) in HT as (T1 & T2 & Hbody);
          [|by apply elem_of_elements].
        rewrite (manifest_of_node_step _ _ _ Hstep) in Hbody. simpl in Hbody.
        by destruct (manifest_classes_of blocks !! manifest_class step). }
      destruct (verify_each_node_reach_at_least_one_output_decided G _ Hwf Hreg)
        as [[Hok _]|(offenders & Hraise & _)];
        unfold verify_each_node_reach_at_least_one_output in *;
        rewrite HT in *; simpl in *.
      * intros Hreach. by rewrite Hreach in Hok.
      * intros Hreach. rewrite Hreach in Hraise. injection Hraise as ->.
        simpl. in_list.
    + intros [= <-]. unfold get_nodes_that_do_not_produce_outputs in HT.
      apply for_each_raise_inv in HT as (T1 & n & _ & Hraise). revert Hraise.
      unfold manifest_of_node.
      destruct (node_attrs G n) as [a|]; simpl; [|intros [= <-]; simpl; in_list].
      destruct (definition a) as [[]|]; simpl;
        try (intros [= <-]; simpl; in_list).
      destruct (manifest_classes_of blocks !! _); simpl;
        [by case_decide|intros [= <-]; simpl; in_list].
Qed.

Lemma compilation_errors_are_workflow_errors_witness :
  ExecutionGraphStructureErrorClass ∈ compilation_error_classes ∧
  error_class (ExecutionGraphStructureError DetectedCycle)
  ∈ compilation_error_classes.
Proof.
  split; [right; left|].
  apply (compilation_errors_are_workflow_errors scenario_3 example_blocks).
  vm_compute. reflexivity.
Defined.
